(** * The Bitburner deployment plug-in, embedded from [src/index.ts]

  The plug-in registers callbacks with a bundler and a remote API server.
  Its pure pieces (the regular-expression filters, the rebasing of paths)
  are functions. The build callbacks, which interleave and share the flag
  [queued], form a transition system whose steps are the stretches of code
  between two suspension points ([await]); a continuation runs in the step
  of the settlement that enables it. The mirror handler, which awaits one
  call at a time, is a program in a small trace-and-exception monad.

  Conventions.
  - A JavaScript string is a [string]: a sequence of code units below 256.
    The line terminators U+2028 and U+2029 are therefore outside the model.
  - Console output, and the two timestamps that only feed it, are left out;
    so is the number that [calculateRAM] resolves to, which is only printed.
  - Calls to collaborators (file system, remote API, extension hooks) are
    recorded in a trace, oldest first; what they answer is chosen by the
    environment. *)

From Stdlib Require Import String Ascii List Bool Arith Lia.
From stdpp Require Import base list strings.
Import ListNotations.
Open Scope string_scope.
Open Scope list_scope.
Set Warnings "-register-all".


(* ===================================================================== *)
(** ** Regular expressions, as far as the two patterns of the source need *)
(* ===================================================================== *)

Module Regex.

Inductive re : Type :=
| Void                        (* matches nothing *)
| Eps                         (* the empty string *)
| Cls (p : ascii -> bool)     (* one code unit satisfying [p] *)
| Cat (r1 r2 : re)
| Alt (r1 r2 : re)
| Star (r : re).

Fixpoint nullable (r : re) : bool :=
  match r with
  | Void => false
  | Eps => true
  | Cls _ => false
  | Cat r1 r2 => nullable r1 && nullable r2
  | Alt r1 r2 => nullable r1 || nullable r2
  | Star _ => true
  end.

Definition cat (r1 r2 : re) : re :=
  match r1, r2 with
  | Void, _ => Void
  | _, Void => Void
  | Eps, _ => r2
  | _, _ => Cat r1 r2
  end.

Definition alt (r1 r2 : re) : re :=
  match r1, r2 with
  | Void, _ => r2
  | _, Void => r1
  | _, _ => Alt r1 r2
  end.

(** Brzozowski derivative: what remains to be matched after [c]. *)
Fixpoint deriv (c : ascii) (r : re) : re :=
  match r with
  | Void => Void
  | Eps => Void
  | Cls p => if p c then Eps else Void
  | Cat r1 r2 =>
      alt (cat (deriv c r1) r2) (if nullable r1 then deriv c r2 else Void)
  | Alt r1 r2 => alt (deriv c r1) (deriv c r2)
  | Star r1 => cat (deriv c r1) (Star r1)
  end.

(** [/^r$/.test(s)] *)
Fixpoint test (r : re) (s : string) : bool :=
  match s with
  | EmptyString => nullable r
  | String c s' => test (deriv c r) s'
  end.

(** The shortest prefix of [s] matched by [r], returned as what follows it.
    This is how [/^r/] matches when the quantifiers of [r] are lazy and the
    pattern ends after them, as in [/^.*?\//]. *)
Fixpoint shortest_prefix (r : re) (s : string) : option string :=
  if nullable r then Some s
  else match s with
       | EmptyString => None
       | String c s' => shortest_prefix (deriv c r) s'
       end.

Definition chr (a : ascii) : re := Cls (Ascii.eqb a).

Fixpoint lit (s : string) : re :=
  match s with
  | EmptyString => Eps
  | String a s' => Cat (chr a) (lit s')
  end.

Definition opt (r : re) : re := Alt r Eps.

(** [\n] and [\r]: the code units that [.] does not match. *)
Definition line_terminator (c : ascii) : bool :=
  Ascii.eqb c "010" || Ascii.eqb c "013".

Definition dot : re := Cls (fun c => negb (line_terminator c)).

End Regex.

(* ===================================================================== *)
(** ** The string methods the source calls *)
(* ===================================================================== *)

Module Js.

(** [s.replaceAll(a, b)] for one-unit strings [a] and [b]. *)
Fixpoint replaceAll (a b : ascii) (s : string) : string :=
  match s with
  | EmptyString => EmptyString
  | String c s' => String (if Ascii.eqb c a then b else c) (replaceAll a b s')
  end.

(** [s.replace(/^r/, '')] for a pattern matched as in
    [Regex.shortest_prefix]: the match is removed, and a string without a
    match is returned as it is. *)
Definition replace_prefix (r : Regex.re) (s : string) : string :=
  match Regex.shortest_prefix r s with
  | Some rest => rest
  | None => s
  end.

(** [s.split(a)] for a one-unit separator: never an empty array. *)
Fixpoint split (a : ascii) (s : string) : list string :=
  match s with
  | EmptyString => [EmptyString]
  | String c s' =>
      if Ascii.eqb c a then EmptyString :: split a s'
      else match split a s' with
           | [] => [String c EmptyString]
           | w :: ws => String c w :: ws
           end
  end.

(** [arr[0]] on an array of strings ([undefined] is not reached: the only
    array indexed this way comes from [split]). *)
Definition first (l : list string) : string := hd EmptyString l.

End Js.

(* ===================================================================== *)
(** ** [onResolve] and [onLoad]: the two React packages (lines 129-145) *)
(* ===================================================================== *)

Module React.

(** [/^react(-dom)?$/], the filter of both registrations. *)
Definition filter : Regex.re :=
  Regex.Cat (Regex.lit "react") (Regex.opt (Regex.lit "-dom")).

(** The arguments the bundler hands to a callback. The callbacks read
    [path] only; the other fields stand for the rest of the import. *)
Record Args : Type := {
  path : string;
  importer : string;
  a_namespace : string;
  resolveDir : string }.

Record Resolved : Type := { r_namespace : string; r_path : string }.

(** The callback of [pluginBuild.onResolve]. *)
Definition onResolve_callback (opts : Args) : Resolved :=
  {| r_namespace := "react"; r_path := path opts |}.

(** The callback of [pluginBuild.onLoad]; [None] is [undefined]. *)
Definition onLoad_callback (opts : Resolved) : option string :=
  if String.eqb (r_path opts) "react" then
    Some "module.exports = window.React"
  else if String.eqb (r_path opts) "react-dom" then
    Some "module.exports = window.ReactDOM"
  else None.

(** A registration runs its callback on the paths its filter matches
    (and, for [onLoad], in its namespace); [None] leaves the import to
    the bundler's own resolution. *)
Definition onResolve (opts : Args) : option Resolved :=
  if Regex.test filter (path opts) then Some (onResolve_callback opts)
  else None.

Definition onLoad (opts : Resolved) : option string :=
  if Regex.test filter (r_path opts) && String.eqb (r_namespace opts) "react"
  then onLoad_callback opts
  else None.

(** What the plug-in supplies as the module's source, if anything. *)
Definition module_source (opts : Args) : option string :=
  match onResolve opts with
  | Some r => onLoad r
  | None => None
  end.

End React.

(* ===================================================================== *)
(** ** The output directory and its resolution (lines 163-170) *)
(* ===================================================================== *)

Module Dirent.
Inductive kind : Type := RegularFile | Directory | Other.
(** [path] is the directory the entry lies in, [name] its own name. *)
Record t : Type := mk { name : string; path : string; type : kind }.
Definition isFile (d : t) : bool :=
  match type d with RegularFile => true | _ => false end.
End Dirent.

Module Resolver.

(** [{ server, filename, path }] of line 166. *)
Record OutputFile : Type := {
  server : string;
  filename : string;
  path : string }.

(** [/^.*?\//] *)
Definition first_segment : Regex.re :=
  Regex.Cat (Regex.Star Regex.dot) (Regex.chr "/").

(** Line 165: the entry with its [path] rebased. *)
Definition rebase (file : Dirent.t) : Dirent.t :=
  Dirent.mk (Dirent.name file)
    (Js.replace_prefix first_segment
       (Js.replaceAll "\" "/" (Dirent.path file)))
    (Dirent.type file).

(** Lines 166-170. *)
Definition describe (outdir : string) (file : Dirent.t) : OutputFile :=
  {| server := Js.first (Js.split "/" (Dirent.path file));
     filename :=
       Js.replace_prefix first_segment
         (Dirent.path file +:+ "/" +:+ Dirent.name file);
     path := outdir +:+ "/" +:+ Dirent.path file +:+ "/" +:+ Dirent.name file |}.

(** Lines 163-170, applied to what [fs.readdir] resolved to. *)
Definition output_files (outdir : string) (entries : list Dirent.t)
  : list OutputFile :=
  map (describe outdir) (map rebase (List.filter Dirent.isFile entries)).

(** *** The directory on disk

    [fs.readdir(outdir, { recursive: true, withFileTypes: true })] and
    [path.join] belong to the runtime. The listing holds every entry below
    [outdir]. A directory is listed in full, in the order in which the file
    system gives its entries, before any of its sub-directories is gone
    into; the sub-directories found wait on a stack, so the one listed last
    is gone into first, with all that lies below it. The [path] of an entry
    at the top is [outdir] as given; that of a deeper one is
    [path.join(path, name)] of the directory it lies in. [path.join] is a
    parameter [join]. The listing rejects when [outdir] does not exist. *)

Inductive node : Type :=
| File (name : string)
| Dir (name : string) (children : list node).

(** The entry of [n] in the listing of the directory [parent]. *)
Definition entry (parent : string) (n : node) : Dirent.t :=
  match n with
  | File nm => Dirent.mk nm parent Dirent.RegularFile
  | Dir nm _ => Dirent.mk nm parent Dirent.Directory
  end.

(** What the listing holds below the entry [n] of the directory [parent]. *)
Fixpoint entries (join : string -> string -> string) (parent : string)
    (n : node) : list Dirent.t :=
  match n with
  | File _ => []
  | Dir nm children =>
      map (entry (join parent nm)) children
      ++ fold_right
           (fun c later => later ++ entries join (join parent nm) c)
           [] children
  end.

(** [None] on the left is a directory that does not exist; [None] on the
    right is the rejection. *)
Definition readdir (join : string -> string -> string) (outdir : string)
    (dir : option (list node)) : option (list Dirent.t) :=
  match dir with
  | None => None
  | Some children =>
      Some (map (entry outdir) children
            ++ fold_right (fun c later => later ++ entries join outdir c)
                 [] children)
  end.

(** [path.join(parent, name)] where it has nothing to normalise: on a host
    with separator [sep], for a [parent] without [.] or [..] segments and
    without doubled or trailing separators, and a [name] that is the name
    of a directory entry. *)
Definition joined (sep parent name : string) : string :=
  parent +:+ sep +:+ name.

End Resolver.

(* ===================================================================== *)
(** ** Extension hooks and their dispatch (lines 45, 60, 63, 75, 81, 126, 202) *)
(* ===================================================================== *)

Module Hooks.

Inductive hook_name : Type :=
| setup | beforeConnect | afterConnect
| beforeBuild | afterBuild
| beforeDistribute | afterDistribute.

(** A hook is typed [() => void | Promise<void>]. What matters of a call
    to it is whether it returns a plain value, throws, or returns a
    promise (whose settlement comes later, from the environment). *)
Inductive behaviour : Type := Returns | Throws | ReturnsPromise.

(** An extension: each hook is optional. *)
Definition Extension : Type := hook_name -> option behaviour.

Inductive promise : Type := Pending | Fulfilled | Rejected.

Definition is_settled (p : promise) : bool :=
  match p with Pending => false | _ => true end.

Definition is_fulfilled (p : promise) : bool :=
  match p with Fulfilled => true | _ => false end.

(** [(e.h ?? (() => { }))(...)]: the value that lands in the array, as
    [Promise.allSettled] sees it, or [None] when the call throws. *)
Definition call (h : hook_name) (e : Extension) : option promise :=
  match e h with
  | None => Some Fulfilled
  | Some Returns => Some Fulfilled
  | Some Throws => None
  | Some ReturnsPromise => Some Pending
  end.

Definition implements (h : hook_name) (e : Extension) : bool :=
  match e h with Some _ => true | None => false end.

(** [extensions.map(e => (e.h ?? (() => { }))(...))], from index [i] on:
    the extensions whose own hook was called, in order, and the array, or
    [None] when a call threw and ended the map there. *)
Fixpoint map_hooks (h : hook_name) (i : nat) (exts : list Extension)
  : list nat * option (list promise) :=
  match exts with
  | [] => ([], Some [])
  | e :: rest =>
      let here := if implements h e then [i] else [] in
      match call h e with
      | None => (here, None)
      | Some p =>
          let '(called, arr) := map_hooks h (S i) rest in
          (here ++ called, option_map (cons p) arr)
      end
  end.

(** The promise of [Promise.allSettled(arr)] fulfils once no element is
    pending; it never rejects. *)
Definition allSettled (arr : list promise) : bool := forallb is_settled arr.

(** The promise of [Promise.all(arr)] fulfils once every element has. *)
Definition all (arr : list promise) : bool := forallb is_fulfilled arr.

End Hooks.

(* ===================================================================== *)
(** ** The build callbacks: [onStart] (122-127) and [onEnd] (147-205) *)
(* ===================================================================== *)

Module Deploy.

Import Hooks.

Record Config : Type := {
  outdir : string;
  join : string -> string -> string;  (* the host's [path.join] *)
  extensions : list Extension }.

(** The bundler's result; only [errors] is read. *)
Record BuildResult : Type := { errors : list string }.

(** The async arrow of line 175, one per file: it awaits [fs.readFile],
    then returns the promise of [remoteAPI.pushFile]. *)
Inductive wrapper : Type := Reading | Pushing | Pushed | Failed.

Definition is_pushed (w : wrapper) : bool :=
  match w with Pushed => true | _ => false end.

(** Where an invocation of the [onEnd] callback stands. *)
Inductive stage : Type :=
| AwaitClient      (* line 155 *)
| AwaitReaddir     (* line 163 *)
| AwaitPushes      (* line 181 *)
| AwaitCosts       (* line 184 *)
| AwaitHooks       (* line 202 *)
| Returned
| Threw.

Definition stage_eqb (a b : stage) : bool :=
  match a, b with
  | AwaitClient, AwaitClient | AwaitReaddir, AwaitReaddir
  | AwaitPushes, AwaitPushes | AwaitCosts, AwaitCosts
  | AwaitHooks, AwaitHooks | Returned, Returned | Threw, Threw => true
  | _, _ => false
  end.

(** An invocation of the callback that passed the two guards. *)
Record Task : Type := mkTask {
  at_ : stage;
  files : list Resolver.OutputFile;
  pushes : list wrapper;              (* [promises], line 174 *)
  costs : list promise;               (* the array of line 184 *)
  hooks : list promise }.             (* the array of line 202 *)

(** Calls made and settlements observed, tagged with the task. *)
Inductive Effect : Type :=
| Rm
| Readdir (tid : nat)
| ReadFile (tid i : nat) (path : string)
| PushFile (tid i : nat) (filename server content : string)
| PushFileSettled (tid i : nat) (ok : bool)
| CalculateRAM (tid i : nat) (filename server : string)
| CalculateRAMSettled (tid i : nat) (ok : bool)
| Dispatch (h : hook_name) (cycle : option nat)
| Hook (h : hook_name) (cycle : option nat) (ext : nat).

Record State : Type := mkState {
  queued : bool;                      (* line 119 *)
  connected : bool;                   (* remoteAPI.connection?.connected *)
  dir : option (list Resolver.node);  (* outdir on disk *)
  removing : nat;                     (* onStart invocations at line 125 *)
  listeners : list nat;               (* line 156: the task each resolves *)
  tasks : list Task;
  trace : list Effect }.

Definition init (connected : bool) (dir : option (list Resolver.node)) : State :=
  mkState false connected dir 0 [] [] [].

(** What the environment does: the bundler, the file system, the remote
    side. A settlement addressed to a call that is not outstanding is
    ignored. *)
Inductive Event : Type :=
| OnStart                                   (* the bundler starts a build *)
| RmDone (ok : bool)
| Written (d : list Resolver.node)          (* outdir is written *)
| OnEnd (r : BuildResult)                   (* the bundler ends a build *)
| ClientConnected
| Disconnected
| ReaddirDone (tid : nat)
| ReadFileDone (tid i : nat) (content : option string)
| PushFileDone (tid i : nat) (ok : bool)
| CalculateRAMDone (tid i : nat) (ok : bool)
| HookDone (tid i : nat) (ok : bool).

Definition set_at (st : stage) (t : Task) : Task :=
  mkTask st (files t) (pushes t) (costs t) (hooks t).
Definition set_pushes (ws : list wrapper) (t : Task) : Task :=
  mkTask (at_ t) (files t) ws (costs t) (hooks t).
Definition set_costs (cs : list promise) (t : Task) : Task :=
  mkTask (at_ t) (files t) (pushes t) cs (hooks t).
Definition set_hooks (hs : list promise) (t : Task) : Task :=
  mkTask (at_ t) (files t) (pushes t) (costs t) hs.

(** The awaited promise rejects: the callback throws if it is still
    suspended at that [await]. *)
Definition throw_at (st : stage) (t : Task) : Task :=
  if stage_eqb (at_ t) st then set_at Threw t else t.

(** [extensions.map(...)] of a dispatch, as effects. *)
Definition dispatch (cfg : Config) (h : hook_name) (cycle : option nat)
  : list Effect * option (list promise) :=
  let '(called, arr) := map_hooks h 0 (extensions cfg) in
  (Dispatch h cycle :: map (Hook h cycle) called, arr).

(** *** Steps of one task: new task, effects, and whether line 194 ran *)

(** Line 158: [resolve()]; lines 163: the callback goes on. *)
Definition resume (tid : nat) (t : Task) : Task * list Effect * bool :=
  match at_ t with
  | AwaitClient => (set_at AwaitReaddir t, [Readdir tid], false)
  | _ => (t, [], false)
  end.

(** Lines 163-179. *)
Definition readdir_done (cfg : Config) (tid : nat)
    (r : option (list Dirent.t)) (t : Task) : Task * list Effect * bool :=
  match at_ t with
  | AwaitReaddir =>
      match r with
      | None => (set_at Threw t, [], false)
      | Some ents =>
          let fs := Resolver.output_files (outdir cfg) ents in
          match fs with
          | [] => (set_at Returned t, [], false)
          | _ :: _ =>
              (mkTask AwaitPushes fs (map (fun _ => Reading) fs) [] [],
               imap (fun i f => ReadFile tid i (Resolver.path f)) fs,
               false)
          end
      end
  | _ => (t, [], false)
  end.

(** Lines 175-179, after [fs.readFile]. *)
Definition readFile_done (tid i : nat) (content : option string) (t : Task)
  : Task * list Effect * bool :=
  match pushes t !! i, files t !! i with
  | Some Reading, Some f =>
      match content with
      | Some c =>
          (set_pushes (<[i := Pushing]> (pushes t)) t,
           [PushFile tid i (Resolver.filename f) (Resolver.server f) c],
           false)
      | None =>
          (throw_at AwaitPushes (set_pushes (<[i := Failed]> (pushes t)) t),
           [], false)
      end
  | _, _ => (t, [], false)
  end.

(** Lines 181-188. *)
Definition pushFile_done (tid i : nat) (ok : bool) (t : Task)
  : Task * list Effect * bool :=
  match pushes t !! i with
  | Some Pushing =>
      if ok then
        let t1 := set_pushes (<[i := Pushed]> (pushes t)) t in
        if stage_eqb (at_ t1) AwaitPushes && forallb is_pushed (pushes t1) then
          (mkTask AwaitCosts (files t1) (pushes t1)
             (map (fun _ => Pending) (files t1)) (hooks t1),
           PushFileSettled tid i true
           :: imap (fun j f =>
                      CalculateRAM tid j (Resolver.filename f) (Resolver.server f))
                (files t1),
           false)
        else (t1, [PushFileSettled tid i true], false)
      else
        (throw_at AwaitPushes (set_pushes (<[i := Failed]> (pushes t)) t),
         [PushFileSettled tid i false], false)
  | _ => (t, [], false)
  end.

(** Lines 184-202. *)
Definition calculateRAM_done (cfg : Config) (tid i : nat) (ok : bool) (t : Task)
  : Task * list Effect * bool :=
  match costs t !! i with
  | Some Pending =>
      if ok then
        let t1 := set_costs (<[i := Fulfilled]> (costs t)) t in
        if stage_eqb (at_ t1) AwaitCosts && all (costs t1) then
          let '(effs, arr) := dispatch cfg afterBuild (Some tid) in
          (match arr with
           | None => set_at Threw t1
           | Some ps =>
               set_hooks ps
                 (set_at (if allSettled ps then Returned else AwaitHooks) t1)
           end,
           CalculateRAMSettled tid i true :: effs,
           true)
        else (t1, [CalculateRAMSettled tid i true], false)
      else
        (throw_at AwaitCosts (set_costs (<[i := Rejected]> (costs t)) t),
         [CalculateRAMSettled tid i false], false)
  | _ => (t, [], false)
  end.

(** Lines 202-204. *)
Definition hook_done (i : nat) (ok : bool) (t : Task)
  : Task * list Effect * bool :=
  match hooks t !! i with
  | Some Pending =>
      let t1 :=
        set_hooks (<[i := if ok then Fulfilled else Rejected]> (hooks t)) t in
      (if stage_eqb (at_ t1) AwaitHooks && allSettled (hooks t1)
       then set_at Returned t1 else t1,
       [], false)
  | _ => (t, [], false)
  end.

(** *** Steps of the whole state *)

Definition on_task (tid : nat) (f : Task -> Task * list Effect * bool)
    (s : State) : State :=
  match tasks s !! tid with
  | None => s
  | Some t =>
      let '(t', effs, release) := f t in
      mkState (if release then false else queued s) (connected s) (dir s)
        (removing s) (listeners s) (<[tid := t']> (tasks s))
        (trace s ++ effs)
  end.

Definition emit (effs : list Effect) (s : State) : State :=
  mkState (queued s) (connected s) (dir s) (removing s) (listeners s)
    (tasks s) (trace s ++ effs).

(** Lines 122-126, up to the first [await]. *)
Definition onStart (cfg : Config) (s : State) : State :=
  match dir s with
  | Some _ =>
      mkState (queued s) (connected s) (dir s) (S (removing s)) (listeners s)
        (tasks s) (trace s ++ [Rm])
  | None => emit (fst (dispatch cfg beforeBuild None)) s
  end.

(** Lines 125-126, after [fs.rm]. *)
Definition rm_done (cfg : Config) (ok : bool) (s : State) : State :=
  match removing s with
  | 0 => s
  | S n =>
      if ok then
        mkState (queued s) (connected s) None n (listeners s) (tasks s)
          (trace s ++ fst (dispatch cfg beforeBuild None))
      else
        mkState (queued s) (connected s) (dir s) n (listeners s) (tasks s)
          (trace s)
  end.

(** Lines 147-163, up to the first [await]. *)
Definition onEnd (r : BuildResult) (s : State) : State :=
  if negb (Nat.eqb (length (errors r)) 0) then s
  else if queued s then s
  else
    let tid := length (tasks s) in
    if negb (connected s) then
      mkState true (connected s) (dir s) (removing s) (listeners s ++ [tid])
        (tasks s ++ [mkTask AwaitClient [] [] [] []]) (trace s)
    else
      mkState (queued s) (connected s) (dir s) (removing s) (listeners s)
        (tasks s ++ [mkTask AwaitReaddir [] [] [] []])
        (trace s ++ [Readdir tid]).

(** Modelled from the spec: the emitter of [RemoteApiServer], whose source
    is not at hand. ['client-connected'] is emitted once per new connection,
    and [connection.connected] then reads [true] (spec, section 6). The
    emitter is taken to be Node's: it calls the listeners in the order of
    registration, and an exception that a listener throws leaves the emit,
    so that the listeners after it are not called.

    The first listener is that of lines 62-64, which [setup] registered: it
    calls the [afterConnect] hooks, does not await them, and throws when
    one of them does. The listeners of lines 66-117 are async functions,
    which do not throw; they do not touch the state of the build callbacks.
    Then come the listeners that [onEnd] registered (line 156), in the
    order of registration. *)
Definition client_connected (cfg : Config) (s : State) : State :=
  let '(effs, arr) := dispatch cfg afterConnect None in
  let s1 :=
    mkState (queued s) true (dir s) (removing s) (listeners s) (tasks s)
      (trace s ++ effs) in
  match arr with
  | None => s1
  | Some _ => foldl (fun st tid => on_task tid (resume tid) st) s1 (listeners s)
  end.

Definition step (cfg : Config) (e : Event) (s : State) : State :=
  match e with
  | OnStart => onStart cfg s
  | RmDone ok => rm_done cfg ok s
  | Written d =>
      mkState (queued s) (connected s) (Some d) (removing s) (listeners s)
        (tasks s) (trace s)
  | OnEnd r => onEnd r s
  | ClientConnected => client_connected cfg s
  | Disconnected =>
      mkState (queued s) false (dir s) (removing s) (listeners s) (tasks s)
        (trace s)
  | ReaddirDone tid =>
      on_task tid
        (readdir_done cfg tid (Resolver.readdir (join cfg) (outdir cfg) (dir s))) s
  | ReadFileDone tid i content => on_task tid (readFile_done tid i content) s
  | PushFileDone tid i ok => on_task tid (pushFile_done tid i ok) s
  | CalculateRAMDone tid i ok => on_task tid (calculateRAM_done cfg tid i ok) s
  | HookDone tid i ok => on_task tid (hook_done i ok) s
  end.

Definition run (cfg : Config) (evs : list Event) (s : State) : State :=
  foldl (fun st e => step cfg e st) s evs.

(** A task whose push sequence is under way: accepted, and not yet past
    line 194. *)
Definition holding (t : Task) : bool :=
  match at_ t with
  | AwaitClient | AwaitReaddir | AwaitPushes | AwaitCosts => true
  | _ => false
  end.

Definition in_flight (s : State) : nat :=
  length (List.filter holding (tasks s)).

End Deploy.

(* ===================================================================== *)
(** ** The mirror handler of ['client-connected'] (lines 84-117) *)
(* ===================================================================== *)

Module Mirror.

(** [opts.mirror], in the order in which [for ... in] visits its keys. *)
Definition Mapping : Type := list (string * list string).

(** A mirror is named by its position in [mirrors]. *)
Inductive Call : Type :=
| Mkdir (path : string)
| NewMirror (path : string) (servers : list string)
| OnClose (mirror : nat)
| InitFileCache (mirror : nat)
| SyncWithRemote (mirror : nat)
| Watch (mirror : nat).

Inductive Obs : Type :=
| Began (c : Call)
| Resolved (c : Call)
| Rejected (c : Call).

(** What becomes of an awaited promise. *)
Inductive outcome : Type := Resolves | Rejects | Never.

(** The collaborators, as one invocation of the handler meets them. For
    the calls that are not awaited, [true] is a normal return and [false]
    an exception. *)
Record Env : Type := {
  existsSync : string -> bool;
  mkdir : string -> outcome;
  mirror : string -> bool;
  initFileCache : nat -> outcome;
  syncWithRemote : nat -> outcome;
  watch : nat -> bool }.

(** How far the handler gets: to its end, to an exception, or to an
    [await] that never settles. *)
Inductive result (A : Type) : Type :=
| Value (a : A)
| Exception
| Suspended.
Arguments Value {A} a.
Arguments Exception {A}.
Arguments Suspended {A}.

(** The handler's monad: the trace so far goes in, the longer trace and
    the result come out. *)
Definition M (A : Type) : Type := list Obs -> list Obs * result A.

Definition ret {A : Type} (a : A) : M A := fun tr => (tr, Value a).

Definition bind {A B : Type} (m : M A) (k : A -> M B) : M B :=
  fun tr =>
    match m tr with
    | (tr', Value a) => k a tr'
    | (tr', Exception) => (tr', Exception)
    | (tr', Suspended) => (tr', Suspended)
    end.

Notation "x <- m ;; k" := (bind m (fun x => k))
  (at level 100, m at next level, right associativity).
Notation "m ;; k" := (bind m (fun _ => k))
  (at level 100, right associativity).

(** [await c(...)] *)
Definition await (c : Call) (o : outcome) : M unit :=
  fun tr =>
    match o with
    | Resolves => (tr ++ [Began c; Resolved c], Value tt)
    | Rejects => (tr ++ [Began c; Rejected c], Exception)
    | Never => (tr ++ [Began c], Suspended)
    end.

(** [c(...)], not awaited. *)
Definition invoke (c : Call) (returns : bool) : M unit :=
  fun tr => (tr ++ [Began c], if returns then Value tt else Exception).

(** [for (const x of l) body(x)] *)
Fixpoint for_of {A : Type} (l : list A) (body : A -> M unit) : M unit :=
  match l with
  | [] => ret tt
  | x :: rest => body x ;; for_of rest body
  end.

(** Lines 91-100; [mirrors] is the array built so far. *)
Fixpoint create (env : Env) (m : Mapping) (mirrors : list nat) : M (list nat) :=
  match m with
  | [] => ret mirrors
  | (path, servers) :: rest =>
      (if negb (existsSync env path)
       then await (Mkdir path) (mkdir env path)
       else ret tt) ;;
      invoke (NewMirror path servers) (mirror env path) ;;
      invoke (OnClose (length mirrors)) true ;;
      create env rest (mirrors ++ [length mirrors])
  end.

(** Lines 84-117. *)
Definition handler (env : Env) (opts_mirror : option Mapping) : M unit :=
  match opts_mirror with
  | None => ret tt
  | Some m =>
      mirrors <- create env m [] ;;
      for_of mirrors (fun mirror =>
        await (InitFileCache mirror) (initFileCache env mirror)) ;;
      for_of mirrors (fun mirror =>
        await (SyncWithRemote mirror) (syncWithRemote env mirror)) ;;
      for_of mirrors (fun mirror =>
        invoke (Watch mirror) (watch env mirror))
  end.

End Mirror.

(* ===================================================================== *)
(** ** Vocabulary of the statements *)
(* ===================================================================== *)

Module Layout.

Import Resolver.

(** A code unit that neither separates path segments nor ends a line. *)
Definition plain (c : ascii) : bool :=
  negb (Ascii.eqb c "/") && negb (Ascii.eqb c "\")
  && negb (Regex.line_terminator c).

(** A directory name of one segment, such as [dist]. *)
Fixpoint single_segment (s : string) : bool :=
  match s with
  | EmptyString => true
  | String c s' => plain c && single_segment s'
  end.

(** The directory holding exactly [serverA/x.js] and [serverB/sub/y.js]. *)
Definition two_servers : list node :=
  [Dir "serverA" [File "x.js"]; Dir "serverB" [Dir "sub" [File "y.js"]]].

End Layout.

Module Order.

Import Deploy.

(** Every occurrence of [b] in [tr] has an occurrence of [a] before it. *)
Definition before (tr : list Effect) (a b : Effect) : Prop :=
  forall pre post, tr = pre ++ b :: post -> a ∈ pre.

(** The states the plug-in can be in: it starts with the flag down and
    nothing under way, whatever the connection and the disk. *)
Definition reachable (cfg : Config) (s : State) : Prop :=
  exists connected dir evs, s = run cfg evs (init connected dir).

(** The task an effect belongs to. *)
Definition owner (e : Effect) : option nat :=
  match e with
  | Rm => None
  | Readdir t | ReadFile t _ _ | PushFile t _ _ _ _ | PushFileSettled t _ _
  | CalculateRAM t _ _ _ | CalculateRAMSettled t _ _ => Some t
  | Dispatch _ c | Hook _ c _ => c
  end.

(** An event that leaves the output directory as it is. *)
Definition keeps_dir (e : Event) : bool :=
  match e with
  | RmDone true | Written _ => false
  | _ => true
  end.

(** The single-flight invariant while task [tid] holds the gate: the
    flag is up and no other task is under way. *)
Definition gate_held (tid : nat) (q : bool) (ts : list Task) : Prop :=
  tid < length ts
  /\ ((exists t, ts !! tid = Some t /\ holding t = true) ->
      q = true
      /\ forall j t', ts !! j = Some t' -> holding t' = true -> j = tid).

Definition is_readdir (tid : nat) (e : Effect) : bool :=
  match e with Readdir t => Nat.eqb t tid | _ => false end.

Definition is_ram_call (tid : nat) (e : Effect) : bool :=
  match e with CalculateRAM t _ _ _ => Nat.eqb t tid | _ => false end.

(** The effects of the [afterBuild] dispatch of cycle [tid]. *)
Definition is_afterBuild (tid : nat) (e : Effect) : bool :=
  match e with
  | Dispatch Hooks.afterBuild (Some t) | Hook Hooks.afterBuild (Some t) _ =>
      Nat.eqb t tid
  | _ => false
  end.

(** How the record of a task and the effects traced for it hang together. *)
Record task_inv (tid : nat) (t : Task) (tr : list Effect) : Prop := {
  inv_early :
    at_ t = AwaitClient \/ at_ t = AwaitReaddir ->
    pushes t = [] /\ costs t = [];
  inv_pushing : at_ t = AwaitPushes -> costs t = [];
  inv_readdir :
    length (List.filter (is_readdir tid) tr)
    = match at_ t with AwaitClient => 0 | _ => 1 end;
  inv_push_file :
    forall i fn sv c, PushFile tid i fn sv c ∈ tr ->
      i < length (pushes t)
      /\ exists f, files t !! i = Some f
                  /\ fn = Resolver.filename f /\ sv = Resolver.server f;
  inv_pushed :
    forall i, pushes t !! i = Some Pushed -> PushFileSettled tid i true ∈ tr;
  inv_ram_idx :
    forall j fn sv, CalculateRAM tid j fn sv ∈ tr -> j < length (costs t);
  inv_push_before :
    forall i b, i < length (pushes t) -> is_ram_call tid b = true ->
      before tr (PushFileSettled tid i true) b;
  inv_fulfilled :
    forall i, costs t !! i = Some Hooks.Fulfilled ->
      CalculateRAMSettled tid i true ∈ tr;
  inv_no_hooks :
    holding t = true -> forall b, b ∈ tr -> is_afterBuild tid b = false;
  inv_ram_before :
    forall i b, i < length (costs t) -> is_afterBuild tid b = true ->
      before tr (CalculateRAMSettled tid i true) b }.

(** Every effect traced for a task is traced for a task that exists, and
    every task agrees with the trace. *)
Definition trace_inv (s : State) : Prop :=
  (forall e j, e ∈ trace s -> owner e = Some j -> j < length (tasks s))
  /\ (forall j t, tasks s !! j = Some t -> task_inv j t (trace s)).

(** A step of task [tid] keeps its invariant and traces effects of its own
    only. *)
Definition local_ok (tid : nat) (f : Task -> Task * list Effect * bool) : Prop :=
  forall t tr,
    task_inv tid t tr ->
    task_inv tid (f t).1.1 (tr ++ (f t).1.2)
    /\ forall e, e ∈ (f t).1.2 -> owner e = Some tid.


(** A step of a task never takes it back under the gate, and lowers the
    flag only when it leaves the cost stage. *)
Definition gate_safe (f : Task -> Task * list Effect * bool) : Prop :=
  forall t,
    (holding t = false -> holding (f t).1.1 = false /\ (f t).2 = false)
    /\ ((f t).2 = true -> holding (f t).1.1 = false).

End Order.

Module Phase.

Import Mirror.

(** The part of the handler a call belongs to: the loop that creates the
    mirrors, then the three loops over them. *)
Definition of_call (c : Call) : nat :=
  match c with
  | Mkdir _ | NewMirror _ _ | OnClose _ => 0
  | InitFileCache _ => 1
  | SyncWithRemote _ => 2
  | Watch _ => 3
  end.

Definition of_obs (o : Obs) : nat :=
  match o with Began c | Resolved c | Rejected c => of_call c end.

(** An environment in which a directory is missing and every call goes
    well. *)
Definition kind_env : Env :=
  {| existsSync := fun p => negb (String.eqb p "scripts");
     mkdir := fun _ => Resolves;
     mirror := fun _ => true;
     initFileCache := fun _ => Resolves;
     syncWithRemote := fun _ => Resolves;
     watch := fun _ => true |}.

Definition two_dirs : Mapping :=
  [("scripts", ["home"]); ("lib", ["home"; "n00dles"])].

End Phase.

Module Sample.

Import Hooks Deploy.

(** An extension whose [afterBuild] is a plain function that throws. *)
Definition throwing : Extension :=
  fun h => match h with afterBuild => Some Throws | _ => None end.

(** An extension whose [afterBuild] is an async function. *)
Definition async : Extension :=
  fun h => match h with afterBuild => Some ReturnsPromise | _ => None end.

Definition cfg (exts : list Extension) : Config :=
  {| outdir := "dist"; join := Resolver.joined "/"; extensions := exts |}.

(** A build without compile errors, and one with an error. *)
Definition clean : BuildResult := {| errors := [] |}.
Definition broken : BuildResult := {| errors := ["Unexpected token"] |}.

(** Two outputs of one file each. *)
Definition out_a : list Resolver.node := [Resolver.Dir "home" [Resolver.File "a.js"]].

End Sample.

Module Tree.

Import Resolver.

(** Path segments joined by [/]. *)
Fixpoint join (segs : list string) : string :=
  match segs with
  | [] => ""
  | s :: rest =>
      match rest with
      | [] => s
      | _ :: _ => s +:+ "/" +:+ join rest
      end
  end.

(** [/a/b/c] for the segments [a], [b], [c]. *)
Fixpoint slashed (segs : list string) : string :=
  match segs with
  | [] => ""
  | s :: rest => "/" +:+ s +:+ slashed rest
  end.

(** The directory [dirs] below [outdir], as [fs.readdir] names it on a
    host with separator [sep]. *)
Definition parent (sep outdir : string) (dirs : list string) : string :=
  fold_left (fun p d => p +:+ sep +:+ d) dirs outdir.

(** The descriptor a file [nm] in the directories [dirs] below [outdir]
    stands for: the first directory is the server. A file that lies in
    [outdir] itself has no such directory. *)
Definition located (outdir : string) (dirs : list string) (nm : string)
  : OutputFile :=
  match dirs with
  | [] =>
      {| server := outdir; filename := nm;
         path := outdir +:+ "/" +:+ outdir +:+ "/" +:+ nm |}
  | d :: rest =>
      {| server := d; filename := join (rest ++ [nm]);
         path := outdir +:+ "/" +:+ join (dirs ++ [nm]) |}
  end.


(** The descriptors of the files that lie in the directory [dirs] below
    [outdir] itself. *)
Definition here (outdir : string) (dirs : list string) (children : list node)
  : list OutputFile :=
  flat_map (fun c => match c with
                     | File nm => [located outdir dirs nm]
                     | Dir _ _ => []
                     end) children.





End Tree.

Module Dispatching.

Import Hooks.

(** The extensions that implement [h], numbered from [i]. *)
Definition implementers (h : hook_name) (i : nat) (exts : list Extension)
  : list nat :=
  concat (imap (fun k e => if implements h e then [i + k] else []) exts).

End Dispatching.

Module Cycle.

Import Deploy Order.

Definition is_push (tid i : nat) (e : Effect) : bool :=
  match e with
  | PushFile t j _ _ _ => Nat.eqb t tid && Nat.eqb j i
  | _ => false
  end.

(** How failures and the record of a task hang together. *)
Record task_inv2 (tid : nat) (t : Task) (tr : list Effect) : Prop := {
  i2_push_once :
    forall i,
      length (List.filter (is_push tid i) tr) <= 1
      /\ (pushes t !! i = Some Reading \/ pushes t !! i = None ->
          List.filter (is_push tid i) tr = []);
  i2_all_pushed :
    at_ t <> AwaitPushes -> at_ t <> Threw ->
    forallb is_pushed (pushes t) = true;
  i2_costs_pushed : costs t <> [] -> forallb is_pushed (pushes t) = true;
  i2_push_failed :
    forall i, PushFileSettled tid i false ∈ tr -> pushes t !! i = Some Failed;
  i2_failed_threw : forall i, pushes t !! i = Some Failed -> at_ t = Threw;
  i2_all_fulfilled :
    at_ t <> AwaitCosts -> at_ t <> Threw -> Hooks.all (costs t) = true;
  i2_cost_failed :
    forall i, CalculateRAMSettled tid i false ∈ tr ->
      costs t !! i = Some Hooks.Rejected;
  i2_rejected_threw :
    forall i, costs t !! i = Some Hooks.Rejected -> at_ t = Threw;
  i2_hooks_costs :
    forall b, b ∈ tr -> is_afterBuild tid b = true ->
      Hooks.all (costs t) = true /\ forallb is_pushed (pushes t) = true }.

(** A step of task [tid] keeps both invariants. *)
Definition local_ok2 (tid : nat) (f : Task -> Task * list Effect * bool) : Prop :=
  forall t tr,
    task_inv tid t tr -> task_inv2 tid t tr ->
    task_inv2 tid (f t).1.1 (tr ++ (f t).1.2).

Definition trace_inv2 (s : State) : Prop :=
  forall j t, tasks s !! j = Some t -> task_inv2 j t (trace s).

(** Nothing is under way. *)
Definition all_done (ts : list Task) : Prop :=
  Forall (fun t => holding t = false) ts.

(** The dispatch of [beforeBuild] (line 126). *)
Definition is_start_dispatch (e : Effect) : bool :=
  match e with
  | Dispatch Hooks.beforeBuild None => true
  | _ => false
  end.

Definition is_start (e : Event) : bool :=
  match e with OnStart => true | _ => false end.

(** The builds that were started. *)
Definition starts (evs : list Event) : nat :=
  length (List.filter is_start evs).

(** The [beforeBuild] dispatches so far, and the [onStart] invocations
    still waiting for [fs.rm]. *)
Definition started (s : State) : nat :=
  length (List.filter is_start_dispatch (trace s)) + removing s.

(** A rejection of [fs.rm] that reaches an [onStart] invocation waiting
    for it. *)
Definition failed (e : Event) (s : State) : nat :=
  match e with
  | RmDone false => if Nat.eqb (removing s) 0 then 0 else 1
  | _ => 0
  end.

(** The [onStart] invocations of a run that threw at line 125. *)
Fixpoint lost (cfg : Config) (evs : list Event) (s : State) : nat :=
  match evs with
  | [] => 0
  | e :: rest => failed e s + lost cfg rest (step cfg e s)
  end.


End Cycle.

Module Startup.

Import Mirror.

(** What a loop of awaited calls traces for the mirrors it gets through. *)
Definition awaited (c : nat -> Call) (l : list nat) : list Obs :=
  flat_map (fun x => [Began (c x); Resolved (c x)]) l.

(** What a loop of calls that are not awaited traces for them. *)
Definition invoked (c : nat -> Call) (l : list nat) : list Obs :=
  map (fun x => Began (c x)) l.

(** Where a loop of awaited calls stops: at its end, or at the first call
    that does not resolve. *)
Definition await_halt (c : nat -> Call) (o : nat -> outcome) (rest : list nat)
  : list Obs * result unit :=
  match rest with
  | [] => ([], Value tt)
  | x :: _ =>
      match o x with
      | Resolves => ([], Value tt)
      | Rejects => ([Began (c x); Rejected (c x)], Exception)
      | Never => ([Began (c x)], Suspended)
      end
  end.

Definition invoke_halt (c : nat -> Call) (rest : list nat)
  : list Obs * result unit :=
  match rest with
  | [] => ([], Value tt)
  | x :: _ => ([Began (c x)], Exception)
  end.

Definition is_new_mirror (o : Obs) : bool :=
  match o with Began (NewMirror _ _) => true | _ => false end.

(** The first loop got through [m], its first session being number [i]:
    the sessions are all there, in order, each with its close listener. *)
Definition created (env : Env) (m : Mapping) (i : nat) (X0 : list Obs) : Prop :=
  List.filter is_new_mirror X0 = map (fun ps => Began (NewMirror ps.1 ps.2)) m
  /\ (forall k, i <= k < i + length m -> Began (OnClose k) ∈ X0)
  /\ Forall (fun ps => (existsSync env ps.1 = false -> mkdir env ps.1 = Resolves)
                       /\ mirror env ps.1 = true) m.

(** Every call of the handler over [m] goes well. *)
Definition all_well (env : Env) (m : Mapping) : Prop :=
  Forall (fun ps => (existsSync env ps.1 = false -> mkdir env ps.1 = Resolves)
                    /\ mirror env ps.1 = true) m
  /\ forall k, k < length m ->
       initFileCache env k = Resolves /\ syncWithRemote env k = Resolves
       /\ watch env k = true.

(** An environment in which the second session fails to synchronise. *)
Definition sync_fails : Env :=
  {| existsSync := fun _ => true;
     mkdir := fun _ => Resolves;
     mirror := fun _ => true;
     initFileCache := fun _ => Resolves;
     syncWithRemote := fun k => if Nat.eqb k 1 then Rejects else Resolves;
     watch := fun _ => true |}.

End Startup.

(* ===================================================================== *)
(** ** The plugin's [setup] (34-127) and its distribution handler (72-82) *)
(* ===================================================================== *)

Module Plugin.

Import Hooks.

(** [BitburnerPluginOptions]; every field is optional. [usePolling] is not
    read by this file. The port is taken to be an integer. *)
Record Options : Type := {
  port : option Z;
  types : option string;
  mirror : option Mirror.Mapping;
  distribute : option Mirror.Mapping;
  extensions : option (list Extension) }.

(** [{}] *)
Definition no_options : Options :=
  {| port := None; types := None; mirror := None; distribute := None;
     extensions := None |}.

(** What [setup] reads of [pluginBuild.initialOptions]. *)
Record InitialOptions : Type := {
  outdir : option string;
  write : option bool }.

(** Truthiness of an optional number, string and boolean. *)
Definition truthy_number (n : option Z) : bool :=
  match n with Some z => negb (Z.eqb z 0) | None => false end.

Definition truthy_string (s : option string) : bool :=
  match s with Some (String _ _) => true | _ => false end.

Definition truthy_boolean (b : option bool) : bool :=
  match b with Some true => true | _ => false end.

(** The four listeners that [setup] puts on [client-connected]. *)
Inductive Listener : Type := AfterConnect | Types | Distribute | Mirroring.

(** What [setup] and the distribution handler do to their collaborators. *)
Inductive Obs : Type :=
| NewServer                                   (* line 39 *)
| OnDispose                                   (* line 41 *)
| Called (h : hook_name) (extension : nat)
| Listen (p : option Z)                       (* line 56 *)
| OnClientConnected (l : Listener)            (* lines 62, 66, 72, 84 *)
| OnStart | OnResolve | OnLoad | OnEnd        (* lines 122, 129, 136, 147 *)
| DistributeCall (path : string) (servers : list string).   (* line 78 *)

Inductive error : Type :=
| Error (message : string)       (* [throw new Error(message)] *)
| Foreign.                       (* thrown by a hook or a collaborator *)

(** How far an async function gets: to its end, to an exception, or to
    an [await] that never settles. *)
Inductive result (A : Type) : Type :=
| Value (a : A)
| Thrown (e : error)
| Suspended.
Arguments Value {A} a.
Arguments Thrown {A} e.
Arguments Suspended {A}.

Definition M (A : Type) : Type := list Obs -> list Obs * result A.

Definition ret {A : Type} (a : A) : M A := fun tr => (tr, Value a).

Definition bind {A B : Type} (m : M A) (k : A -> M B) : M B :=
  fun tr =>
    match m tr with
    | (tr', Value a) => k a tr'
    | (tr', Thrown e) => (tr', Thrown e)
    | (tr', Suspended) => (tr', Suspended)
    end.

Notation "x <- m ;; k" := (bind m (fun x => k))
  (at level 100, m at next level, right associativity).
Notation "m ;; k" := (bind m (fun _ => k))
  (at level 100, right associativity).

Definition throw {A : Type} (e : error) : M A := fun tr => (tr, Thrown e).

(** A call that returns. *)
Definition emit (o : Obs) : M unit := fun tr => (tr ++ [o], Value tt).

(** A call that may throw. *)
Definition invoke (o : Obs) (returns : bool) : M unit :=
  fun tr => (tr ++ [o], if returns then Value tt else Thrown Foreign).

(** The collaborators: what becomes of the promise that the [h] hook of
    extension [k] returned ([Pending]: it never settles), and whether
    [remoteAPI.distribute] returns for a path. *)
Record Env : Type := {
  fate : hook_name -> nat -> promise;
  distribute_returns : string -> bool }.

(** The array of a dispatch, once every promise in it that settles has
    settled. *)
Definition eventually (env : Env) (h : hook_name) (arr : list promise)
  : list promise :=
  imap (fun k p => match p with Pending => fate env h k | _ => p end) arr.

(** [await Promise.allSettled(extensions.map(e => (e.h ?? (() => { }))(...)))] *)
Definition dispatch (env : Env) (h : hook_name) (exts : list Extension)
  : M unit :=
  fun tr =>
    let '(called, arr) := map_hooks h 0 exts in
    (tr ++ map (Called h) called,
     match arr with
     | None => Thrown Foreign
     | Some arr =>
         if allSettled (eventually env h arr) then Value tt else Suspended
     end).

(** Lines 34-147, as far as the collaborators see them. *)
Definition setup (env : Env) (opts : option Options)
    (initialOptions : InitialOptions) : M unit :=
  let opts := default no_options opts in
  let outdir := outdir initialOptions in
  let extensions := default [] (extensions opts) in
  emit NewServer ;;
  emit OnDispose ;;
  dispatch env Hooks.setup extensions ;;
  if negb (truthy_number (port opts))
  then throw (Error "No port provided")
  else if truthy_boolean (write initialOptions)
  then throw (Error "BitburnerPlugin doesn't support 'write' mode")
  else if negb (truthy_string outdir)
  then throw (Error "BitburnerPlugin requires the outdir option to be set")
  else
    emit (Listen (port opts)) ;;
    dispatch env beforeConnect extensions ;;
    emit (OnClientConnected AfterConnect) ;;
    emit (OnClientConnected Types) ;;
    emit (OnClientConnected Distribute) ;;
    emit (OnClientConnected Mirroring) ;;
    emit OnStart ;;
    emit OnResolve ;;
    emit OnLoad ;;
    emit OnEnd.

(** [for (const path in obj) body(path, obj[path])] *)
Fixpoint for_in (m : Mirror.Mapping) (body : string -> list string -> M unit)
  : M unit :=
  match m with
  | [] => ret tt
  | (path, servers) :: rest => body path servers ;; for_in rest body
  end.

(** Lines 72-82. *)
Definition on_connected_distribute (env : Env) (opts : option Options)
  : M unit :=
  let opts := default no_options opts in
  let extensions := default [] (extensions opts) in
  match distribute opts with
  | None => ret tt
  | Some m =>
      dispatch env beforeDistribute extensions ;;
      for_in m (fun path servers =>
        invoke (DistributeCall path servers) (distribute_returns env path)) ;;
      dispatch env afterDistribute extensions
  end.

End Plugin.

Module Start.

Import Hooks Plugin.

(** The hooks of a dispatch all return, and their promises all settle. *)
Definition passes (env : Env) (h : hook_name) (exts : list Extension) : bool :=
  match (map_hooks h 0 exts).2 with
  | Some arr => allSettled (eventually env h arr)
  | None => false
  end.

(** The hooks that a dispatch calls. *)
Definition calls (h : hook_name) (exts : list Extension) : list Obs :=
  map (Called h) (map_hooks h 0 exts).1.

(** The configuration gets through the three checks. *)
Definition valid (opts : option Options) (io : InitialOptions) : bool :=
  truthy_number (port (default no_options opts))
  && negb (truthy_boolean (write io))
  && truthy_string (outdir io).

Definition exts_of (opts : option Options) : list Extension :=
  default [] (extensions (default no_options opts)).

(** The callbacks that [setup] registers, in its order. *)
Definition registrations : list Obs :=
  [OnClientConnected AfterConnect; OnClientConnected Types;
   OnClientConnected Distribute; OnClientConnected Mirroring;
   OnStart; OnResolve; OnLoad; OnEnd].

Definition is_registration (o : Obs) : bool :=
  match o with
  | OnClientConnected _ | OnStart | OnResolve | OnLoad | OnEnd => true
  | _ => false
  end.

Definition is_listen (o : Obs) : bool :=
  match o with Listen _ => true | _ => false end.

Definition distributions (m : Mirror.Mapping) : list Obs :=
  map (fun ps => DistributeCall ps.1 ps.2) m.

(** Sample inputs. *)
Definition calm : Env :=
  {| fate := fun _ _ => Fulfilled; distribute_returns := fun _ => true |}.

(** An extension with an async [setup] hook and a plain [beforeConnect]. *)
Definition helper : Extension :=
  fun h => match h with
           | Hooks.setup => Some ReturnsPromise
           | beforeConnect => Some Returns
           | _ => None
           end.

(** An extension with async hooks around the distribution. *)
Definition announcer : Extension :=
  fun h => match h with
           | beforeDistribute | afterDistribute => Some ReturnsPromise
           | _ => None
           end.

Definition good_options : Options :=
  {| port := Some 12525%Z; types := None; mirror := None;
     distribute := Some [("build/home", ["home"]); ("build/lib", ["n00dles"])];
     extensions := Some [helper; announcer] |}.

(** An environment in which no hook promise ever settles, and one in which
    every hook promise rejects. *)
Definition stalled : Env :=
  {| fate := fun _ _ => Pending; distribute_returns := fun _ => true |}.

Definition rejecting : Env :=
  {| fate := fun _ _ => Rejected; distribute_returns := fun _ => true |}.

Definition no_port : Options :=
  {| port := None; types := None; mirror := None; distribute := None;
     extensions := Some [helper] |}.

Definition bundler : InitialOptions :=
  {| outdir := Some "dist"; write := Some false |}.

Definition writing_bundler : InitialOptions :=
  {| outdir := None; write := Some true |}.

(** An environment in which distributing the first directory throws. *)
Definition first_fails : Env :=
  {| fate := fun _ _ => Fulfilled;
     distribute_returns := fun p => negb (String.eqb p "build/home") |}.

End Start.


(* ===================================================================== *)
(** * Properties *)
(* ===================================================================== *)

(** ** Regular expressions and strings *)

Section RegexFacts.

Import Regex.

Lemma test_Void (s : string) : test Void s = false.
Proof. induction s as [|c s IH]; simpl; auto. Qed.

Lemma shortest_prefix_Void (s : string) : shortest_prefix Void s = None.
Proof. induction s as [|c s IH]; simpl; auto. Qed.

Local Arguments Ascii.eqb : simpl never.

Local Ltac chew :=
  cbn; rewrite ?test_Void;
  first
    [ discriminate
    | solve [auto]
    | match goal with
      | |- context [Ascii.eqb ?a ?c] =>
          destruct (Ascii.eqb_spec a c); [subst|]; chew
      | |- context [test _ ?p] => is_var p; destruct p; chew
      end ].

(** [/^react(-dom)?$/] accepts two strings and no other. *)
Lemma react_filter_spec (p : string) :
  test React.filter p = true <-> p = "react" \/ p = "react-dom".
Proof.
  split.
  - unfold React.filter. destruct p; chew.
  - intros [-> | ->]; reflexivity.
Qed.

(** One step of [/^.*?\//] over a unit that is neither [/] nor a line
    terminator leaves the pattern as it was. *)
Lemma deriv_first_segment_plain (c : ascii) :
  Layout.plain c = true ->
  deriv c Resolver.first_segment = Resolver.first_segment.
Proof.
  unfold Layout.plain, Resolver.first_segment, dot, chr. intros H.
  apply andb_prop in H as [H Hlt]. apply andb_prop in H as [Hs _].
  cbn. rewrite Hlt. cbn.
  rewrite Ascii.eqb_sym. destruct (Ascii.eqb c "/"); [discriminate|].
  reflexivity.
Qed.

Lemma shortest_prefix_first_segment (d rest : string) :
  Layout.single_segment d = true ->
  shortest_prefix Resolver.first_segment (d +:+ "/" +:+ rest) = Some rest.
Proof.
  induction d as [|c d IH]; intros H.
  - cbn. destruct rest; reflexivity.
  - cbn in H. apply andb_prop in H as [Hc Hd].
    change (String c d +:+ "/" +:+ rest) with (String c (d +:+ "/" +:+ rest)).
    change (shortest_prefix Resolver.first_segment (String c (d +:+ "/" +:+ rest)))
      with (shortest_prefix (deriv c Resolver.first_segment) (d +:+ "/" +:+ rest)).
    rewrite deriv_first_segment_plain by exact Hc. auto.
Qed.

Lemma replace_prefix_first_segment (d rest : string) :
  Layout.single_segment d = true ->
  Js.replace_prefix Resolver.first_segment (d +:+ "/" +:+ rest) = rest.
Proof.
  intros H. unfold Js.replace_prefix.
  now rewrite shortest_prefix_first_segment.
Qed.

Lemma append_assoc (a b c : string) : (a +:+ b) +:+ c = a +:+ b +:+ c.
Proof.
  induction a as [|x a IH]; [reflexivity|].
  change (String x ((a +:+ b) +:+ c) = String x (a +:+ b +:+ c)).
  now rewrite IH.
Qed.

Lemma replaceAll_app (a b : ascii) (s1 s2 : string) :
  Js.replaceAll a b (s1 +:+ s2) = Js.replaceAll a b s1 +:+ Js.replaceAll a b s2.
Proof. induction s1 as [|c s1 IH]; simpl; [reflexivity | rewrite IH; reflexivity]. Qed.

Lemma replaceAll_single_segment (d : string) :
  Layout.single_segment d = true -> Js.replaceAll "\" "/" d = d.
Proof.
  induction d as [|c d IH]; simpl; intros H; [reflexivity|].
  apply andb_prop in H as [Hc Hd]. rewrite IH by exact Hd.
  unfold Layout.plain in Hc.
  apply andb_prop in Hc as [Hc _]. apply andb_prop in Hc as [_ Hc].
  destruct (Ascii.eqb c "\"); [discriminate | reflexivity].
Qed.

End RegexFacts.

(** ** The React packages *)

Section ReactFacts.

Import React.

(** C10: an import of exactly [react] or [react-dom] is taken by the
    plug-in's [onResolve] into the namespace [react], and its [onLoad]
    supplies [module.exports = window.React], respectively
    [module.exports = window.ReactDOM], as the module's source; the
    import is not left to the bundler's own resolution. *)
Theorem C10_react_packages_from_window (opts : Args) :
  (path opts = "react" ->
     onResolve opts = Some {| r_namespace := "react"; r_path := "react" |}
     /\ module_source opts = Some "module.exports = window.React")
  /\ (path opts = "react-dom" ->
     onResolve opts = Some {| r_namespace := "react"; r_path := "react-dom" |}
     /\ module_source opts = Some "module.exports = window.ReactDOM").
Proof.
  unfold module_source, onResolve, onResolve_callback.
  split; intros ->; split; reflexivity.
Qed.

Lemma C10_react_packages_witness :
  module_source
    {| path := "react-dom"; importer := "servers/home/ui.tsx";
       a_namespace := "file"; resolveDir := "servers/home" |}
  = Some "module.exports = window.ReactDOM".
Proof.
  exact (proj2 (proj2 (C10_react_packages_from_window
    {| path := "react-dom"; importer := "servers/home/ui.tsx";
       a_namespace := "file"; resolveDir := "servers/home" |}) eq_refl)).
Defined.

(** Nothing else is intercepted: a path the filter rejects stays with the
    bundler. *)
Lemma other_imports_untouched (opts : Args) :
  path opts <> "react" -> path opts <> "react-dom" ->
  onResolve opts = None.
Proof.
  intros H1 H2. unfold onResolve.
  destruct (Regex.test filter (path opts)) eqn:E; [|reflexivity].
  apply react_filter_spec in E as [E | E]; contradiction.
Qed.

End ReactFacts.

(** ** The resolution of output files *)

Section ResolverFacts.

Import Resolver Layout.

Lemma filter_Permutation {A : Type} (p : A -> bool) (l l' : list A) :
  l ≡ₚ l' -> List.filter p l ≡ₚ List.filter p l'.
Proof.
  induction 1 as [|x l l' _ IH|x y l|l l' l'' _ IH1 _ IH2]; simpl.
  - constructor.
  - destruct (p x); [constructor|]; exact IH.
  - destruct (p x), (p y); try reflexivity. apply perm_swap.
  - etransitivity; eassumption.
Qed.

Lemma output_files_Permutation (outdir : string) (l l' : list Dirent.t) :
  l ≡ₚ l' -> output_files outdir l ≡ₚ output_files outdir l'.
Proof.
  intros H. unfold output_files.
  do 2 apply Permutation_map. now apply filter_Permutation.
Qed.

(** Under a one-segment output directory the two files of [two_servers]
    resolve as the layout says, with either separator and in whatever order
    the directory is listed. *)
Lemma output_files_two_servers (sep outdir : string) (l l' : list Dirent.t) :
  sep = "/" \/ sep = "\" ->
  single_segment outdir = true ->
  readdir (joined sep) outdir (Some two_servers) = Some l' ->
  l ≡ₚ l' ->
  output_files outdir l ≡ₚ
    [ {| server := "serverA"; filename := "x.js";
         path := outdir +:+ "/serverA/x.js" |};
      {| server := "serverB"; filename := "sub/y.js";
         path := outdir +:+ "/serverB/sub/y.js" |} ].
Proof.
  intros Hsep Hout Hl' Hl.
  rewrite (output_files_Permutation outdir _ _ Hl).
  injection Hl' as <-.
  assert (E : forall rest, Js.replace_prefix first_segment
              (Js.replaceAll "\" "/" (outdir +:+ sep +:+ rest))
              = Js.replaceAll "\" "/" rest).
  { intros rest. rewrite !replaceAll_app.
    rewrite replaceAll_single_segment by exact Hout.
    replace (Js.replaceAll "\" "/" sep) with "/"
      by (destruct Hsep as [-> | ->]; reflexivity).
    now apply replace_prefix_first_segment. }
  etransitivity; [|apply perm_swap].
  unfold output_files, two_servers, rebase, describe, joined. simpl.
  rewrite !append_assoc.
  rewrite (E "serverA"), (E ("serverB" +:+ sep +:+ "sub")).
  destruct Hsep as [-> | ->]; reflexivity.
Qed.

Example output_files_two_servers_dist :
  option_map (output_files "dist")
    (readdir (joined "\") "dist" (Some two_servers))
  = Some [ {| server := "serverB"; filename := "sub/y.js";
              path := "dist/serverB/sub/y.js" |};
           {| server := "serverA"; filename := "x.js";
              path := "dist/serverA/x.js" |} ].
Proof. reflexivity. Qed.

(** C3, at an output directory of two segments: the rebasing of line 165
    removes the first segment only, so the second segment of the directory
    is taken for the server and the server for part of the file name. *)
Theorem C3_two_segment_outdir_misresolved :
  option_map (output_files "build/out")
    (readdir (joined "/") "build/out" (Some two_servers))
  = Some [ {| server := "out"; filename := "serverB/sub/y.js";
              path := "build/out/out/serverB/sub/y.js" |};
           {| server := "out"; filename := "serverA/x.js";
              path := "build/out/out/serverA/x.js" |} ].
Proof. reflexivity. Qed.

End ResolverFacts.

(** ** The dispatch of extension hooks *)

Section HooksFacts.

Import Hooks.

(** The extensions from index [i] on that implement [h]. *)
Lemma map_hooks_without_throw (h : hook_name) (exts : list Extension) (i : nat) :
  Forall (fun e => e h <> Some Throws) exts ->
  exists arr,
    map_hooks h i exts
    = (concat (imap (fun k e => if implements h e then [i + k] else []) exts),
       Some arr)
    /\ length arr = length exts.
Proof.
  revert i. induction exts as [|e exts IH]; intros i H.
  - exists []. split; reflexivity.
  - inversion H as [|? ? He Hrest]; subst.
    destruct (IH (S i) Hrest) as (arr & E & Hlen).
    simpl. unfold call.
    assert (Himap :
      concat (imap (fun k e0 => if implements h e0 then [S i + k] else []) exts)
      = concat (imap ((fun k e0 => if implements h e0 then [i + k] else []) ∘ S) exts)).
    { f_equal. apply imap_ext. intros k x _. simpl.
      now replace (i + S k) with (S (i + k)) by lia. }
    rewrite E, Himap, Nat.add_0_r.
    destruct (e h) as [[| |]|] eqn:Eh; try contradiction;
      eexists; (split; [reflexivity | simpl; now rewrite Hlen]).
Qed.

(** A settled array stays settled whatever the individual outcomes. *)
Lemma allSettled_ignores_outcome (arr : list promise) :
  allSettled arr = true <-> Forall (fun p => p <> Pending) arr.
Proof.
  unfold allSettled. rewrite forallb_forall, Forall_forall.
  split; intros H p Hp.
  - apply list_elem_of_In in Hp. specialize (H p Hp). now destruct p.
  - apply list_elem_of_In in Hp. specialize (H p Hp). now destruct p.
Qed.

(** C6, at an extension whose [afterBuild] throws when called: the
    exception leaves [extensions.map] before [Promise.allSettled] is
    reached, so the next extension's hook is not called, and the [onEnd]
    callback that dispatched the hook throws. *)
Theorem C6_throwing_hook_ends_dispatch :
  map_hooks afterBuild 0 [Sample.throwing; Sample.async] = ([0], None)
  /\ (let s := Deploy.run (Sample.cfg [Sample.throwing; Sample.async])
                 [Deploy.OnEnd Sample.clean; Deploy.ReaddirDone 0;
                  Deploy.ReadFileDone 0 0 (Some "export {}");
                  Deploy.PushFileDone 0 0 true;
                  Deploy.CalculateRAMDone 0 0 true]
                 (Deploy.init true (Some Sample.out_a)) in
      Deploy.at_ <$> Deploy.tasks s !! 0 = Some Deploy.Threw
      /\ Deploy.trace s
         = [Deploy.Readdir 0; Deploy.ReadFile 0 0 "dist/home/a.js";
            Deploy.PushFile 0 0 "a.js" "home" "export {}";
            Deploy.PushFileSettled 0 0 true;
            Deploy.CalculateRAM 0 0 "a.js" "home";
            Deploy.CalculateRAMSettled 0 0 true;
            Deploy.Dispatch afterBuild (Some 0);
            Deploy.Hook afterBuild (Some 0) 0]).
Proof. split; [reflexivity | split; reflexivity]. Qed.

(** With the two extensions in the other order, and the rejection of an
    async hook instead of a throw, the dispatch goes through. *)
Example rejecting_hook_is_isolated :
  let s := Deploy.run (Sample.cfg [Sample.async; Sample.async])
             [Deploy.OnEnd Sample.clean; Deploy.ReaddirDone 0;
              Deploy.ReadFileDone 0 0 (Some "export {}");
              Deploy.PushFileDone 0 0 true;
              Deploy.CalculateRAMDone 0 0 true;
              Deploy.HookDone 0 0 false; Deploy.HookDone 0 1 true]
             (Deploy.init true (Some Sample.out_a)) in
  Deploy.at_ <$> Deploy.tasks s !! 0 = Some Deploy.Returned
  /\ Deploy.Hook afterBuild (Some 0) 1 ∈ Deploy.trace s.
Proof. split; [reflexivity | cbv; repeat constructor]. Qed.

End HooksFacts.

(** ** Lists *)

Section ListFacts.

Context {A : Type}.

Lemma split_after (X Y pre post : list A) (b : A) :
  X ++ Y = pre ++ b :: post -> b ∉ X ->
  exists pre', pre = X ++ pre' /\ Y = pre' ++ b :: post.
Proof.
  revert pre. induction X as [|x X IH]; intros pre E Hb.
  - exists pre. auto.
  - destruct pre as [|p pre]; simpl in E; injection E as -> E.
    + exfalso. apply Hb. left.
    + destruct (IH pre E) as (pre' & -> & HY).
      { intros H. apply Hb. now right. }
      exists pre'. auto.
Qed.

Lemma split_before (X Y pre post : list A) (b : A) :
  X ++ Y = pre ++ b :: post -> b ∉ Y ->
  exists post', X = pre ++ b :: post'.
Proof.
  revert X. induction pre as [|p pre IH]; intros X E Hb.
  - destruct X as [|x X]; simpl in E.
    + exfalso. apply Hb. rewrite E. left.
    + injection E as -> E. now exists X.
  - destruct X as [|x X]; simpl in E.
    + exfalso. apply Hb. rewrite E. right. apply elem_of_app. right. left.
    + injection E as -> E. destruct (IH X E Hb) as (post' & ->).
      now exists post'.
Qed.

Lemma elem_of_map {B : Type} (f : A -> B) (l : list A) (y : B) :
  y ∈ map f l <-> exists x, y = f x /\ x ∈ l.
Proof.
  rewrite list_elem_of_In, in_map_iff. split.
  - intros (x & <- & Hx). exists x. split; [reflexivity|]. now apply list_elem_of_In.
  - intros (x & -> & Hx). exists x. split; [reflexivity|]. now apply list_elem_of_In.
Qed.

Lemma lookup_map_const {B : Type} (b : B) (l : list A) (i : nat) (y : B) :
  map (fun _ => b) l !! i = Some y -> y = b.
Proof.
  revert i. induction l as [|x l IH]; intros [|i] H; simpl in H; try discriminate.
  - now injection H.
  - eauto.
Qed.

Lemma forallb_lookup (p : A -> bool) (l : list A) (i : nat) (x : A) :
  forallb p l = true -> l !! i = Some x -> p x = true.
Proof.
  intros H Hi. rewrite forallb_forall in H. apply H.
  apply list_elem_of_In, list_elem_of_lookup. eauto.
Qed.

End ListFacts.

(** ** The build-end callback: the gate *)

Section GateFacts.

Import Hooks Deploy Order.

Variable cfg : Config.

Local Ltac crush_gate :=
  intros t; unfold holding, throw_at, set_at, set_pushes, set_costs, set_hooks;
  repeat (simpl in *;
    match goal with
    | |- context [match ?x with _ => _ end] => destruct x eqn:?
    | |- context [if ?x then _ else _] => destruct x eqn:?
    | H : _ && _ = true |- _ => apply andb_prop in H as [? ?]
    | H : context [match ?x with _ => _ end] |- _ => destruct x eqn:?
    | H : context [if ?x then _ else _] |- _ => destruct x eqn:?
    | |- _ /\ _ => split
    | |- _ -> _ => intros ?
    end);
  simpl in *; try congruence; auto.

Lemma resume_gate_safe tid : gate_safe (resume tid).
Proof. unfold gate_safe, resume. crush_gate. Qed.

Lemma readdir_done_gate_safe tid r : gate_safe (readdir_done cfg tid r).
Proof. unfold gate_safe, readdir_done. crush_gate. Qed.

Lemma readFile_done_gate_safe tid i c : gate_safe (readFile_done tid i c).
Proof. unfold gate_safe, readFile_done. crush_gate. Qed.

Lemma pushFile_done_gate_safe tid i ok : gate_safe (pushFile_done tid i ok).
Proof. unfold gate_safe, pushFile_done. crush_gate. Qed.

Lemma calculateRAM_done_gate_safe tid i ok :
  gate_safe (calculateRAM_done cfg tid i ok).
Proof.
  unfold gate_safe, calculateRAM_done, dispatch.
  destruct (map_hooks afterBuild 0 (extensions cfg)) as [called arr].
  crush_gate.
Qed.

Lemma hook_done_gate_safe i ok : gate_safe (hook_done i ok).
Proof. unfold gate_safe, hook_done. crush_gate. Qed.

Lemma on_task_gate tid j f s :
  gate_safe f ->
  gate_held tid (queued s) (tasks s) ->
  gate_held tid (queued (on_task j f s)) (tasks (on_task j f s)).
Proof.
  intros Hf [Hlen Hinv]. unfold on_task.
  destruct (tasks s !! j) as [t|] eqn:Ej; [|split; assumption].
  destruct (Hf t) as [Hkeep Hrel].
  destruct (f t) as [[t' X] rel] eqn:Ef. simpl in *.
  pose proof (lookup_lt_Some _ _ _ Ej) as Hj.
  split; [now rewrite length_insert|].
  intros (t0 & Ht0 & Hh0).
  destruct (decide (j = tid)) as [->|Hne].
  - rewrite list_lookup_insert_eq in Ht0 by exact Hj.
    injection Ht0 as ->.
    assert (Hht : holding t = true).
    { destruct (holding t); [reflexivity|].
      destruct (Hkeep eq_refl) as [Hc _]. congruence. }
    destruct Hinv as [Hq Huniq]; [eauto|].
    split.
    + destruct rel; [|exact Hq]. specialize (Hrel eq_refl). congruence.
    + intros k tk Hk Hhk. destruct (decide (k = tid)) as [|Hk']; [assumption|].
      rewrite list_lookup_insert_ne in Hk by congruence. eauto.
  - rewrite list_lookup_insert_ne in Ht0 by exact Hne.
    destruct Hinv as [Hq Huniq]; [eauto|].
    assert (Hht : holding t = false).
    { destruct (holding t) eqn:E; [|reflexivity].
      exfalso. apply Hne. eauto. }
    destruct (Hkeep Hht) as [Hh' ->].
    split; [exact Hq|].
    intros k tk Hk Hhk. destruct (decide (k = j)) as [->|Hk'].
    + rewrite list_lookup_insert_eq in Hk by exact Hj.
      injection Hk as ->. congruence.
    + rewrite list_lookup_insert_ne in Hk by congruence. eauto.
Qed.

(** The emit reaches the listeners of [onEnd], all or none. *)
Lemma client_connected_foldl s :
  exists l,
    (l = [] \/ l = listeners s)
    /\ client_connected cfg s
       = foldl (fun st k => on_task k (resume k) st)
           (mkState (queued s) true (dir s) (removing s) (listeners s)
              (tasks s) (trace s ++ (dispatch cfg afterConnect None).1))
           l.
Proof.
  unfold client_connected.
  destruct (dispatch cfg afterConnect None) as [effs [arr|]]; simpl.
  - exists (listeners s). auto.
  - exists []. auto.
Qed.



(** A dispatch outside every cycle is an effect of no task. *)
Lemma dispatch_ownerless h e :
  e ∈ (dispatch cfg h None).1 -> owner e = None.
Proof.
  unfold dispatch.
  destruct (map_hooks h 0 (extensions cfg)) as [called arr]. simpl.
  intros H. apply elem_of_cons in H as [->|H]; [reflexivity|].
  apply list_elem_of_fmap in H as (k & -> & _). reflexivity.
Qed.

Lemma resume_all_gate tid l s :
  gate_held tid (queued s) (tasks s) ->
  let s' := foldl (fun st k => on_task k (resume k) st) s l in
  gate_held tid (queued s') (tasks s').
Proof.
  revert s. induction l as [|k l IH]; intros s H; simpl; [exact H|].
  apply IH. apply on_task_gate; [apply resume_gate_safe | exact H].
Qed.

Lemma step_gate tid e s :
  gate_held tid (queued s) (tasks s) ->
  gate_held tid (queued (step cfg e s)) (tasks (step cfg e s)).
Proof.
  intros H. destruct e; simpl; try exact H.
  - unfold onStart, emit. destruct (dir s); exact H.
  - unfold rm_done. destruct (removing s); [exact H|]. destruct ok; exact H.
  - unfold onEnd.
    destruct (negb (Nat.eqb (length (errors r)) 0)); [exact H|].
    destruct (queued s) eqn:Hq; [now rewrite Hq|].
    destruct H as [Hlen Hinv].
    assert (G : forall q, gate_held tid q
                  (tasks s ++ [mkTask (if negb (connected s) then AwaitClient
                                       else AwaitReaddir) [] [] [] []])).
    { intros q. split; [rewrite length_app; simpl; lia|].
      intros (t0 & Ht0 & Hh0).
      rewrite lookup_app_l in Ht0 by exact Hlen.
      destruct Hinv as [Hc _]; [eauto | discriminate]. }
    destruct (negb (connected s)); simpl; apply G.
  - destruct (client_connected_foldl s) as (l & _ & ->).
    apply resume_all_gate. exact H.
  - apply on_task_gate; [apply readdir_done_gate_safe | exact H].
  - apply on_task_gate; [apply readFile_done_gate_safe | exact H].
  - apply on_task_gate; [apply pushFile_done_gate_safe | exact H].
  - apply on_task_gate; [apply calculateRAM_done_gate_safe | exact H].
  - apply on_task_gate; [apply hook_done_gate_safe | exact H].
Qed.

Lemma run_gate tid evs s :
  gate_held tid (queued s) (tasks s) ->
  gate_held tid (queued (run cfg evs s)) (tasks (run cfg evs s)).
Proof.
  revert s. induction evs as [|e evs IH]; intros s H; [exact H|].
  apply IH, step_gate, H.
Qed.

(** A submission met by a raised flag changes nothing. *)
Lemma onEnd_queued r s : queued s = true -> step cfg (OnEnd r) s = s.
Proof.
  intros Hq. simpl. unfold onEnd. rewrite Hq.
  now destruct (negb (Nat.eqb (length (errors r)) 0)).
Qed.

Lemma filter_none {A : Type} (p : A -> bool) (l : list A) :
  (forall x, x ∈ l -> p x = false) -> List.filter p l = [].
Proof.
  induction l as [|x l IH]; intros H; simpl; [reflexivity|].
  rewrite (H x) by (left). apply IH. intros y Hy. apply H. now right.
Qed.

Lemma in_flight_zero s t :
  in_flight s = 0 -> t ∈ tasks s -> holding t = false.
Proof.
  unfold in_flight. intros H Ht.
  destruct (holding t) eqn:E; [|reflexivity].
  assert (Hin : In t (List.filter holding (tasks s))).
  { apply filter_In. split; [now apply list_elem_of_In | exact E]. }
  destruct (List.filter holding (tasks s)); [destruct Hin | discriminate].
Qed.

Lemma in_flight_one tid s t0 :
  tasks s !! tid = Some t0 -> holding t0 = true ->
  (forall j t', tasks s !! j = Some t' -> holding t' = true -> j = tid) ->
  in_flight s = 1.
Proof.
  intros Ht Hh Huniq. unfold in_flight.
  rewrite <- (take_drop_middle _ _ _ Ht), List.filter_app. simpl.
  rewrite Hh, length_app. simpl.
  rewrite !filter_none; [reflexivity| |].
  - intros x Hx. apply list_elem_of_lookup in Hx as [k Hk].
    rewrite lookup_drop in Hk.
    destruct (holding x) eqn:E; [|reflexivity].
    specialize (Huniq _ _ Hk E). lia.
  - intros x Hx. apply list_elem_of_lookup in Hx as [k Hk].
    pose proof (lookup_lt_Some _ _ _ Hk) as Hlt.
    rewrite length_take in Hlt.
    rewrite lookup_take in Hk. case_decide; [|discriminate].
    destruct (holding x) eqn:E; [|reflexivity].
    specialize (Huniq _ _ Hk E). lia.
Qed.

(** After an accepted submission without a connection, the new task
    holds the gate. *)
Lemma onEnd_waiting r s :
  errors r = [] -> queued s = false -> connected s = false ->
  step cfg (OnEnd r) s
  = mkState true false (dir s) (removing s) (listeners s ++ [length (tasks s)])
      (tasks s ++ [mkTask AwaitClient [] [] [] []]) (trace s).
Proof.
  intros He Hq Hc. simpl. unfold onEnd. now rewrite He, Hq, Hc.
Qed.

Lemma gate_held_after_waiting r s :
  errors r = [] -> queued s = false -> connected s = false ->
  in_flight s = 0 ->
  let s1 := step cfg (OnEnd r) s in
  gate_held (length (tasks s)) (queued s1) (tasks s1).
Proof.
  intros He Hq Hc Hidle s1. subst s1. rewrite onEnd_waiting by assumption.
  simpl. split; [rewrite length_app; simpl; lia|].
  intros _. split; [reflexivity|].
  intros j t' Hj Hh.
  destruct (decide (j < length (tasks s))) as [Hlt|Hge].
  - rewrite lookup_app_l in Hj by exact Hlt.
    assert (holding t' = false); [|congruence].
    eapply in_flight_zero; [exact Hidle|].
    apply list_elem_of_lookup. eauto.
  - pose proof (lookup_lt_Some _ _ _ Hj) as Hlt.
    rewrite length_app in Hlt. simpl in Hlt. lia.
Qed.

(** The path without a connection does what C1 asks for: a build that
    ends without compile errors while no connection is active and nothing
    is under way raises the flag in the very step that accepts it; as long
    as its push sequence has not passed line 194, it is the only one under
    way, the flag stays up, and any further build end leaves the state as
    it is (dropped, with nothing kept for a replay). *)
Lemma single_flight_while_waiting (s : State) (r : BuildResult)
    (evs : list Event) :
  errors r = [] -> queued s = false -> connected s = false ->
  in_flight s = 0 ->
  let tid := length (tasks s) in
  let s1 := step cfg (OnEnd r) s in
  let s' := run cfg evs s1 in
  queued s1 = true
  /\ in_flight s1 = 1
  /\ ((exists t, tasks s' !! tid = Some t /\ holding t = true) ->
      in_flight s' = 1
      /\ queued s' = true
      /\ forall r', step cfg (OnEnd r') s' = s').
Proof.
  intros He Hq Hc Hidle tid s1 s'.
  pose proof (gate_held_after_waiting r s He Hq Hc Hidle) as G1.
  fold s1 tid in G1.
  pose proof (run_gate tid evs s1 G1) as G'. fold s' in G'.
  assert (H1 : tasks s1 !! tid = Some (mkTask AwaitClient [] [] [] [])).
  { subst s1 tid. rewrite onEnd_waiting by assumption. simpl.
    rewrite lookup_app_r by lia. now rewrite Nat.sub_diag. }
  split; [|split].
  - subst s1. now rewrite onEnd_waiting by assumption.
  - destruct G1 as [_ G1]. destruct G1 as [_ Huniq]; [eauto|].
    eapply in_flight_one; [exact H1 | reflexivity | exact Huniq].
  - intros (t & Ht & Hh). destruct G' as [_ G'].
    destruct G' as [Hq' Huniq]; [eauto|].
    split; [|split].
    + eapply in_flight_one; eauto.
    + exact Hq'.
    + intros r'. now apply onEnd_queued.
Qed.

(** An accepted submission with a connection. *)
Lemma onEnd_connected r s :
  errors r = [] -> queued s = false -> connected s = true ->
  step cfg (OnEnd r) s
  = mkState false true (dir s) (removing s) (listeners s)
      (tasks s ++ [mkTask AwaitReaddir [] [] [] []])
      (trace s ++ [Readdir (length (tasks s))]).
Proof.
  intros He Hq Hc. simpl. unfold onEnd. now rewrite He, Hq, Hc.
Qed.

(** C1, on the path with a connection: line 153 is not reached, so the
    flag that line 149 tests stays down when a build is accepted. Of two
    builds that end back-to-back without compile errors, whatever else is
    under way, both are accepted: each gets a task of its own and reads the
    output directory, and both push sequences are under way at once. *)
Theorem C1_connected_builds_both_accepted (s : State) (r r' : BuildResult) :
  connected s = true -> queued s = false ->
  errors r = [] -> errors r' = [] ->
  let tid := length (tasks s) in
  let s2 := step cfg (OnEnd r') (step cfg (OnEnd r) s) in
  queued s2 = false
  /\ tasks s2
     = tasks s ++ [mkTask AwaitReaddir [] [] [] []; mkTask AwaitReaddir [] [] [] []]
  /\ trace s2 = trace s ++ [Readdir tid; Readdir (S tid)]
  /\ in_flight s2 = in_flight s + 2.
Proof.
  intros Hc Hq He He' tid s2. subst s2 tid.
  rewrite (onEnd_connected r s He Hq Hc).
  rewrite onEnd_connected by (assumption || reflexivity). simpl.
  rewrite <- !app_assoc. simpl.
  split; [reflexivity|]. split; [reflexivity|]. split.
  - rewrite length_app. simpl. now rewrite Nat.add_1_r.
  - unfold in_flight. simpl. rewrite List.filter_app, length_app.
    reflexivity.
Qed.

(** C7: a build that ends with at least one compile error leaves the
    whole state as it is: no task is created, so nothing is pushed and no
    cost is asked for on its behalf, and every later run goes on as if the
    build had not ended. *)
Theorem C7_build_errors_drop (s : State) (r : BuildResult) :
  errors r <> [] ->
  step cfg (OnEnd r) s = s
  /\ forall evs, run cfg evs (step cfg (OnEnd r) s) = run cfg evs s.
Proof.
  intros He.
  assert (E : step cfg (OnEnd r) s = s).
  { simpl. unfold onEnd. destruct (errors r); [contradiction | reflexivity]. }
  split; [exact E | intros evs; now rewrite E].
Qed.

(** C9, as the code has it: on an output directory that exists and is
    empty the resolution yields the empty list and the callback returns;
    on one that does not exist [fs.readdir] rejects and the callback
    throws. *)
Theorem C9_empty_directory_and_absent_directory (tid : nat) (t : Task) :
  at_ t = AwaitReaddir ->
  (option_map (Resolver.output_files (outdir cfg))
     (Resolver.readdir (join cfg) (outdir cfg) (Some [])) = Some []
   /\ readdir_done cfg tid (Resolver.readdir (join cfg) (outdir cfg) (Some [])) t
      = (set_at Returned t, [], false))
  /\ (Resolver.readdir (join cfg) (outdir cfg) None = None
      /\ readdir_done cfg tid (Resolver.readdir (join cfg) (outdir cfg) None) t
         = (set_at Threw t, [], false)).
Proof.
  intros Ht. unfold readdir_done. rewrite Ht. simpl. auto.
Qed.

End GateFacts.

Section GateExamples.

Import Hooks Deploy Order Sample.

Example single_flight_while_waiting_dist :
  let s' := run (cfg []) [ClientConnected; ReaddirDone 0]
              (step (cfg []) (OnEnd clean) (init false (Some out_a))) in
  in_flight s' = 1 /\ queued s' = true
  /\ step (cfg []) (OnEnd clean) s' = s'.
Proof.
  destruct (single_flight_while_waiting (cfg []) (init false (Some out_a))
              clean [ClientConnected; ReaddirDone 0]
              eq_refl eq_refl eq_refl eq_refl) as (_ & _ & H).
  destruct H as (H1 & H2 & H3).
  { eexists. split; reflexivity. }
  exact (conj H1 (conj H2 (H3 clean))).
Qed.

Lemma C1_both_accepted_when_connected :
  let s := run (cfg []) [OnEnd clean; OnEnd clean] (init true (Some out_a)) in
  queued s = false
  /\ tasks s = [mkTask AwaitReaddir [] [] [] []; mkTask AwaitReaddir [] [] [] []]
  /\ trace s = [Readdir 0; Readdir 1]
  /\ in_flight s = 2.
Proof.
  exact (C1_connected_builds_both_accepted (cfg []) (init true (Some out_a))
           clean clean eq_refl eq_refl eq_refl eq_refl).
Defined.

(** C2, at an accepted build whose output directory holds no file: the
    callback returns at line 172 with the flag still up, and the next build
    is dropped. The same holds when a push is rejected. *)
Theorem C2_flag_stays_up :
  (let s := run (cfg []) [OnEnd clean; ClientConnected; ReaddirDone 0]
              (init false (Some [])) in
   at_ <$> tasks s !! 0 = Some Returned
   /\ queued s = true
   /\ step (cfg []) (OnEnd clean) s = s)
  /\ (let s := run (cfg [])
                 [OnEnd clean; ClientConnected; ReaddirDone 0;
                  ReadFileDone 0 0 (Some "export {}"); PushFileDone 0 0 false]
                 (init false (Some out_a)) in
      at_ <$> tasks s !! 0 = Some Threw
      /\ queued s = true
      /\ step (cfg []) (OnEnd clean) s = s).
Proof. repeat split; reflexivity. Qed.

(** When every stage succeeds, line 194 is reached and the flag is down
    while the hooks are still awaited. *)
Example flag_down_after_success :
  let s := run (cfg [async])
             [OnEnd clean; ClientConnected; ReaddirDone 0;
              ReadFileDone 0 0 (Some "export {}"); PushFileDone 0 0 true;
              CalculateRAMDone 0 0 true]
             (init false (Some out_a)) in
  queued s = false /\ at_ <$> tasks s !! 0 = Some AwaitHooks.
Proof. split; reflexivity. Qed.

Lemma C7_build_errors_witness :
  step (cfg []) (OnEnd broken) (init true (Some out_a))
  = init true (Some out_a).
Proof.
  refine (proj1 (C7_build_errors_drop (cfg []) (init true (Some out_a)) broken _)).
  discriminate.
Defined.

Lemma C9_empty_directory_witness :
  readdir_done (cfg []) 0
    (Resolver.readdir (Resolver.joined "/") "dist" (Some []))
    (mkTask AwaitReaddir [] [] [] [])
  = (mkTask Returned [] [] [] [], [], false).
Proof.
  exact (proj2 (proj1 (C9_empty_directory_and_absent_directory (cfg []) 0
                         (mkTask AwaitReaddir [] [] [] []) eq_refl))).
Defined.

(** C9 as stated fails on a directory that does not exist: the listing is
    a rejection, not an empty list, and it ends the callback. *)
Lemma C9_absent_directory_rejects :
  option_map (Resolver.output_files "dist")
    (Resolver.readdir (Resolver.joined "/") "dist" None)
  <> Some []
  /\ (let s := run (cfg []) [OnEnd clean; ReaddirDone 0] (init true None) in
      at_ <$> tasks s !! 0 = Some Threw).
Proof. split; [discriminate | reflexivity]. Qed.

End GateExamples.

(** ** The mirror handler *)

Section MirrorFacts.

Import Mirror Phase.

Variable env : Env.

Lemma phase_notin (k : nat) (X : list Obs) (b : Obs) :
  Forall (fun o => of_obs o = k) X -> of_obs b <> k -> b ∉ X.
Proof.
  intros HX Hb Hin. rewrite Forall_forall in HX.
  apply Hb, HX, Hin.
Qed.

(** The first loop only makes calls of its own, and hands on the mirrors
    numbered in the order of the mapping. *)
Lemma create_shape (m : Mapping) (mirrors : list nat) (tr : list Obs) :
  exists X,
    (create env m mirrors tr).1 = tr ++ X
    /\ Forall (fun o => of_obs o = 0) X
    /\ forall ms, (create env m mirrors tr).2 = Value ms ->
         ms = mirrors ++ seq (length mirrors) (length m).
Proof.
  revert mirrors tr. induction m as [|[path servers] m IH]; intros mirrors tr.
  - exists []. simpl. rewrite !app_nil_r. repeat split; [constructor|].
    intros ms [= <-]. reflexivity.
  - simpl. unfold bind, await, invoke, ret.
    assert (Hlen : forall ms,
              ms = (mirrors ++ [length mirrors])
                   ++ seq (length (mirrors ++ [length mirrors])) (length m) ->
              ms = mirrors ++ seq (length mirrors) (S (length m))).
    { intros ms ->. rewrite length_app, <- app_assoc. simpl.
      now rewrite Nat.add_1_r. }
    destruct (negb (existsSync env path)) eqn:Hex;
      [destruct (mkdir env path)|]; simpl;
      try (match goal with
           | |- context [mirror env ?p] => destruct (mirror env p); simpl
           end);
      try (match goal with
           | |- context [create env m ?ms ?T] =>
               destruct (IH ms T) as (X & EX & HX & Hms)
           end).
    + exists ([Began (Mkdir path); Resolved (Mkdir path);
               Began (NewMirror path servers); Began (OnClose (length mirrors))]
              ++ X).
      split; [rewrite EX, <- !app_assoc; reflexivity|]. split.
      * repeat (constructor; [reflexivity|]). exact HX.
      * intros ms Hv. apply Hlen, Hms, Hv.
    + eexists. rewrite <- !app_assoc. simpl. split; [reflexivity|]. split.
      * repeat constructor.
      * intros ms [=].
    + eexists. split; [reflexivity|]. split; [repeat constructor|].
      intros ms [=].
    + eexists. split; [reflexivity|]. split; [repeat constructor|].
      intros ms [=].
    + exists ([Began (NewMirror path servers); Began (OnClose (length mirrors))]
              ++ X).
      split; [rewrite EX, <- !app_assoc; reflexivity|]. split.
      * repeat (constructor; [reflexivity|]). exact HX.
      * intros ms Hv. apply Hlen, Hms, Hv.
    + eexists. split; [reflexivity|]. split; [repeat constructor|].
      intros ms [=].
Qed.

(** A loop of awaited calls only makes calls of its own; when it runs to
    its end every call has resolved, and when it does not the handler goes
    no further. *)
Lemma awaits_shape (c : nat -> Call) (o : nat -> outcome) (k : nat)
    (l : list nat) (tr : list Obs) :
  (forall x, of_call (c x) = k) ->
  exists X,
    (for_of l (fun x => await (c x) (o x)) tr).1 = tr ++ X
    /\ Forall (fun ob => of_obs ob = k) X
    /\ ((for_of l (fun x => await (c x) (o x)) tr).2 = Value tt ->
        forall x, x ∈ l -> Resolved (c x) ∈ X).
Proof.
  intros Hk. revert tr. induction l as [|x l IH]; intros tr.
  - exists []. simpl. rewrite app_nil_r. repeat split; [constructor|].
    intros _ y Hy. inversion Hy.
  - simpl. unfold bind, await.
    destruct (o x).
    + destruct (IH (tr ++ [Began (c x); Resolved (c x)])) as (X & EX & HX & Hall).
      exists ([Began (c x); Resolved (c x)] ++ X).
      rewrite app_assoc. split; [exact EX|]. split.
      * repeat (constructor; [simpl; apply Hk|]). exact HX.
      * intros Hv y Hy. apply elem_of_cons in Hy as [->|Hy].
        -- right. left.
        -- right. right. now apply Hall.
    + eexists. split; [reflexivity|]. split.
      * repeat (constructor; [simpl; apply Hk|]). constructor.
      * intros [=].
    + eexists. split; [reflexivity|]. split.
      * repeat (constructor; [simpl; apply Hk|]). constructor.
      * intros [=].
Qed.

Lemma invokes_shape (c : nat -> Call) (ok : nat -> bool) (k : nat)
    (l : list nat) (tr : list Obs) :
  (forall x, of_call (c x) = k) ->
  exists X,
    (for_of l (fun x => invoke (c x) (ok x)) tr).1 = tr ++ X
    /\ Forall (fun ob => of_obs ob = k) X.
Proof.
  intros Hk. revert tr. induction l as [|x l IH]; intros tr.
  - exists []. simpl. rewrite app_nil_r. split; constructor.
  - simpl. unfold bind, invoke.
    destruct (ok x).
    + destruct (IH (tr ++ [Began (c x)])) as (X & EX & HX).
      exists ([Began (c x)] ++ X). rewrite app_assoc. split; [exact EX|].
      constructor; [simpl; apply Hk | exact HX].
    + eexists. split; [reflexivity|].
      constructor; [simpl; apply Hk | constructor].
Qed.

(** The trace of the handler falls into four stretches, one per loop; a
    later stretch is empty unless the loop before it ran to its end. *)
Lemma handler_shape (m : Mapping) :
  exists X0 X1 X2 X3,
    (handler env (Some m) []).1 = X0 ++ X1 ++ X2 ++ X3
    /\ Forall (fun o => of_obs o = 0) X0
    /\ Forall (fun o => of_obs o = 1) X1
    /\ Forall (fun o => of_obs o = 2) X2
    /\ Forall (fun o => of_obs o = 3) X3
    /\ (X2 ++ X3 <> [] ->
        forall j, j < length m -> Resolved (InitFileCache j) ∈ X1)
    /\ (X3 <> [] ->
        forall j, j < length m -> Resolved (SyncWithRemote j) ∈ X2).
Proof.
  unfold handler, bind.
  destruct (create_shape m [] []) as (X0 & E0 & H0 & Hms).
  simpl in E0, Hms.
  destruct (create env m [] []) as [tr0 r0]. simpl in E0, Hms. subst tr0.
  destruct r0 as [ms| |].
  2,3: exists X0, [], [], []; rewrite !app_nil_r;
       repeat split; try assumption; try constructor;
       intros H; now contradiction H.
  specialize (Hms ms eq_refl). subst ms.
  destruct (awaits_shape InitFileCache (initFileCache env) 1
              (seq 0 (length m)) X0 (fun _ => eq_refl)) as (X1 & E1 & H1 & Hall1).
  destruct (for_of (seq 0 (length m))
              (fun x => await (InitFileCache x) (initFileCache env x)) X0)
    as [tr1 r1]. simpl in E1, Hall1. subst tr1.
  destruct r1 as [[]| |].
  2,3: exists X0, X1, [], []; rewrite !app_nil_r;
       repeat split; try assumption; try constructor;
       intros H; now contradiction H.
  destruct (awaits_shape SyncWithRemote (syncWithRemote env) 2
              (seq 0 (length m)) (X0 ++ X1) (fun _ => eq_refl))
    as (X2 & E2 & H2 & Hall2).
  destruct (for_of (seq 0 (length m))
              (fun x => await (SyncWithRemote x) (syncWithRemote env x)) (X0 ++ X1))
    as [tr2 r2]. simpl in E2, Hall2. subst tr2.
  assert (Hinit : forall j, j < length m -> Resolved (InitFileCache j) ∈ X1).
  { intros j Hj. apply Hall1; [reflexivity|]. apply elem_of_seq. lia. }
  destruct r2 as [[]| |].
  2,3: exists X0, X1, X2, []; rewrite !app_nil_r, <- app_assoc;
       repeat split; try assumption; try constructor;
       [intros _; exact Hinit | intros H; now contradiction H].
  destruct (invokes_shape Watch (watch env) 3 (seq 0 (length m))
              ((X0 ++ X1) ++ X2) (fun _ => eq_refl)) as (X3 & E3 & H3).
  exists X0, X1, X2, X3. rewrite E3, <- !app_assoc.
  repeat split; try assumption.
  - intros _. exact Hinit.
  - intros _ j Hj. apply Hall2; [reflexivity|]. apply elem_of_seq. lia.
Qed.

(** C5: in a run of the mirror handler over any mapping, of two
    directories or more, every [initFileCache()] has resolved before any
    [syncWithRemote()] is begun, and every [syncWithRemote()] has resolved
    before any [watch()] is begun. *)
Theorem C5_mirror_phases_in_turn (m : Mapping) (i j : nat)
    (pre post : list Obs) :
  j < length m ->
  let tr := (handler env (Some m) []).1 in
  (tr = pre ++ Began (SyncWithRemote i) :: post ->
   Resolved (InitFileCache j) ∈ pre)
  /\ (tr = pre ++ Began (Watch i) :: post ->
      Resolved (SyncWithRemote j) ∈ pre).
Proof.
  intros Hj tr. subst tr.
  destruct (handler_shape m) as (X0 & X1 & X2 & X3 & E & H0 & H1 & H2 & H3 & Hi & Hs).
  rewrite E. split; intros Htr.
  - apply split_after in Htr as (p0 & -> & Htr);
      [|eapply phase_notin; [exact H0 | discriminate]].
    apply split_after in Htr as (p1 & -> & Htr);
      [|eapply phase_notin; [exact H1 | discriminate]].
    apply elem_of_app. right. apply elem_of_app. left.
    apply Hi; [|exact Hj]. rewrite Htr. now destruct p1.
  - apply split_after in Htr as (p0 & -> & Htr);
      [|eapply phase_notin; [exact H0 | discriminate]].
    apply split_after in Htr as (p1 & -> & Htr);
      [|eapply phase_notin; [exact H1 | discriminate]].
    apply split_after in Htr as (p2 & -> & Htr);
      [|eapply phase_notin; [exact H2 | discriminate]].
    apply elem_of_app. right. apply elem_of_app. right.
    apply elem_of_app. left.
    apply Hs; [|exact Hj]. rewrite Htr. now destruct p2.
Qed.

End MirrorFacts.

Section MirrorExamples.

Import Mirror Phase.

Example two_dirs_trace :
  handler kind_env (Some two_dirs) []
  = ([Began (Mkdir "scripts"); Resolved (Mkdir "scripts");
      Began (NewMirror "scripts" ["home"]); Began (OnClose 0);
      Began (NewMirror "lib" ["home"; "n00dles"]); Began (OnClose 1);
      Began (InitFileCache 0); Resolved (InitFileCache 0);
      Began (InitFileCache 1); Resolved (InitFileCache 1);
      Began (SyncWithRemote 0); Resolved (SyncWithRemote 0);
      Began (SyncWithRemote 1); Resolved (SyncWithRemote 1);
      Began (Watch 0); Began (Watch 1)],
     Value tt).
Proof. reflexivity. Qed.

Lemma C5_mirror_phases_witness :
  Resolved (InitFileCache 1)
    ∈ [Began (Mkdir "scripts"); Resolved (Mkdir "scripts");
       Began (NewMirror "scripts" ["home"]); Began (OnClose 0);
       Began (NewMirror "lib" ["home"; "n00dles"]); Began (OnClose 1);
       Began (InitFileCache 0); Resolved (InitFileCache 0);
       Began (InitFileCache 1); Resolved (InitFileCache 1)].
Proof.
  refine (proj1 (C5_mirror_phases_in_turn kind_env two_dirs 0 1 _
                   [Resolved (SyncWithRemote 0); Began (SyncWithRemote 1);
                    Resolved (SyncWithRemote 1); Began (Watch 0); Began (Watch 1)]
                   _) _).
  - simpl. lia.
  - reflexivity.
Defined.

End MirrorExamples.

(** ** The build-end callback: what is traced, and in which order *)

Section TraceFacts.

Import Hooks Deploy Order.

Variable cfg : Config.

Lemma before_vacuous (cls : Effect -> bool) (T : list Effect) (a b : Effect) :
  (forall e, e ∈ T -> cls e = false) -> cls b = true -> before T a b.
Proof.
  intros HT Hb pre post E.
  assert (cls b = false); [|congruence].
  apply HT. rewrite E. apply elem_of_app. right. left.
Qed.

Lemma before_app_other (cls : Effect -> bool) (T X : list Effect) (a b : Effect) :
  before T a b -> (forall e, e ∈ X -> cls e = false) -> cls b = true ->
  before (T ++ X) a b.
Proof.
  intros HT HX Hb pre post E.
  apply split_before in E as (post' & E).
  - eapply HT, E.
  - intros Hin. specialize (HX b Hin). congruence.
Qed.

Lemma before_app_after (cls : Effect -> bool) (Y Z : list Effect) (a b : Effect) :
  a ∈ Y -> (forall e, e ∈ Y -> cls e = false) -> cls b = true ->
  before (Y ++ Z) a b.
Proof.
  intros Ha HY Hb pre post E.
  apply split_after in E as (pre' & -> & _).
  - apply elem_of_app. now left.
  - intros Hin. specialize (HY b Hin). congruence.
Qed.

Lemma is_readdir_owner tid e : is_readdir tid e = true -> owner e = Some tid.
Proof. destruct e; simpl; try discriminate. intros H. apply Nat.eqb_eq in H. now subst. Qed.

Lemma is_ram_call_owner tid e : is_ram_call tid e = true -> owner e = Some tid.
Proof. destruct e; simpl; try discriminate. intros H. apply Nat.eqb_eq in H. now subst. Qed.

Lemma is_afterBuild_owner tid e : is_afterBuild tid e = true -> owner e = Some tid.
Proof.
  destruct e as [| | | | | | |h [c|]|h [c|] k]; simpl; try discriminate;
    destruct h; try discriminate; intros H; apply Nat.eqb_eq in H; now subst.
Qed.

Lemma filter_foreign (cls : Effect -> bool) (X : list Effect) :
  (forall e, e ∈ X -> cls e = false) -> List.filter cls X = [].
Proof. apply filter_none. Qed.

(** Effects of other tasks, or of no task, do not disturb a task's
    invariant. *)
Lemma task_inv_foreign tid t tr X :
  task_inv tid t tr -> (forall e, e ∈ X -> owner e <> Some tid) ->
  task_inv tid t (tr ++ X).
Proof.
  intros I HX.
  assert (Hcls : forall cls, (forall e, cls e = true -> owner e = Some tid) ->
                   forall e, e ∈ X -> cls e = false).
  { intros cls Hc e He. destruct (cls e) eqn:E; [|reflexivity].
    exfalso. exact (HX e He (Hc e E)). }
  assert (Hin : forall e, owner e = Some tid -> e ∈ tr ++ X -> e ∈ tr).
  { intros e Ho He. apply elem_of_app in He as [He|He]; [exact He|].
    exfalso. exact (HX e He Ho). }
  destruct I. constructor; try assumption.
  - rewrite List.filter_app, length_app,
      (filter_foreign _ X (Hcls _ (is_readdir_owner tid))). simpl.
    now rewrite Nat.add_0_r.
  - intros i fn sv c He. apply (inv_push_file0 i fn sv c). now apply Hin.
  - intros i Hi. apply elem_of_app. left. auto.
  - intros j fn sv He. eapply inv_ram_idx0. apply Hin; [reflexivity | exact He].
  - intros i b Hi Hb. eapply before_app_other; [now apply inv_push_before0 | | exact Hb].
    apply Hcls, is_ram_call_owner.
  - intros i Hi. apply elem_of_app. left. auto.
  - intros Hh b Hb. apply elem_of_app in Hb as [Hb|Hb]; [now apply inv_no_hooks0|].
    now apply (Hcls _ (is_afterBuild_owner tid)).
  - intros i b Hi Hb. eapply before_app_other; [now apply inv_ram_before0 | | exact Hb].
    apply Hcls, is_afterBuild_owner.
Qed.


Local Ltac mem_X H :=
  first
    [ apply elem_of_cons in H as [H|H];
      [ first [discriminate H | injection H as ?; subst | subst] | mem_X H ]
    | apply elem_of_lookup_imap_1 in H as (? & ? & H & ?);
      first [discriminate H | injection H as ?; subst | subst]
    | apply elem_of_map in H as (? & H & ?);
      first [discriminate H | injection H as ?; subst | subst]
    | solve [inversion H] ].

Local Ltac mem H := apply elem_of_app in H as [H|H]; [|mem_X H].

Local Ltac none_in_X := let e := fresh "e" in let H := fresh "H" in
  intros e H; mem_X H; simpl; try reflexivity; try congruence.

Lemma resume_local tid : local_ok tid (resume tid).
Proof.
  intros t tr I. unfold resume.
  destruct (at_ t) eqn:Hat; simpl;
    try (rewrite app_nil_r; split; [exact I | intros e He; inversion He]).
  destruct I. split; [constructor; simpl|none_in_X].
  - intros _. apply inv_early0. now left.
  - discriminate.
  - rewrite List.filter_app, length_app, inv_readdir0, Hat. simpl.
    now rewrite Nat.eqb_refl.
  - intros i fn sv c H. mem H. eauto.
  - intros i H. apply elem_of_app. left. eauto.
  - intros j fn sv H. mem H. eauto.
  - intros i b Hi Hb.
    apply (before_app_other (is_ram_call tid)); [eauto | none_in_X | exact Hb].
  - intros i H. apply elem_of_app. left. eauto.
  - intros _ b H. mem H; [|reflexivity]. apply inv_no_hooks0; [|exact H].
    unfold holding. now rewrite Hat.
  - intros i b Hi Hb.
    apply (before_app_other (is_afterBuild tid)); [eauto | none_in_X | exact Hb].
Qed.


Lemma is_ram_call_inv tid e :
  is_ram_call tid e = true -> exists j fn sv, e = CalculateRAM tid j fn sv.
Proof.
  destruct e; simpl; try discriminate. intros H. apply Nat.eqb_eq in H.
  subst. eauto.
Qed.

Lemma no_ram_calls tid t tr :
  task_inv tid t tr -> costs t = [] ->
  forall e, e ∈ tr -> is_ram_call tid e = false.
Proof.
  intros I Hc e He. destruct (is_ram_call tid e) eqn:E; [|reflexivity].
  apply is_ram_call_inv in E as (j & fn & sv & ->).
  apply (inv_ram_idx _ _ _ I) in He. rewrite Hc in He. simpl in He. lia.
Qed.

(** The callback ends, by [return] or by an exception, or goes on to wait
    for the hooks: nothing is traced, and the lists stay. *)
Lemma task_inv_set_at tid t tr st :
  task_inv tid t tr -> at_ t <> AwaitClient ->
  holding (set_at st t) = false ->
  task_inv tid (set_at st t) tr.
Proof.
  intros I Hat Hst. destruct I.
  unfold holding in Hst. simpl in Hst.
  constructor; simpl; try assumption.
  - intros [-> | ->]; discriminate.
  - intros ->; discriminate.
  - rewrite inv_readdir0. destruct (at_ t); try contradiction; now destruct st.
  - intros Hh. unfold holding in Hh. simpl in Hh. congruence.
Qed.

Lemma task_inv_throw_at tid t tr st :
  task_inv tid t tr -> st <> AwaitClient ->
  task_inv tid (throw_at st t) tr.
Proof.
  intros I Hst. unfold throw_at.
  destruct (stage_eqb (at_ t) st) eqn:E; [|exact I].
  apply task_inv_set_at; [exact I | | reflexivity].
  intros Hat. rewrite Hat in E. destruct st; try discriminate. contradiction.
Qed.

Lemma readdir_done_local tid r : local_ok tid (readdir_done cfg tid r).
Proof.
  intros t tr I. unfold readdir_done.
  destruct (at_ t) eqn:Hat; simpl;
    try (rewrite app_nil_r; split; [exact I | intros e He; inversion He]).
  destruct r as [ents|]; simpl.
  2:{ rewrite app_nil_r. split; [|intros e He; inversion He].
      apply task_inv_set_at; [exact I | congruence | reflexivity]. }
  destruct (Resolver.output_files (outdir cfg) ents) as [|f fs] eqn:Hfs; simpl.
  { rewrite app_nil_r. split; [|intros e He; inversion He].
    apply task_inv_set_at; [exact I | congruence | reflexivity]. }
  pose proof (no_ram_calls tid t tr I) as Hnoram.
  destruct I.
  destruct inv_early0 as [Hp Hc]; [now right|].
  specialize (Hnoram Hc).
  split; [constructor; simpl|none_in_X].
  - intros [H|H]; discriminate.
  - reflexivity.
  - rewrite List.filter_app, length_app, inv_readdir0, Hat.
    rewrite (filter_none (is_readdir tid)); [reflexivity|].
    intros e He. apply elem_of_cons in He as [->|He]; [reflexivity|].
    apply elem_of_lookup_imap_1 in He as (? & ? & -> & _). reflexivity.
  - intros i fn sv c H. mem H.
    apply inv_push_file0 in H as [H _]. rewrite Hp in H. simpl in H. lia.
  - intros [|i] H; simpl in H; [discriminate|].
    apply lookup_map_const in H. discriminate.
  - intros j fn sv H. mem H. apply inv_ram_idx0 in H. rewrite Hc in H.
    simpl in H. lia.
  - intros i b Hi Hb. apply (before_vacuous (is_ram_call tid)); [|exact Hb].
    intros e He. apply elem_of_app in He as [He|He]; [auto|].
    revert e He. none_in_X.
  - intros i H. rewrite lookup_nil in H. discriminate.
  - intros _ b H. apply elem_of_app in H as [H|H].
    + apply inv_no_hooks0; [|exact H]. unfold holding. now rewrite Hat.
    + revert b H. none_in_X.
  - intros i b Hi. lia.
Qed.


Lemma pushes_not_early tid t tr i w :
  task_inv tid t tr -> pushes t !! i = Some w ->
  at_ t <> AwaitClient /\ at_ t <> AwaitReaddir.
Proof.
  intros I Hi. split; intros Hat;
    (destruct (inv_early _ _ _ I) as [Hp _]; [auto|]);
    rewrite Hp in Hi; discriminate.
Qed.

Lemma costs_not_early tid t tr i p :
  task_inv tid t tr -> costs t !! i = Some p ->
  at_ t <> AwaitClient /\ at_ t <> AwaitReaddir /\ at_ t <> AwaitPushes.
Proof.
  intros I Hi. repeat split; intros Hat.
  1,2: (destruct (inv_early _ _ _ I) as [_ Hc]; [auto|]);
       rewrite Hc in Hi; discriminate.
  rewrite (inv_pushing _ _ _ I Hat) in Hi. discriminate.
Qed.

Lemma readFile_done_local tid i content : local_ok tid (readFile_done tid i content).
Proof.
  intros t tr I. unfold readFile_done.
  destruct (pushes t !! i) as [[| | |]|] eqn:Hi; simpl;
    try (rewrite app_nil_r; split; [exact I | intros e He; inversion He]).
  destruct (files t !! i) as [f|] eqn:Hf; simpl;
    try (rewrite app_nil_r; split; [exact I | intros e He; inversion He]).
  pose proof (pushes_not_early _ _ _ _ _ I Hi) as [Hne1 Hne2].
  pose proof (lookup_lt_Some _ _ _ Hi) as Hlt.
  assert (Iw : forall w X, w <> Pushed ->
            (forall e, e ∈ X -> e = PushFile tid i (Resolver.filename f)
                                      (Resolver.server f) (default "" content)) ->
            task_inv tid (set_pushes (<[i:=w]> (pushes t)) t) (tr ++ X)).
  { intros w X Hw HX. destruct I. constructor; simpl; rewrite ?length_insert.
    - intros [H|H]; contradiction.
    - assumption.
    - rewrite List.filter_app, length_app, inv_readdir0.
      rewrite (filter_none (is_readdir tid) X); [simpl; lia|].
      intros e He. now rewrite (HX e He).
    - intros i' fn sv c H. apply elem_of_app in H as [H|H]; [eauto|].
      apply HX in H. injection H as -> -> -> _. eauto.
    - intros i' H. apply elem_of_app. left. apply inv_pushed0.
      destruct (decide (i = i')) as [->|Hne].
      + rewrite list_lookup_insert_eq in H by exact Hlt. congruence.
      + now rewrite list_lookup_insert_ne in H.
    - intros j fn sv H. apply elem_of_app in H as [H|H]; [eauto|].
      apply HX in H. discriminate.
    - intros i' b Hi' Hb.
      apply (before_app_other (is_ram_call tid)); [eauto | | exact Hb].
      intros e He. now rewrite (HX e He).
    - intros i' H. apply elem_of_app. left. eauto.
    - intros Hh b H. apply elem_of_app in H as [H|H]; [eauto|].
      now rewrite (HX b H).
    - intros i' b Hi' Hb.
      apply (before_app_other (is_afterBuild tid)); [eauto | | exact Hb].
      intros e He. now rewrite (HX e He). }
  destruct content as [c|]; simpl.
  - split; [|none_in_X]. apply Iw; [discriminate|].
    intros e He. now apply list_elem_of_singleton in He.
  - rewrite app_nil_r. split; [|intros e He; inversion He].
    apply task_inv_throw_at; [|discriminate].
    rewrite <- (app_nil_r tr). apply Iw; [discriminate|].
    intros e He. inversion He.
Qed.


(** Line 184: with every push fulfilled, the costs are asked for. *)
Lemma start_costs_inv tid t tr :
  task_inv tid t tr -> at_ t = AwaitPushes ->
  forallb is_pushed (pushes t) = true ->
  task_inv tid
    (mkTask AwaitCosts (files t) (pushes t)
       (map (fun _ => Pending) (files t)) (hooks t))
    (tr ++ imap (fun j f => CalculateRAM tid j (Resolver.filename f)
                              (Resolver.server f)) (files t)).
Proof.
  intros I Hat Hall.
  pose proof (no_ram_calls tid t tr I (inv_pushing _ _ _ I Hat)) as Hnoram.
  destruct I.
  assert (Hnohook : forall b, b ∈ tr -> is_afterBuild tid b = false).
  { apply inv_no_hooks0. unfold holding. now rewrite Hat. }
  constructor; simpl.
  - intros [H|H]; discriminate.
  - discriminate.
  - rewrite List.filter_app, length_app, inv_readdir0, Hat.
    rewrite (filter_none (is_readdir tid)); [reflexivity|]. none_in_X.
  - intros i fn sv c H. mem H. eauto.
  - intros i H. apply elem_of_app. left. eauto.
  - intros j fn sv H. mem H.
    + apply Hnoram in H. simpl in H. now rewrite Nat.eqb_refl in H.
    + rewrite length_map. eapply lookup_lt_Some; eassumption.
  - intros i b Hi Hb.
    apply (before_app_after (is_ram_call tid)); [|exact Hnoram|exact Hb].
    apply inv_pushed0.
    destruct (lookup_lt_is_Some_2 _ _ Hi) as [w Hw].
    pose proof (forallb_lookup _ _ _ _ Hall Hw) as Hp.
    destruct w; try discriminate. exact Hw.
  - intros i H. apply lookup_map_const in H. discriminate.
  - intros _ b H. apply elem_of_app in H as [H|H]; [auto|].
    revert b H. none_in_X.
  - intros i b Hi Hb. apply (before_vacuous (is_afterBuild tid)); [|exact Hb].
    intros e He. apply elem_of_app in He as [He|He]; [auto|].
    revert e He. none_in_X.
Qed.

Lemma pushFile_done_local tid i ok : local_ok tid (pushFile_done tid i ok).
Proof.
  intros t tr I. unfold pushFile_done.
  destruct (pushes t !! i) as [[| | |]|] eqn:Hi; simpl;
    try (rewrite app_nil_r; split; [exact I | intros e He; inversion He]).
  pose proof (pushes_not_early _ _ _ _ _ I Hi) as [Hne1 Hne2].
  pose proof (lookup_lt_Some _ _ _ Hi) as Hlt.
  assert (Iw : forall w,
            (w = Pushed -> ok = true) ->
            task_inv tid (set_pushes (<[i:=w]> (pushes t)) t)
              (tr ++ [PushFileSettled tid i ok])).
  { intros w Hw. destruct I. constructor; simpl; rewrite ?length_insert.
    - intros [H|H]; contradiction.
    - assumption.
    - rewrite List.filter_app, length_app, inv_readdir0. simpl. lia.
    - intros i' fn sv c H. mem H. eauto.
    - intros i' H. destruct (decide (i = i')) as [->|Hne].
      + rewrite list_lookup_insert_eq in H by exact Hlt. injection H as ->.
        rewrite (Hw eq_refl). apply elem_of_app. right. left.
      + rewrite list_lookup_insert_ne in H by exact Hne.
        apply elem_of_app. left. eauto.
    - intros j fn sv H. mem H. eauto.
    - intros i' b Hi' Hb.
      apply (before_app_other (is_ram_call tid)); [eauto | none_in_X | exact Hb].
    - intros i' H. apply elem_of_app. left. eauto.
    - intros Hh b H. mem H; [eauto | reflexivity].
    - intros i' b Hi' Hb.
      apply (before_app_other (is_afterBuild tid)); [eauto | none_in_X | exact Hb]. }
  destruct ok; simpl.
  - destruct (stage_eqb (at_ t) AwaitPushes
              && forallb is_pushed (<[i:=Pushed]> (pushes t))) eqn:E; simpl.
    + apply andb_prop in E as [Hat Hall].
      split; [|none_in_X].
      change (tr ++ PushFileSettled tid i true :: ?X)
        with (tr ++ [PushFileSettled tid i true] ++ X).
      rewrite app_assoc.
      apply (start_costs_inv tid (set_pushes (<[i:=Pushed]> (pushes t)) t));
        [apply Iw; auto | | exact Hall].
      simpl. now destruct (at_ t).
    + split; [|none_in_X]. apply Iw. auto.
  - split; [|none_in_X].
    apply task_inv_throw_at; [|discriminate]. apply Iw. discriminate.
Qed.


Lemma is_afterBuild_inv tid e :
  is_afterBuild tid e = true ->
  e = Dispatch afterBuild (Some tid) \/ exists k, e = Hook afterBuild (Some tid) k.
Proof.
  destruct e as [| | | | | | |h [c|]|h [c|] k]; simpl; try discriminate;
    destruct h; try discriminate; intros H; apply Nat.eqb_eq in H; subst; eauto.
Qed.

(** Line 202: with every cost fulfilled, the hooks are dispatched; [t']
    is the task as the dispatch leaves it. *)
Lemma dispatch_inv tid t t' tr X :
  task_inv tid t tr -> at_ t = AwaitCosts -> all (costs t) = true ->
  files t' = files t -> pushes t' = pushes t -> costs t' = costs t ->
  holding t' = false ->
  (forall e, e ∈ X -> is_afterBuild tid e = true) ->
  task_inv tid t' (tr ++ X).
Proof.
  intros I Hat Hall Hf Hp Hc Hh HX. destruct I.
  assert (Hnohook : forall b, b ∈ tr -> is_afterBuild tid b = false).
  { apply inv_no_hooks0. unfold holding. now rewrite Hat. }
  assert (Hshape : forall e, e ∈ X ->
            e = Dispatch afterBuild (Some tid)
            \/ exists k, e = Hook afterBuild (Some tid) k).
  { intros e He. apply is_afterBuild_inv, HX, He. }
  assert (Hlate : at_ t' <> AwaitClient /\ at_ t' <> AwaitReaddir
                  /\ at_ t' <> AwaitPushes).
  { unfold holding in Hh. repeat split; intros E; rewrite E in Hh; discriminate. }
  destruct Hlate as (L1 & L2 & L3).
  constructor; rewrite ?Hf, ?Hp, ?Hc.
  - intros [H|H]; contradiction.
  - intros H; contradiction.
  - rewrite List.filter_app, length_app, inv_readdir0, Hat.
    rewrite (filter_none (is_readdir tid) X).
    + simpl. destruct (at_ t'); try reflexivity. contradiction.
    + intros e He. destruct (Hshape e He) as [->|[k ->]]; reflexivity.
  - intros i fn sv c H. apply elem_of_app in H as [H|H]; [eauto|].
    destruct (Hshape _ H) as [E|[k E]]; discriminate.
  - intros i H. apply elem_of_app. left. eauto.
  - intros j fn sv H. apply elem_of_app in H as [H|H]; [eauto|].
    destruct (Hshape _ H) as [E|[k E]]; discriminate.
  - intros i b Hi Hb.
    apply (before_app_other (is_ram_call tid)); [eauto | | exact Hb].
    intros e He. destruct (Hshape e He) as [->|[k ->]]; reflexivity.
  - intros i H. apply elem_of_app. left. eauto.
  - intros H. congruence.
  - intros i b Hi Hb.
    apply (before_app_after (is_afterBuild tid)); [|exact Hnohook|exact Hb].
    apply inv_fulfilled0.
    destruct (lookup_lt_is_Some_2 _ _ Hi) as [p Hpi].
    pose proof (forallb_lookup _ _ _ _ Hall Hpi) as Hful.
    destruct p; try discriminate. exact Hpi.
Qed.

Lemma dispatch_effects tid e :
  e ∈ (dispatch cfg afterBuild (Some tid)).1 -> is_afterBuild tid e = true.
Proof.
  unfold dispatch.
  destruct (map_hooks afterBuild 0 (extensions cfg)) as [called arr]. simpl.
  intros H. mem_X H; simpl; apply Nat.eqb_refl.
Qed.

Lemma calculateRAM_done_local tid i ok :
  local_ok tid (calculateRAM_done cfg tid i ok).
Proof.
  intros t tr I. unfold calculateRAM_done.
  destruct (costs t !! i) as [[| |]|] eqn:Hi; simpl;
    try (rewrite app_nil_r; split; [exact I | intros e He; inversion He]).
  pose proof (costs_not_early _ _ _ _ _ I Hi) as (Hne1 & Hne2 & Hne3).
  pose proof (lookup_lt_Some _ _ _ Hi) as Hlt.
  assert (Iw : forall p,
            (p = Fulfilled -> ok = true) ->
            task_inv tid (set_costs (<[i:=p]> (costs t)) t)
              (tr ++ [CalculateRAMSettled tid i ok])).
  { intros p Hp. destruct I. constructor; simpl; rewrite ?length_insert.
    - intros [H|H]; contradiction.
    - intros H; contradiction.
    - rewrite List.filter_app, length_app, inv_readdir0. simpl. lia.
    - intros i' fn sv c H. mem H. eauto.
    - intros i' H. apply elem_of_app. left. eauto.
    - intros j fn sv H. mem H. eauto.
    - intros i' b Hi' Hb.
      apply (before_app_other (is_ram_call tid)); [eauto | none_in_X | exact Hb].
    - intros i' H. destruct (decide (i = i')) as [->|Hne].
      + rewrite list_lookup_insert_eq in H by exact Hlt. injection H as ->.
        rewrite (Hp eq_refl). apply elem_of_app. right. left.
      + rewrite list_lookup_insert_ne in H by exact Hne.
        apply elem_of_app. left. eauto.
    - intros Hh b H. mem H; [eauto | reflexivity].
    - intros i' b Hi' Hb.
      apply (before_app_other (is_afterBuild tid)); [eauto | none_in_X | exact Hb]. }
  destruct ok; simpl.
  - destruct (stage_eqb (at_ t) AwaitCosts
              && all (<[i:=Fulfilled]> (costs t))) eqn:E; simpl.
    + apply andb_prop in E as [Hat Hall].
      pose proof (dispatch_effects tid) as Heffs.
      destruct (dispatch cfg afterBuild (Some tid)) as [effs arr]. simpl in *.
      split.
      * change (tr ++ CalculateRAMSettled tid i true :: effs)
          with (tr ++ [CalculateRAMSettled tid i true] ++ effs).
        rewrite app_assoc.
        eapply (dispatch_inv tid (set_costs (<[i:=Fulfilled]> (costs t)) t));
          [apply Iw; auto | | exact Hall | | | | | exact Heffs];
          try (destruct arr; reflexivity).
        -- simpl. now destruct (at_ t).
        -- destruct arr as [ps|]; [|reflexivity].
           unfold holding. simpl. now destruct (allSettled ps).
      * intros e He. apply elem_of_cons in He as [->|He]; [reflexivity|].
        now apply is_afterBuild_owner, Heffs.
    + split; [|none_in_X]. apply Iw. auto.
  - split; [|none_in_X].
    apply task_inv_throw_at; [|discriminate]. apply Iw. discriminate.
Qed.

Lemma hook_done_local tid i ok : local_ok tid (hook_done i ok).
Proof.
  intros t tr I. unfold hook_done.
  destruct (hooks t !! i) as [[| |]|] eqn:Hi; simpl;
    try (rewrite app_nil_r; split; [exact I | intros e He; inversion He]).
  rewrite app_nil_r. split; [|intros e He; inversion He].
  assert (Ih : task_inv tid
                 (set_hooks (<[i:=if ok then Fulfilled else Rejected]> (hooks t)) t) tr).
  { destruct I. constructor; simpl; assumption. }
  destruct (stage_eqb (at_ t) AwaitHooks
            && allSettled (<[i:=if ok then Fulfilled else Rejected]> (hooks t)))
    eqn:E; simpl; [|exact Ih].
  apply andb_prop in E as [Hat _].
  apply task_inv_set_at; [exact Ih | | reflexivity].
  simpl. intros H. rewrite H in Hat. discriminate.
Qed.


(** *** The invariant along a run *)

Lemma on_task_trace tid f s :
  local_ok tid f -> trace_inv s -> trace_inv (on_task tid f s).
Proof.
  intros Hf [Hfresh Htasks]. unfold on_task.
  destruct (tasks s !! tid) as [t|] eqn:Et; [|split; assumption].
  destruct (Hf t (trace s) (Htasks _ _ Et)) as [It HX].
  destruct (f t) as [[t' X] rel]. simpl in *.
  pose proof (lookup_lt_Some _ _ _ Et) as Hlt.
  split; simpl.
  - intros e j He Ho. rewrite length_insert.
    apply elem_of_app in He as [He|He]; [eauto|].
    rewrite (HX e He) in Ho. injection Ho as <-. exact Hlt.
  - intros j tj Hj. destruct (decide (tid = j)) as [<-|Hne].
    + rewrite list_lookup_insert_eq in Hj by exact Hlt. now injection Hj as <-.
    + rewrite list_lookup_insert_ne in Hj by exact Hne.
      apply task_inv_foreign; [eauto|].
      intros e He Ho. rewrite (HX e He) in Ho. congruence.
Qed.

Lemma resume_all_trace l s :
  trace_inv s ->
  trace_inv (foldl (fun st k => on_task k (resume k) st) s l).
Proof.
  revert s. induction l as [|k l IH]; intros s H; simpl; [exact H|].
  apply IH, on_task_trace; [apply resume_local | exact H].
Qed.

(** Effects of no task. *)
Lemma trace_inv_ownerless q c d n ls s X :
  trace_inv s -> (forall e, e ∈ X -> owner e = None) ->
  trace_inv (mkState q c d n ls (tasks s) (trace s ++ X)).
Proof.
  intros [Hfresh Htasks] HX. split; simpl.
  - intros e j He Ho. apply elem_of_app in He as [He|He]; [eauto|].
    rewrite (HX e He) in Ho. discriminate.
  - intros j t Hj. apply task_inv_foreign; [eauto|].
    intros e He Ho. rewrite (HX e He) in Ho. discriminate.
Qed.

Lemma beforeBuild_ownerless e :
  e ∈ (dispatch cfg beforeBuild None).1 -> owner e = None.
Proof.
  unfold dispatch.
  destruct (map_hooks beforeBuild 0 (extensions cfg)) as [called arr]. simpl.
  intros H. mem_X H; reflexivity.
Qed.

(** A task that enters the list finds nothing traced under its number. *)
Lemma task_inv_fresh tid tr :
  (forall e, e ∈ tr -> owner e <> Some tid) ->
  task_inv tid (mkTask AwaitClient [] [] [] []) tr.
Proof.
  intros Hfresh.
  assert (Hcls : forall cls, (forall e, cls e = true -> owner e = Some tid) ->
                   forall e, e ∈ tr -> cls e = false).
  { intros cls Hc e He. destruct (cls e) eqn:E; [|reflexivity].
    exfalso. exact (Hfresh e He (Hc e E)). }
  constructor; simpl.
  - auto.
  - auto.
  - now rewrite (filter_none _ _ (Hcls _ (is_readdir_owner tid))).
  - intros i fn sv c H. exfalso. exact (Hfresh _ H eq_refl).
  - intros i H. rewrite lookup_nil in H. discriminate.
  - intros j fn sv H. exfalso. exact (Hfresh _ H eq_refl).
  - intros i b Hi. lia.
  - intros i H. rewrite lookup_nil in H. discriminate.
  - intros _. apply Hcls, is_afterBuild_owner.
  - intros i b Hi. lia.
Qed.

Lemma onEnd_trace r s : trace_inv s -> trace_inv (onEnd r s).
Proof.
  intros H. unfold onEnd.
  destruct (negb (Nat.eqb (length (errors r)) 0)); [exact H|].
  destruct (queued s); [exact H|].
  destruct H as [Hfresh Htasks].
  assert (Hnew : forall e, e ∈ trace s -> owner e <> Some (length (tasks s))).
  { intros e He Ho. specialize (Hfresh _ _ He Ho). lia. }
  pose proof (task_inv_fresh _ _ Hnew) as I0.
  destruct (resume_local (length (tasks s)) _ _ I0) as [I1 _]. simpl in I1.
  assert (Hold : forall X j t,
            (forall e, e ∈ X -> owner e = Some (length (tasks s))) ->
            tasks s !! j = Some t -> task_inv j t (trace s ++ X)).
  { intros X j t HX Hj. apply task_inv_foreign; [eauto|].
    intros e He Ho. rewrite (HX e He) in Ho. injection Ho as <-.
    apply lookup_lt_Some in Hj. lia. }
  destruct (negb (connected s)); split; simpl.
  - intros e j He Ho. rewrite length_app. simpl.
    specialize (Hfresh _ _ He Ho). lia.
  - intros j t Hj. apply lookup_app_Some in Hj as [Hj|[Hge Hj]]; [eauto|].
    apply list_lookup_singleton_Some in Hj as [Hz <-].
    replace j with (length (tasks s)) by lia. exact I0.
  - intros e j He Ho. rewrite length_app. simpl.
    apply elem_of_app in He as [He|He].
    + specialize (Hfresh _ _ He Ho). lia.
    + apply list_elem_of_singleton in He as ->. injection Ho as <-. lia.
  - intros j t Hj. apply lookup_app_Some in Hj as [Hj|[Hge Hj]].
    + apply Hold; [|exact Hj].
      intros e He. now apply list_elem_of_singleton in He as ->.
    + apply list_lookup_singleton_Some in Hj as [Hz <-].
      replace j with (length (tasks s)) by lia. exact I1.
Qed.

Lemma step_trace e s : trace_inv s -> trace_inv (step cfg e s).
Proof.
  intros H. destruct e; simpl.
  - unfold onStart, emit. destruct (dir s).
    + apply (trace_inv_ownerless _ _ _ _ _ s [Rm] H).
      intros e He. now apply list_elem_of_singleton in He as ->.
    + apply (trace_inv_ownerless _ _ _ _ _ s _ H), beforeBuild_ownerless.
  - unfold rm_done. destruct (removing s); [exact H|]. destruct ok.
    + apply (trace_inv_ownerless _ _ _ _ _ s _ H), beforeBuild_ownerless.
    + exact H.
  - exact H.
  - now apply onEnd_trace.
  - destruct (client_connected_foldl cfg s) as (l & _ & ->).
    apply resume_all_trace.
    apply (trace_inv_ownerless _ _ _ _ _ s _ H), (dispatch_ownerless cfg).
  - exact H.
  - apply on_task_trace; [apply readdir_done_local | exact H].
  - apply on_task_trace; [apply readFile_done_local | exact H].
  - apply on_task_trace; [apply pushFile_done_local | exact H].
  - apply on_task_trace; [apply calculateRAM_done_local | exact H].
  - apply on_task_trace; [apply hook_done_local | exact H].
Qed.

Lemma run_trace evs s : trace_inv s -> trace_inv (run cfg evs s).
Proof.
  revert s. induction evs as [|e evs IH]; intros s H; [exact H|].
  apply IH, step_trace, H.
Qed.

Lemma reachable_trace s : reachable cfg s -> trace_inv s.
Proof.
  intros (c & d & evs & ->). apply run_trace. split; simpl.
  - intros e j He. inversion He.
  - intros j t Hj. rewrite lookup_nil in Hj. discriminate.
Qed.

(** C8: in every run, and for every cycle, each [pushFile] call of the
    cycle has settled (fulfilled) before any [calculateRAM] call of the cycle
    is made, and each [calculateRAM] call of the cycle has settled
    (fulfilled) before its [afterBuild] hooks are dispatched or called. *)
Theorem C8_barriers_between_stages (connected0 : bool)
    (dir0 : option (list Resolver.node)) (evs : list Event) (tid : nat) :
  let tr := trace (run cfg evs (init connected0 dir0)) in
  (forall i fn sv c j fn' sv',
      PushFile tid i fn sv c ∈ tr ->
      before tr (PushFileSettled tid i true) (CalculateRAM tid j fn' sv'))
  /\ (forall i fn sv k,
        CalculateRAM tid i fn sv ∈ tr ->
        before tr (CalculateRAMSettled tid i true) (Dispatch afterBuild (Some tid))
        /\ before tr (CalculateRAMSettled tid i true) (Hook afterBuild (Some tid) k)).
Proof.
  intros tr.
  assert (Hinv : trace_inv (run cfg evs (init connected0 dir0))).
  { apply reachable_trace. now exists connected0, dir0, evs. }
  destruct Hinv as [Hfresh Htasks]. fold tr in Hfresh, Htasks.
  assert (Htask : forall e, e ∈ tr -> owner e = Some tid ->
            exists t, task_inv tid t tr).
  { intros e He Ho. specialize (Hfresh _ _ He Ho).
    destruct (lookup_lt_is_Some_2 _ _ Hfresh) as [t Ht]. eauto. }
  split.
  - intros i fn sv c j fn' sv' H.
    destruct (Htask _ H eq_refl) as [t I].
    apply (inv_push_before _ _ _ I).
    + now apply (inv_push_file _ _ _ I) in H.
    + simpl. apply Nat.eqb_refl.
  - intros i fn sv k H.
    destruct (Htask _ H eq_refl) as [t I].
    pose proof (inv_ram_idx _ _ _ I _ _ _ H) as Hi.
    split; apply (inv_ram_before _ _ _ I); try exact Hi; simpl;
      apply Nat.eqb_refl.
Qed.

End TraceFacts.

(** ** The build-end callback: waiting for the client *)

Section SuspendFacts.

Import Hooks Deploy Order.

Variable cfg : Config.



Lemma on_task_frame j f s :
  dir (on_task j f s) = dir s /\ listeners (on_task j f s) = listeners s.
Proof.
  unfold on_task. destruct (tasks s !! j) as [t|]; [|auto].
  destruct (f t) as [[t' X] rel]. auto.
Qed.

Lemma resume_all_frame l s :
  let s' := foldl (fun st k => on_task k (resume k) st) s l in
  dir s' = dir s /\ listeners s' = listeners s.
Proof.
  revert s. induction l as [|k l IH]; intros s; simpl; [auto|].
  destruct (IH (on_task k (resume k) s)) as [-> ->]. apply on_task_frame.
Qed.







(** The directory changes only by being removed or written. *)
Lemma step_keeps_dir e s : keeps_dir e = true -> dir (step cfg e s) = dir s.
Proof.
  intros He. destruct e; simpl; try reflexivity; try discriminate;
    try apply on_task_frame.
  - unfold onStart, emit. now destruct (dir s).
  - unfold rm_done. destruct (removing s); [reflexivity|].
    destruct ok; [discriminate | reflexivity].
  - unfold onEnd. destruct (negb (Nat.eqb (length (errors r)) 0)); [reflexivity|].
    destruct (queued s); [reflexivity|]. now destruct (negb (connected s)).
  - destruct (client_connected_foldl cfg s) as (l & _ & ->).
    now rewrite (proj1 (resume_all_frame _ _)).
Qed.

Lemma run_keeps_dir evs s :
  forallb keeps_dir evs = true -> dir (run cfg evs s) = dir s.
Proof.
  revert s. induction evs as [|e evs IH]; intros s H; [reflexivity|].
  simpl in H. apply andb_prop in H as [He H].
  simpl. rewrite IH by exact H. now apply step_keeps_dir.
Qed.


(** *** What is pushed *)
















End SuspendFacts.

Section SuspendExamples.

Import Hooks Deploy Order Sample.



Lemma C8_barriers_witness :
  before
    (trace (run (cfg [async])
              [OnEnd clean; ReaddirDone 0; ReadFileDone 0 0 (Some "export {}");
               PushFileDone 0 0 true; CalculateRAMDone 0 0 true]
              (init true (Some out_a))))
    (PushFileSettled 0 0 true) (CalculateRAM 0 0 "a.js" "home").
Proof.
  refine (proj1 (C8_barriers_between_stages (cfg [async]) true (Some out_a)
                   [OnEnd clean; ReaddirDone 0; ReadFileDone 0 0 (Some "export {}");
                    PushFileDone 0 0 true; CalculateRAMDone 0 0 true] 0)
            0 "a.js" "home" "export {}" 0 "a.js" "home" _).
  cbv. repeat constructor.
Defined.

Example barriers_trace :
  trace (run (cfg [async])
           [OnEnd clean; ReaddirDone 0; ReadFileDone 0 0 (Some "export {}");
            PushFileDone 0 0 true; CalculateRAMDone 0 0 true]
           (init true (Some out_a)))
  = [Readdir 0; ReadFile 0 0 "dist/home/a.js";
     PushFile 0 0 "a.js" "home" "export {}"; PushFileSettled 0 0 true;
     CalculateRAM 0 0 "a.js" "home"; CalculateRAMSettled 0 0 true;
     Dispatch afterBuild (Some 0); Hook afterBuild (Some 0) 0].
Proof. reflexivity. Qed.

End SuspendExamples.

(** * Further properties *)

(** ** The dispatch of hooks: where a throw ends it *)

Section DispatchFacts.

Import Hooks Dispatching.

Lemma implementers_cons (h : hook_name) (i : nat) (e : Extension)
    (exts : list Extension) :
  implementers h i (e :: exts)
  = (if implements h e then [i] else []) ++ implementers h (S i) exts.
Proof.
  unfold implementers. simpl. rewrite Nat.add_0_r. f_equal. f_equal.
  apply imap_ext. intros k x _. simpl.
  now replace (i + S k) with (S (i + k)) by lia.
Qed.

Lemma implementers_bound (h : hook_name) (i : nat) (exts : list Extension)
    (k : nat) :
  k ∈ implementers h i exts -> i <= k < i + length exts.
Proof.
  revert i. induction exts as [|e exts IH]; intros i H.
  - inversion H.
  - rewrite implementers_cons in H. apply elem_of_app in H as [H|H].
    + destruct (implements h e); [|inversion H].
      apply list_elem_of_singleton in H as ->. simpl. lia.
    + apply IH in H. simpl. lia.
Qed.

(** X1: [extensions.map(e => (e.h ?? (() => { }))(...))] calls the hooks in the
    order of the extensions and ends at the first one that throws: that one
    is the last to be called, and the array never reaches
    [Promise.allSettled]. *)
Theorem map_hooks_stops_at_first_throw (h : hook_name) (i : nat)
    (pre post : list Extension) (e : Extension) :
  Forall (fun x => x h <> Some Throws) pre ->
  e h = Some Throws ->
  map_hooks h i (pre ++ e :: post)
  = (implementers h i pre ++ [i + length pre], None)
  /\ forall k, k ∈ (map_hooks h i (pre ++ e :: post)).1 -> k <= i + length pre.
Proof.
  intros Hpre He.
  assert (E : map_hooks h i (pre ++ e :: post)
              = (implementers h i pre ++ [i + length pre], None)).
  { revert i. induction Hpre as [|x pre Hx _ IH]; intros i; simpl.
    - unfold call, implements. rewrite He. now rewrite Nat.add_0_r.
    - rewrite IH, implementers_cons. unfold call, implements.
      destruct (x h) as [[| |]|]; try contradiction; simpl;
        rewrite <- ?app_assoc; simpl; repeat f_equal; lia. }
  split; [exact E|].
  rewrite E. simpl. intros k Hk. apply elem_of_app in Hk as [Hk|Hk].
  - apply implementers_bound in Hk. lia.
  - apply list_elem_of_singleton in Hk. lia.
Qed.

Lemma map_hooks_stops_witness :
  map_hooks afterConnect 4
    ([fun _ => Some ReturnsPromise; fun _ => None]
       ++ (fun _ => Some Throws) :: [fun _ => Some Returns])
  = ([4; 6], None).
Proof.
  refine (proj1 (map_hooks_stops_at_first_throw afterConnect 4
                   [fun _ => Some ReturnsPromise; fun _ => None]
                   [fun _ => Some Returns] (fun _ => Some Throws) _ eq_refl)).
  repeat constructor; discriminate.
Defined.

(** X2: without a throw every extension that implements the hook is called,
    in order, and the array holds one element per extension. *)
Theorem map_hooks_calls_every_implementer (h : hook_name)
    (exts : list Extension) (i : nat) :
  Forall (fun e => e h <> Some Throws) exts ->
  exists arr,
    map_hooks h i exts = (implementers h i exts, Some arr)
    /\ length arr = length exts
    /\ forall k e, exts !! k = Some e ->
         arr !! k = Some (match e h with
                          | Some ReturnsPromise => Pending
                          | _ => Fulfilled
                          end).
Proof.
  revert i. induction exts as [|e exts IH]; intros i H.
  - exists []. repeat split. intros k e Hk. rewrite lookup_nil in Hk.
    discriminate.
  - inversion H as [|? ? He Hrest]; subst.
    destruct (IH (S i) Hrest) as (arr & E & Hlen & Hel).
    simpl. rewrite E, implementers_cons. unfold call, implements.
    destruct (e h) as [[| |]|] eqn:Eh; try contradiction;
      eexists; (split; [reflexivity|]); (split; [simpl; now rewrite Hlen|]);
      intros [|k] x Hk; simpl in *;
      try (injection Hk as <-; rewrite Eh; reflexivity); now apply Hel.
Qed.

Lemma map_hooks_calls_witness :
  exists arr,
    map_hooks beforeBuild 0 [fun _ => Some ReturnsPromise; fun _ => None]
    = ([0], Some arr) /\ arr = [Pending; Fulfilled].
Proof.
  destruct (map_hooks_calls_every_implementer beforeBuild
              [fun _ => Some ReturnsPromise; fun _ => None] 0)
    as (arr & E & _ & Hel).
  { repeat constructor; discriminate. }
  exists arr. split; [exact E|].
  cbv in E. now injection E as <-.
Defined.

End DispatchFacts.

(** ** The React packages: what is intercepted and what is not *)

Section ReactExact.

Import React.

(** X3: [onResolve] takes an import exactly when its path is [react] or
    [react-dom]: sub-paths such as [react-dom/client] stay with the
    bundler. [onLoad] answers exactly in the namespace [react] on these two
    paths, and there it never answers [undefined]. *)
Theorem react_interception_exact :
  (forall opts : Args,
      onResolve opts <> None <-> path opts = "react" \/ path opts = "react-dom")
  /\ (forall r : Resolved,
        onLoad r <> None
        <-> r_namespace r = "react"
            /\ (r_path r = "react" \/ r_path r = "react-dom")).
Proof.
  split.
  - intros opts. unfold onResolve.
    destruct (Regex.test filter (path opts)) eqn:E.
    + apply react_filter_spec in E. split; [auto | discriminate].
    + split; [congruence|]. intros H. apply react_filter_spec in H. congruence.
  - intros r. unfold onLoad, onLoad_callback.
    destruct (Regex.test filter (r_path r)) eqn:E; simpl.
    + apply react_filter_spec in E.
      destruct (String.eqb_spec (r_namespace r) "react") as [Hn|Hn].
      * split; [auto|]. intros _. destruct E as [-> | ->]; discriminate.
      * split; [congruence|]. intros [H _]. contradiction.
    + split; [congruence|]. intros [_ H]. apply react_filter_spec in H.
      congruence.
Qed.

End ReactExact.

(** ** The resolution of a whole output directory *)

Section LayoutFacts.

Import Resolver Layout Tree.


Lemma output_files_app (outdir : string) (l1 l2 : list Dirent.t) :
  output_files outdir (l1 ++ l2) = output_files outdir l1 ++ output_files outdir l2.
Proof. unfold output_files. now rewrite List.filter_app, !map_app. Qed.

Lemma join_slashed (d : string) (rest : list string) :
  join (d :: rest) = d +:+ slashed rest.
Proof.
  revert d. induction rest as [|r rest IH]; intros d.
  - simpl. induction d as [|c d IHd]; [reflexivity|].
    change (String c d = String c (d +:+ "")). now f_equal.
  - change (join (d :: r :: rest)) with (d +:+ "/" +:+ join (r :: rest)).
    now rewrite IH.
Qed.

Lemma slashed_app (l1 l2 : list string) :
  slashed (l1 ++ l2) = slashed l1 +:+ slashed l2.
Proof.
  induction l1 as [|s l1 IH]; [reflexivity|].
  simpl. rewrite IH. change ("/" +:+ ?x) with (String "/" x).
  change (String "/" ?x +:+ ?y) with (String "/" (x +:+ y)).
  now rewrite append_assoc.
Qed.

Lemma append_nil_r (s : string) : s +:+ "" = s.
Proof.
  induction s as [|c s IH]; [reflexivity|].
  change (String c (s +:+ "") = String c s). now f_equal.
Qed.

(** The path [fs.readdir] gives, with its separators turned into [/]. *)
Lemma parent_normalised (sep outdir : string) (dirs : list string) :
  sep = "/" \/ sep = "\" ->
  single_segment outdir = true ->
  Forall (fun d => single_segment d = true) dirs ->
  Js.replaceAll "\" "/" (parent sep outdir dirs) = outdir +:+ slashed dirs.
Proof.
  intros Hsep Hout Hdirs. unfold parent.
  assert (G : forall p acc,
            Js.replaceAll "\" "/" p = outdir +:+ slashed acc ->
            Js.replaceAll "\" "/" (fold_left (fun p d => p +:+ sep +:+ d) dirs p)
            = outdir +:+ slashed (acc ++ dirs)).
  { induction Hdirs as [|d dirs Hd _ IH]; intros p acc Hp; simpl.
    - now rewrite app_nil_r.
    - replace (acc ++ d :: dirs) with ((acc ++ [d]) ++ dirs)
        by (now rewrite <- app_assoc).
      apply IH. rewrite !replaceAll_app, Hp, slashed_app.
      rewrite (replaceAll_single_segment d Hd).
      replace (Js.replaceAll "\" "/" sep) with "/"
        by (destruct Hsep as [-> | ->]; reflexivity).
      simpl. now rewrite append_nil_r, append_assoc. }
  apply (G outdir []). simpl.
  rewrite append_nil_r. now apply replaceAll_single_segment.
Qed.

Lemma shortest_prefix_no_slash (d : string) :
  single_segment d = true ->
  Regex.shortest_prefix first_segment d = None.
Proof.
  induction d as [|c d IH]; intros H; [reflexivity|].
  simpl in H. apply andb_prop in H as [Hc Hd].
  change (Regex.shortest_prefix first_segment (String c d))
    with (Regex.shortest_prefix (Regex.deriv c first_segment) d).
  rewrite deriv_first_segment_plain by exact Hc. auto.
Qed.

Lemma split_first_segment (d rest : string) :
  single_segment d = true ->
  Js.first (Js.split "/" (d +:+ "/" +:+ rest)) = d
  /\ Js.first (Js.split "/" d) = d.
Proof.
  induction d as [|c d IH]; intros H.
  - split; reflexivity.
  - simpl in H. apply andb_prop in H as [Hc Hd].
    destruct (IH Hd) as [IH1 IH2].
    assert (Hne : Ascii.eqb c "/" = false).
    { unfold plain in Hc. apply andb_prop in Hc as [Hc _].
      apply andb_prop in Hc as [Hc _]. now destruct (Ascii.eqb c "/"). }
    change (String c d +:+ "/" +:+ rest) with (String c (d +:+ "/" +:+ rest)).
    unfold Js.first in *. simpl. rewrite Hne.
    split.
    + destruct (Js.split "/" (d +:+ "/" +:+ rest)); simpl in *; now subst.
    + destruct (Js.split "/" d); simpl in *; now subst.
Qed.

(** One regular file, wherever it lies below a one-segment [outdir]. *)
Lemma describe_located (sep outdir nm : string) (dirs : list string) :
  sep = "/" \/ sep = "\" ->
  single_segment outdir = true ->
  Forall (fun d => single_segment d = true) dirs ->
  describe outdir
    (rebase (Dirent.mk nm (parent sep outdir dirs) Dirent.RegularFile))
  = located outdir dirs nm.
Proof.
  intros Hsep Hout Hdirs. unfold rebase, describe. simpl.
  rewrite (parent_normalised sep outdir dirs Hsep Hout Hdirs).
  destruct dirs as [|d rest]; simpl.
  - rewrite append_nil_r.
    assert (E : Js.replace_prefix first_segment outdir = outdir).
    { unfold Js.replace_prefix.
      now rewrite (shortest_prefix_no_slash outdir Hout). }
    rewrite !E, (proj2 (split_first_segment outdir "" Hout)).
    now rewrite replace_prefix_first_segment.
  - inversion Hdirs as [|? ? Hd Hrest]; subst.
    rewrite (replace_prefix_first_segment outdir _ Hout).
    assert (Ej : forall l, join (l ++ [nm]) = EmptyString +:+ join (l ++ [nm]))
      by reflexivity.
    assert (Es : d +:+ slashed rest +:+ "/" +:+ nm = join ((d :: rest) ++ [nm])).
    { change ((d :: rest) ++ [nm]) with (d :: (rest ++ [nm])).
      rewrite join_slashed, slashed_app. simpl. now rewrite append_nil_r. }
    f_equal.
    + destruct rest as [|r rest]; simpl.
      * rewrite append_nil_r. apply (proj2 (split_first_segment d "" Hd)).
      * apply (proj1 (split_first_segment d _ Hd)).
    + rewrite append_assoc.
      change ((d :: rest) ++ [nm]) with (d :: (rest ++ [nm])) in Es.
      rewrite Es. destruct rest as [|r rest].
      * simpl. apply (replace_prefix_first_segment d nm Hd).
      * change (join (d :: (r :: rest) ++ [nm]))
          with (d +:+ "/" +:+ join ((r :: rest) ++ [nm])).
        apply (replace_prefix_first_segment d _ Hd).
    + rewrite append_assoc. now rewrite Es.
Qed.



(** The entries of one directory. *)
Lemma entry_here (sep outdir : string) (dirs : list string)
    (children : list node) :
  sep = "/" \/ sep = "\" ->
  single_segment outdir = true ->
  Forall (fun d => single_segment d = true) dirs ->
  output_files outdir (map (entry (parent sep outdir dirs)) children)
  = here outdir dirs children.
Proof.
  intros Hsep Hout Hdirs. induction children as [|c children IH];
    [reflexivity|].
  change (map (entry (parent sep outdir dirs)) (c :: children))
    with ([entry (parent sep outdir dirs) c]
          ++ map (entry (parent sep outdir dirs)) children).
  rewrite output_files_app, IH. destruct c as [nm|nm sub].
  - unfold here. simpl. f_equal. unfold output_files. simpl.
    now apply describe_located.
  - reflexivity.
Qed.




(** X5: under an output directory of one segment, a file that lies in the
    output directory itself, outside every server directory, is addressed
    to a server named like the output directory, and the path it is to be
    read from repeats that name, whatever else the directory holds and
    whatever [path.join] does. *)
Theorem root_file_takes_outdir_as_server
    (path_join : string -> string -> string) (outdir nm : string)
    (tree : list node) (ents : list Dirent.t) :
  single_segment outdir = true ->
  File nm ∈ tree ->
  readdir path_join outdir (Some tree) = Some ents ->
  {| server := outdir; filename := nm;
     path := outdir +:+ "/" +:+ outdir +:+ "/" +:+ nm |}
    ∈ output_files outdir ents.
Proof.
  intros Hout Hin [= <-]. rewrite output_files_app.
  apply elem_of_app. left.
  pose proof (entry_here "/" outdir [] tree (or_introl eq_refl) Hout
                (List.Forall_nil _)) as E.
  change (parent "/" outdir []) with outdir in E. rewrite E.
  unfold here. apply list_elem_of_In, in_flat_map.
  exists (File nm). split; [now apply list_elem_of_In | now left].
Qed.

Lemma root_file_witness :
  {| server := "build"; filename := "main.js";
     path := "build/build/main.js" |}
    ∈ [ {| server := "build"; filename := "main.js";
           path := "build/build/main.js" |};
        {| server := "home"; filename := "a.js";
           path := "build/home/a.js" |} ].
Proof.
  refine (root_file_takes_outdir_as_server (joined "/") "build" "main.js"
            [Dir "home" [File "a.js"]; File "main.js"] _ eq_refl _ eq_refl).
  right. left.
Defined.

End LayoutFacts.

(** ** The build-end callback: a flag left up *)

Section StuckFacts.

Import Hooks Deploy Order Cycle.

Variable cfg : Config.

Lemma all_done_in_flight s : all_done (tasks s) <-> in_flight s = 0.
Proof.
  unfold all_done, in_flight. split.
  - intros H. rewrite filter_none; [reflexivity|].
    intros x Hx. rewrite Forall_forall in H. auto.
  - intros H. apply Forall_forall. intros x Hx.
    now apply (in_flight_zero s x H).
Qed.

Lemma on_task_stuck j f s :
  gate_safe f ->
  queued s = true -> all_done (tasks s) ->
  queued (on_task j f s) = true
  /\ all_done (tasks (on_task j f s))
  /\ length (tasks (on_task j f s)) = length (tasks s).
Proof.
  intros Hf Hq Hd. unfold on_task.
  destruct (tasks s !! j) as [t|] eqn:Ej; [|auto].
  destruct (Hf t) as [Hkeep _].
  destruct (f t) as [[t' X] rel]. simpl in *.
  assert (Ht : holding t = false).
  { unfold all_done in Hd. rewrite Forall_forall in Hd. apply Hd.
    apply list_elem_of_lookup. eauto. }
  destruct (Hkeep Ht) as [Ht' ->].
  split; [exact Hq|]. split; [|apply length_insert].
  apply Forall_insert; assumption.
Qed.

Lemma resume_all_stuck l s :
  queued s = true -> all_done (tasks s) ->
  let s' := foldl (fun st k => on_task k (resume k) st) s l in
  queued s' = true /\ all_done (tasks s')
  /\ length (tasks s') = length (tasks s).
Proof.
  revert s. induction l as [|k l IH]; intros s Hq Hd; simpl; [auto|].
  destruct (on_task_stuck k (resume k) s (resume_gate_safe k) Hq Hd)
    as (Hq' & Hd' & <-).
  now apply IH.
Qed.

Lemma step_stuck e s :
  queued s = true -> all_done (tasks s) ->
  queued (step cfg e s) = true
  /\ all_done (tasks (step cfg e s))
  /\ length (tasks (step cfg e s)) = length (tasks s).
Proof.
  intros Hq Hd. destruct e; simpl; auto.
  - unfold onStart, emit. destruct (dir s); auto.
  - unfold rm_done. destruct (removing s); [auto|]. destruct ok; auto.
  - change (onEnd r s) with (step cfg (OnEnd r) s).
    rewrite (onEnd_queued cfg) by exact Hq. auto.
  - destruct (client_connected_foldl cfg s) as (l & _ & ->).
    apply (resume_all_stuck l
             (mkState (queued s) true (dir s) (removing s) (listeners s)
                (tasks s) (trace s ++ (dispatch cfg afterConnect None).1)));
      assumption.
  - apply on_task_stuck; [apply readdir_done_gate_safe | |]; assumption.
  - apply on_task_stuck; [apply readFile_done_gate_safe | |]; assumption.
  - apply on_task_stuck; [apply pushFile_done_gate_safe | |]; assumption.
  - apply on_task_stuck; [apply calculateRAM_done_gate_safe | |]; assumption.
  - apply on_task_stuck; [apply hook_done_gate_safe | |]; assumption.
Qed.

(** X6: once the flag is up while no push sequence is under way, it stays up
    for good: whatever happens afterwards (builds, connections,
    settlements), no build end is accepted any more, and no task is
    added. *)
Theorem flag_left_up_is_permanent (s : State) (evs : list Event) :
  queued s = true -> in_flight s = 0 ->
  let s' := run cfg evs s in
  queued s' = true
  /\ in_flight s' = 0
  /\ length (tasks s') = length (tasks s)
  /\ forall r, step cfg (OnEnd r) s' = s'.
Proof.
  intros Hq Hidle. apply all_done_in_flight in Hidle.
  assert (G : queued (run cfg evs s) = true
              /\ all_done (tasks (run cfg evs s))
              /\ length (tasks (run cfg evs s)) = length (tasks s)).
  { revert s Hq Hidle. induction evs as [|e evs IH]; intros s Hq Hd; [auto|].
    destruct (step_stuck e s Hq Hd) as (Hq' & Hd' & <-).
    simpl. now apply IH. }
  destruct G as (Hq' & Hd' & Hlen). simpl.
  split; [exact Hq'|]. split; [now apply all_done_in_flight|].
  split; [exact Hlen|]. intros r. now apply (onEnd_queued cfg).
Qed.

End StuckFacts.

Section StuckExamples.

Import Hooks Deploy Order Sample.

Lemma flag_left_up_witness :
  let s' := run (cfg [])
              [OnStart; RmDone true; Written out_a; ClientConnected;
               OnEnd clean; Disconnected; OnEnd clean]
              (run (cfg []) [OnEnd clean; ClientConnected; ReaddirDone 0]
                 (init false (Some []))) in
  queued s' = true /\ length (tasks s') = 1.
Proof.
  destruct (flag_left_up_is_permanent (cfg [])
              (run (cfg []) [OnEnd clean; ClientConnected; ReaddirDone 0]
                 (init false (Some [])))
              [OnStart; RmDone true; Written out_a; ClientConnected;
               OnEnd clean; Disconnected; OnEnd clean]
              eq_refl eq_refl) as (H1 & _ & H2 & _).
  exact (conj H1 H2).
Defined.

End StuckExamples.

(** ** The build-end callback: failures and repetitions *)

Section FailureFacts.

Import Hooks Deploy Order Cycle.

Variable cfg : Config.

Local Ltac mem2_X H :=
  first
    [ apply elem_of_cons in H as [H|H];
      [ first [discriminate H | injection H as ?; subst | subst] | mem2_X H ]
    | apply elem_of_lookup_imap_1 in H as (? & ? & H & ?);
      first [discriminate H | injection H as ?; subst | subst]
    | apply elem_of_map in H as (? & H & ?);
      first [discriminate H | injection H as ?; subst | subst]
    | solve [inversion H] ].

Local Ltac mem2 H := apply elem_of_app in H as [H|H]; [|mem2_X H].

Local Ltac none2 := let e := fresh "e" in let H := fresh "H" in
  intros e H; mem2_X H; simpl; try reflexivity; try congruence.

Lemma is_push_owner tid i e : is_push tid i e = true -> owner e = Some tid.
Proof.
  destruct e; simpl; try discriminate. intros H.
  apply andb_prop in H as [H _]. apply Nat.eqb_eq in H. now subst.
Qed.

Lemma filter_app_none (cls : Effect -> bool) (tr X : list Effect) :
  (forall e, e ∈ X -> cls e = false) ->
  List.filter cls (tr ++ X) = List.filter cls tr.
Proof.
  intros H. now rewrite List.filter_app, (filter_none cls X H), app_nil_r.
Qed.

Lemma pending_wrapper_stage tid t tr i w :
  task_inv2 tid t tr -> pushes t !! i = Some w -> w <> Pushed ->
  (at_ t = AwaitPushes \/ at_ t = Threw) /\ costs t = [].
Proof.
  intros I Hi Hw.
  assert (Hnot : forallb is_pushed (pushes t) = true -> False).
  { intros H. pose proof (forallb_lookup _ _ _ _ H Hi). now destruct w. }
  split.
  - destruct (at_ t) eqn:E; auto; exfalso; apply Hnot;
      apply (i2_all_pushed _ _ _ I); congruence.
  - destruct (costs t) eqn:E; [reflexivity|]. exfalso. apply Hnot.
    apply (i2_costs_pushed _ _ _ I). congruence.
Qed.

Lemma pending_cost_stage tid t tr i p :
  task_inv2 tid t tr -> costs t !! i = Some p -> p <> Fulfilled ->
  at_ t = AwaitCosts \/ at_ t = Threw.
Proof.
  intros I Hi Hp.
  assert (Hnot : all (costs t) = true -> False).
  { intros H. pose proof (forallb_lookup _ _ _ _ H Hi). now destruct p. }
  destruct (at_ t) eqn:E; auto; exfalso; apply Hnot;
    apply (i2_all_fulfilled _ _ _ I); congruence.
Qed.

Lemma throw_at_threw st t :
  at_ t = st \/ at_ t = Threw -> at_ (throw_at st t) = Threw.
Proof.
  unfold throw_at. intros [H|H].
  - rewrite H. now destruct st.
  - destruct (stage_eqb (at_ t) st); [reflexivity | exact H].
Qed.

Lemma throw_at_lists st t :
  files (throw_at st t) = files t /\ pushes (throw_at st t) = pushes t
  /\ costs (throw_at st t) = costs t.
Proof. unfold throw_at. now destruct (stage_eqb (at_ t) st). Qed.

Lemma task_inv2_foreign tid t tr X :
  task_inv2 tid t tr -> (forall e, e ∈ X -> owner e <> Some tid) ->
  task_inv2 tid t (tr ++ X).
Proof.
  intros I HX.
  assert (Hin : forall e, owner e = Some tid -> e ∈ tr ++ X -> e ∈ tr).
  { intros e Ho He. apply elem_of_app in He as [He|He]; [exact He|].
    exfalso. exact (HX e He Ho). }
  destruct I. constructor; try assumption.
  - intros i. rewrite filter_app_none; [apply i2_push_once0|].
    intros e He. destruct (is_push tid i e) eqn:E; [|reflexivity].
    exfalso. exact (HX e He (is_push_owner _ _ _ E)).
  - intros i H. apply i2_push_failed0. now apply Hin.
  - intros i H. apply i2_cost_failed0. now apply Hin.
  - intros b Hb Hab. apply (i2_hooks_costs0 b); [|exact Hab].
    apply Hin; [now apply is_afterBuild_owner | exact Hb].
Qed.

Lemma task_inv2_fresh tid tr st :
  (forall e, e ∈ tr -> owner e <> Some tid) ->
  st = AwaitClient \/ st = AwaitReaddir ->
  task_inv2 tid (mkTask st [] [] [] []) tr.
Proof.
  intros Hfresh Hst. constructor; simpl.
  - intros i. rewrite (filter_none (is_push tid i)); [simpl; auto with lia|].
    intros e He. destruct (is_push tid i e) eqn:E; [|reflexivity].
    exfalso. exact (Hfresh e He (is_push_owner _ _ _ E)).
  - reflexivity.
  - reflexivity.
  - intros i H. exfalso. exact (Hfresh _ H eq_refl).
  - intros i H. rewrite lookup_nil in H. discriminate.
  - reflexivity.
  - intros i H. exfalso. exact (Hfresh _ H eq_refl).
  - intros i H. rewrite lookup_nil in H. discriminate.
  - intros b Hb Hab. exfalso.
    exact (Hfresh _ Hb (is_afterBuild_owner _ _ Hab)).
Qed.

(** The callback ends or goes on to the hooks: only the stage changes. *)
Lemma task_inv2_set_at tid t tr st :
  task_inv2 tid t tr ->
  (st = Threw \/ (at_ t <> AwaitPushes /\ at_ t <> AwaitCosts
                  /\ at_ t <> Threw)) ->
  task_inv2 tid (set_at st t) tr.
Proof.
  intros I Hst. destruct I. constructor; simpl; try assumption.
  - intros H1 H2. destruct Hst as [->|(A & B & C)]; [contradiction|auto].
  - intros i Hi. destruct Hst as [->|(A & B & C)]; [reflexivity|].
    specialize (i2_failed_threw0 i Hi). contradiction.
  - intros H1 H2. destruct Hst as [->|(A & B & C)]; [contradiction|auto].
  - intros i Hi. destruct Hst as [->|(A & B & C)]; [reflexivity|].
    specialize (i2_rejected_threw0 i Hi). contradiction.
Qed.

Lemma resume_local2 tid : local_ok2 tid (resume tid).
Proof.
  intros t tr I1 I. unfold resume.
  destruct (at_ t) eqn:Hat; simpl; try (rewrite app_nil_r; exact I).
  destruct I. constructor; simpl.
  - intros i. rewrite filter_app_none by none2. apply i2_push_once0.
  - intros _ _. apply i2_all_pushed0; congruence.
  - assumption.
  - intros i H. mem2 H. auto.
  - intros i H. specialize (i2_failed_threw0 i H). congruence.
  - intros _ _. apply i2_all_fulfilled0; congruence.
  - intros i H. mem2 H. auto.
  - intros i H. specialize (i2_rejected_threw0 i H). congruence.
  - intros b H Hab. mem2 H; [eauto | discriminate].
Qed.

Lemma readdir_done_local2 tid r : local_ok2 tid (readdir_done cfg tid r).
Proof.
  intros t tr I1 I. unfold readdir_done.
  destruct (at_ t) eqn:Hat; simpl; try (rewrite app_nil_r; exact I).
  destruct r as [ents|]; simpl.
  2:{ rewrite app_nil_r. apply task_inv2_set_at; [exact I | now left]. }
  destruct (Resolver.output_files (outdir cfg) ents) as [|f fs] eqn:Hfs; simpl.
  { rewrite app_nil_r. apply task_inv2_set_at; [exact I|].
    right. rewrite Hat. repeat split; discriminate. }
  destruct (inv_early _ _ _ I1) as [Hp Hc]; [now right|].
  assert (Hnohook : forall b, b ∈ tr -> is_afterBuild tid b = false).
  { apply (inv_no_hooks _ _ _ I1). unfold holding. now rewrite Hat. }
  destruct I. constructor; simpl.
  - intros i. rewrite filter_app_none by none2.
    destruct (i2_push_once0 i) as [_ H0].
    rewrite H0 by (right; rewrite Hp; apply lookup_nil). simpl. auto with lia.
  - congruence.
  - congruence.
  - intros i H. mem2 H. apply i2_push_failed0 in H. rewrite Hp in H.
    discriminate.
  - intros [|i] H; simpl in H; [discriminate|].
    apply lookup_map_const in H. discriminate.
  - reflexivity.
  - intros i H. mem2 H. apply i2_cost_failed0 in H. rewrite Hc in H.
    discriminate.
  - intros i H. rewrite lookup_nil in H. discriminate.
  - intros b H Hab. apply elem_of_app in H as [H|H].
    + rewrite (Hnohook b H) in Hab. discriminate.
    + exfalso. revert Hab. mem2_X H; discriminate.
Qed.


Lemma is_push_self tid i fn sv c i' :
  is_push tid i' (PushFile tid i fn sv c) = Nat.eqb i i'.
Proof. simpl. now rewrite Nat.eqb_refl. Qed.

Lemma readFile_done_local2 tid i content : local_ok2 tid (readFile_done tid i content).
Proof.
  intros t tr I1 I. unfold readFile_done.
  destruct (pushes t !! i) as [[| | |]|] eqn:Hi; simpl;
    try (rewrite app_nil_r; exact I).
  destruct (files t !! i) as [f|] eqn:Hf; simpl;
    try (rewrite app_nil_r; exact I).
  pose proof (lookup_lt_Some _ _ _ Hi) as Hlt.
  destruct (pending_wrapper_stage _ _ _ _ _ I Hi) as [Hst Hc]; [discriminate|].
  assert (Hnotall : forall w, w <> Pushed ->
            forallb is_pushed (<[i:=w]> (pushes t)) = true -> False).
  { intros w Hw H.
    pose proof (forallb_lookup _ _ _ _ H (list_lookup_insert_eq _ _ w Hlt)).
    now destruct w. }
  destruct content as [c|]; simpl.
  - destruct I. constructor; simpl.
    + intros i'. rewrite List.filter_app, length_app. simpl.
      rewrite Nat.eqb_refl. simpl. destruct (i2_push_once0 i') as [Hle H0].
      destruct (Nat.eqb_spec i i') as [<-|Hne].
      * rewrite H0 by (now left). simpl. split; [lia|].
        rewrite list_lookup_insert_eq by exact Hlt. intros [H|H]; discriminate.
      * simpl. rewrite Nat.add_0_r, app_nil_r.
        rewrite list_lookup_insert_ne by exact Hne. auto.
    + intros A B. exfalso. destruct Hst; contradiction.
    + intros A. congruence.
    + intros i' H. mem2 H. specialize (i2_push_failed0 i' H).
      rewrite list_lookup_insert_ne; [exact i2_push_failed0 | congruence].
    + intros i' H. apply (i2_failed_threw0 i').
      destruct (decide (i = i')) as [<-|Hne].
      * rewrite list_lookup_insert_eq in H by exact Hlt. discriminate.
      * now rewrite list_lookup_insert_ne in H.
    + assumption.
    + intros i' H. mem2 H. auto.
    + assumption.
    + intros b H Hab. mem2 H; [|discriminate].
      destruct (i2_hooks_costs0 b H Hab) as [_ Hall].
      pose proof (forallb_lookup _ _ _ _ Hall Hi). discriminate.
  - rewrite app_nil_r.
    pose proof (throw_at_threw AwaitPushes
                  (set_pushes (<[i:=Failed]> (pushes t)) t) Hst) as Hthrew.
    destruct (throw_at_lists AwaitPushes
                (set_pushes (<[i:=Failed]> (pushes t)) t)) as (Ef & Ep & Ec).
    simpl in Ef, Ep, Ec.
    destruct I. constructor; rewrite ?Ef, ?Ep, ?Ec, ?Hthrew.
    + intros i'. destruct (i2_push_once0 i') as [Hle H0]. split; [exact Hle|].
      destruct (decide (i = i')) as [<-|Hne].
      * intros _. apply H0. now left.
      * now rewrite list_lookup_insert_ne.
    + congruence.
    + intros A. congruence.
    + intros i' H. specialize (i2_push_failed0 i' H).
      rewrite list_lookup_insert_ne; [exact i2_push_failed0 | congruence].
    + reflexivity.
    + congruence.
    + assumption.
    + reflexivity.
    + intros b H Hab. destruct (i2_hooks_costs0 b H Hab) as [_ Hall].
      pose proof (forallb_lookup _ _ _ _ Hall Hi). discriminate.
Qed.


Lemma pushFile_done_local2 tid i ok : local_ok2 tid (pushFile_done tid i ok).
Proof.
  intros t tr I1 I. unfold pushFile_done.
  destruct (pushes t !! i) as [[| | |]|] eqn:Hi; simpl;
    try (rewrite app_nil_r; exact I).
  pose proof (lookup_lt_Some _ _ _ Hi) as Hlt.
  destruct (pending_wrapper_stage _ _ _ _ _ I Hi) as [Hst Hc]; [discriminate|].
  assert (Hnohook : forall b, b ∈ tr -> is_afterBuild tid b = true -> False).
  { intros b Hb Hab. destruct (i2_hooks_costs _ _ _ I b Hb Hab) as [_ Hall].
    pose proof (forallb_lookup _ _ _ _ Hall Hi). discriminate. }
  assert (Hpo : forall X w,
            (forall e i', e ∈ X -> is_push tid i' e = false) -> w <> Reading ->
            forall i',
              length (List.filter (is_push tid i') (tr ++ X)) <= 1
              /\ (<[i:=w]> (pushes t) !! i' = Some Reading
                  \/ <[i:=w]> (pushes t) !! i' = None ->
                  List.filter (is_push tid i') (tr ++ X) = [])).
  { intros X w HX Hw i'. rewrite filter_app_none by (intros e He; eauto).
    destruct (i2_push_once _ _ _ I i') as [Hle H0]. split; [exact Hle|].
    destruct (decide (i = i')) as [<-|Hne].
    - rewrite list_lookup_insert_eq by exact Hlt.
      intros [H|H]; [congruence | discriminate].
    - now rewrite list_lookup_insert_ne. }
  assert (Hfail : forall w i', <[i:=w]> (pushes t) !! i' = Some Failed ->
            w <> Failed -> pushes t !! i' = Some Failed).
  { intros w i' H Hw. destruct (decide (i = i')) as [<-|Hne].
    - rewrite list_lookup_insert_eq in H by exact Hlt. congruence.
    - now rewrite list_lookup_insert_ne in H. }
  assert (Hold : forall w i', pushes t !! i' = Some Failed ->
            <[i:=w]> (pushes t) !! i' = Some Failed).
  { intros w i' H. rewrite list_lookup_insert_ne; [exact H | congruence]. }
  destruct ok; simpl.
  - destruct (stage_eqb (at_ t) AwaitPushes
              && forallb is_pushed (<[i:=Pushed]> (pushes t))) eqn:E; simpl.
    + apply andb_prop in E as [Hat Hall].
      assert (Hnofail : forall i', <[i:=Pushed]> (pushes t) !! i' = Some Failed ->
                False).
      { intros i' H. pose proof (forallb_lookup _ _ _ _ Hall H). discriminate. }
      destruct I. constructor; simpl.
      * apply Hpo; [|discriminate]. intros e i' He. revert e He. none2.
      * auto.
      * auto.
      * intros i' H. mem2 H. apply Hold. auto.
      * intros i' H. exfalso. eauto.
      * congruence.
      * intros i' H. mem2 H. apply i2_cost_failed0 in H. rewrite Hc in H.
        discriminate.
      * intros i' H. apply lookup_map_const in H. discriminate.
      * intros b H Hab. exfalso. apply elem_of_app in H as [H|H]; [eauto|].
        revert Hab. mem2_X H; discriminate.
    + destruct I. constructor; simpl.
      * apply Hpo; [|discriminate]. intros e i' He. revert e He. none2.
      * intros A B. exfalso. destruct Hst; contradiction.
      * congruence.
      * intros i' H. mem2 H. apply Hold. auto.
      * intros i' H. apply i2_failed_threw0 with i'.
        apply (Hfail Pushed); [exact H | discriminate].
      * assumption.
      * intros i' H. mem2 H. auto.
      * assumption.
      * intros b H Hab. exfalso. mem2 H; [eauto | discriminate].
  - pose proof (throw_at_threw AwaitPushes
                  (set_pushes (<[i:=Failed]> (pushes t)) t) Hst) as Hthrew.
    destruct (throw_at_lists AwaitPushes
                (set_pushes (<[i:=Failed]> (pushes t)) t)) as (Ef & Ep & Ec).
    simpl in Ef, Ep, Ec.
    destruct I. constructor; rewrite ?Ef, ?Ep, ?Ec, ?Hthrew.
    + apply Hpo; [|discriminate]. intros e i' He. revert e He. none2.
    + congruence.
    + congruence.
    + intros i' H. mem2 H; [apply Hold; auto|].
      now apply list_lookup_insert_eq.
    + reflexivity.
    + congruence.
    + intros i' H. mem2 H. auto.
    + reflexivity.
    + intros b H Hab. exfalso. mem2 H; [eauto | discriminate].
Qed.


Lemma dispatch_effects_afterBuild tid e :
  e ∈ (dispatch cfg afterBuild (Some tid)).1 ->
  e = Dispatch afterBuild (Some tid) \/ exists k, e = Hook afterBuild (Some tid) k.
Proof.
  unfold dispatch.
  destruct (map_hooks afterBuild 0 (extensions cfg)) as [called arr]. simpl.
  intros H. mem2_X H; eauto.
Qed.

Lemma calculateRAM_done_local2 tid i ok :
  local_ok2 tid (calculateRAM_done cfg tid i ok).
Proof.
  intros t tr I1 I. unfold calculateRAM_done.
  destruct (costs t !! i) as [[| |]|] eqn:Hi; simpl;
    try (rewrite app_nil_r; exact I).
  pose proof (lookup_lt_Some _ _ _ Hi) as Hlt.
  destruct (pending_cost_stage _ _ _ _ _ I Hi) as [Hst|Hst]; [discriminate| |].
  2:{ (* the callback has thrown already *)
      assert (Hno : forall b, b ∈ tr -> is_afterBuild tid b = true -> False).
      { intros b Hb Hab. destruct (i2_hooks_costs _ _ _ I b Hb Hab) as [Hall _].
        pose proof (forallb_lookup _ _ _ _ Hall Hi). discriminate. }
      assert (G : forall p X,
                (forall e, e ∈ X -> e = CalculateRAMSettled tid i ok) ->
                (ok = false -> p = Rejected) -> p <> Pending ->
                task_inv2 tid (set_costs (<[i:=p]> (costs t)) t) (tr ++ X)).
      { intros p X HX Hp Hpp. destruct I. constructor; simpl.
        - intros i'. rewrite filter_app_none; [apply i2_push_once0|].
          intros e He. now rewrite (HX e He).
        - congruence.
        - intros _. apply i2_costs_pushed0. intros Hnil. rewrite Hnil in Hi.
          discriminate.
        - intros i' H. apply elem_of_app in H as [H|H]; [auto|].
          apply HX in H. discriminate.
        - assumption.
        - congruence.
        - intros i' H. apply elem_of_app in H as [H|H].
          + specialize (i2_cost_failed0 i' H).
            rewrite list_lookup_insert_ne; [assumption | congruence].
          + apply HX in H. injection H as E1 E2. rewrite E1.
            rewrite (Hp (eq_sym E2)). now apply list_lookup_insert_eq.
        - intros i' _. exact Hst.
        - intros b H Hab. exfalso. apply elem_of_app in H as [H|H]; [eauto|].
          apply HX in H. subst b. discriminate. }
      assert (Est : stage_eqb (at_ t) AwaitCosts = false) by (now rewrite Hst).
      destruct ok; simpl; rewrite ?Est; simpl.
      - apply G; [|discriminate|discriminate].
        intros e He. now apply list_elem_of_singleton in He.
      - unfold throw_at. simpl. rewrite Est.
        apply G; [|auto|discriminate].
        intros e He. now apply list_elem_of_singleton in He. }
  assert (Hpushed : forallb is_pushed (pushes t) = true).
  { apply (i2_costs_pushed _ _ _ I). intros Hnil. rewrite Hnil in Hi.
    discriminate. }
  assert (Hnohook : forall b, b ∈ tr -> is_afterBuild tid b = false).
  { apply (inv_no_hooks _ _ _ I1). unfold holding. now rewrite Hst. }
  assert (Hnofail : forall i', pushes t !! i' = Some Failed -> False).
  { intros i' H. pose proof (forallb_lookup _ _ _ _ Hpushed H). discriminate. }
  assert (Hrej : forall p i', <[i:=p]> (costs t) !! i' = Some Rejected ->
            p <> Rejected -> costs t !! i' = Some Rejected).
  { intros p i' H Hp. destruct (decide (i = i')) as [<-|Hne].
    - rewrite list_lookup_insert_eq in H by exact Hlt. congruence.
    - now rewrite list_lookup_insert_ne in H. }
  assert (Hold : forall p i', costs t !! i' = Some Rejected ->
            <[i:=p]> (costs t) !! i' = Some Rejected).
  { intros p i' H. rewrite list_lookup_insert_ne; [exact H | congruence]. }
  assert (Hnorej : forall i', costs t !! i' = Some Rejected -> False).
  { intros i' H. pose proof (i2_rejected_threw _ _ _ I i' H). congruence. }
  destruct ok; simpl.
  - rewrite Hst. simpl.
    destruct (all (<[i:=Fulfilled]> (costs t))) eqn:Hall; simpl.
    + pose proof (dispatch_effects_afterBuild tid) as Heffs.
      destruct (dispatch cfg afterBuild (Some tid)) as [effs arr]. simpl in *.
      assert (Hlists : forall t',
                t' = match arr with
                     | Some ps =>
                         set_hooks ps
                           (set_at (if allSettled ps then Returned else AwaitHooks)
                              (set_costs (<[i:=Fulfilled]> (costs t)) t))
                     | None => set_at Threw (set_costs (<[i:=Fulfilled]> (costs t)) t)
                     end ->
                pushes t' = pushes t /\ costs t' = <[i:=Fulfilled]> (costs t)).
      { intros t' ->. now destruct arr. }
      destruct (Hlists _ eq_refl) as [Ep Ec].
      destruct I. constructor; rewrite ?Ep, ?Ec.
      * intros i'. rewrite filter_app_none; [apply i2_push_once0|].
        intros e He. apply elem_of_cons in He as [->|He]; [reflexivity|].
        destruct (Heffs e He) as [->|[k ->]]; reflexivity.
      * auto.
      * auto.
      * intros i' H. apply elem_of_app in H as [H|H]; [auto|].
        apply elem_of_cons in H as [H|H]; [discriminate|].
        destruct (Heffs _ H) as [E|[k E]]; discriminate.
      * intros i' H. exfalso. eauto.
      * auto.
      * intros i' H. exfalso. apply elem_of_app in H as [H|H].
        -- apply i2_cost_failed0 in H. eauto.
        -- apply elem_of_cons in H as [H|H]; [discriminate|].
           destruct (Heffs _ H) as [E|[k E]]; discriminate.
      * intros i' H. exfalso.
        pose proof (forallb_lookup _ _ _ _ Hall H). discriminate.
      * auto.
    + destruct I. constructor; simpl.
      * intros i'. rewrite filter_app_none by none2. apply i2_push_once0.
      * auto.
      * auto.
      * intros i' H. mem2 H. auto.
      * assumption.
      * intros A B. congruence.
      * intros i' H. mem2 H. apply Hold. auto.
      * intros i' H. exfalso. apply (Hnorej i').
        apply (Hrej Fulfilled); [exact H | discriminate].
      * intros b H Hab. exfalso. mem2 H; [|discriminate].
        rewrite (Hnohook b H) in Hab. discriminate.
  - pose proof (throw_at_threw AwaitCosts
                  (set_costs (<[i:=Rejected]> (costs t)) t) (or_introl Hst))
      as Hthrew.
    destruct (throw_at_lists AwaitCosts
                (set_costs (<[i:=Rejected]> (costs t)) t)) as (Ef & Ep & Ec).
    simpl in Ef, Ep, Ec.
    destruct I. constructor; rewrite ?Ef, ?Ep, ?Ec, ?Hthrew.
    + intros i'. rewrite filter_app_none by none2. apply i2_push_once0.
    + congruence.
    + auto.
    + intros i' H. mem2 H. auto.
    + reflexivity.
    + congruence.
    + intros i' H. mem2 H; [apply Hold; auto|].
      now apply list_lookup_insert_eq.
    + reflexivity.
    + intros b H Hab. exfalso. mem2 H; [|discriminate].
      rewrite (Hnohook b H) in Hab. discriminate.
Qed.

Lemma hook_done_local2 tid i ok : local_ok2 tid (hook_done i ok).
Proof.
  intros t tr I1 I. unfold hook_done.
  destruct (hooks t !! i) as [[| |]|] eqn:Hi; simpl;
    try (rewrite app_nil_r; exact I).
  rewrite app_nil_r.
  assert (Ih : task_inv2 tid
                 (set_hooks (<[i:=if ok then Fulfilled else Rejected]> (hooks t)) t) tr).
  { destruct I. constructor; simpl; assumption. }
  destruct (stage_eqb (at_ t) AwaitHooks
            && allSettled (<[i:=if ok then Fulfilled else Rejected]> (hooks t)))
    eqn:E; simpl; [|exact Ih].
  apply andb_prop in E as [Hat _].
  apply task_inv2_set_at; [exact Ih|]. right. simpl.
  destruct (at_ t); try discriminate. repeat split; discriminate.
Qed.


(** *** Along a run *)

Lemma on_task_trace2 tid f s :
  local_ok tid f -> local_ok2 tid f ->
  trace_inv s -> trace_inv2 s -> trace_inv2 (on_task tid f s).
Proof.
  intros Hf Hf2 [Hfresh Htasks] H2. unfold on_task.
  destruct (tasks s !! tid) as [t|] eqn:Et; [|exact H2].
  destruct (Hf t (trace s) (Htasks _ _ Et)) as [_ HX].
  specialize (Hf2 t (trace s) (Htasks _ _ Et) (H2 _ _ Et)).
  destruct (f t) as [[t' X] rel]. simpl in *.
  pose proof (lookup_lt_Some _ _ _ Et) as Hlt.
  intros j tj Hj. simpl in *. destruct (decide (tid = j)) as [<-|Hne].
  - rewrite list_lookup_insert_eq in Hj by exact Hlt. now injection Hj as <-.
  - rewrite list_lookup_insert_ne in Hj by exact Hne.
    apply task_inv2_foreign; [eauto|].
    intros e He Ho. rewrite (HX e He) in Ho. congruence.
Qed.

Lemma resume_all_trace2 l s :
  trace_inv s -> trace_inv2 s ->
  trace_inv2 (foldl (fun st k => on_task k (resume k) st) s l).
Proof.
  revert s. induction l as [|k l IH]; intros s H1 H2; simpl; [exact H2|].
  apply IH.
  - apply on_task_trace; [apply resume_local | exact H1].
  - apply on_task_trace2; [apply resume_local | apply resume_local2 | |];
      assumption.
Qed.

Lemma trace_inv2_ownerless q c d n ls s X :
  trace_inv2 s -> (forall e, e ∈ X -> owner e = None) ->
  trace_inv2 (mkState q c d n ls (tasks s) (trace s ++ X)).
Proof.
  intros H HX j t Hj. simpl in *. apply task_inv2_foreign; [eauto|].
  intros e He Ho. rewrite (HX e He) in Ho. discriminate.
Qed.

Lemma onEnd_trace2 r s : trace_inv s -> trace_inv2 s -> trace_inv2 (onEnd r s).
Proof.
  intros [Hfresh _] H. unfold onEnd.
  destruct (negb (Nat.eqb (length (errors r)) 0)); [exact H|].
  destruct (queued s); [exact H|].
  assert (Hnew : forall e, e ∈ trace s -> owner e <> Some (length (tasks s))).
  { intros e He Ho. specialize (Hfresh _ _ He Ho). lia. }
  destruct (negb (connected s)); intros j t Hj; simpl in *.
  - apply lookup_app_Some in Hj as [Hj|[Hge Hj]]; [eauto|].
    apply list_lookup_singleton_Some in Hj as [Hz <-].
    replace j with (length (tasks s)) by lia.
    apply task_inv2_fresh; auto.
  - apply lookup_app_Some in Hj as [Hj|[Hge Hj]].
    + apply task_inv2_foreign; [eauto|].
      intros e He Ho. apply list_elem_of_singleton in He as ->.
      injection Ho as <-. apply lookup_lt_Some in Hj. lia.
    + apply list_lookup_singleton_Some in Hj as [Hz <-].
      replace j with (length (tasks s)) by lia.
      apply (resume_local2 (length (tasks s)) (mkTask AwaitClient [] [] [] [])).
      * now apply task_inv_fresh.
      * apply task_inv2_fresh; auto.
Qed.

Lemma step_trace2 e s :
  trace_inv s -> trace_inv2 s -> trace_inv2 (step cfg e s).
Proof.
  intros H1 H. destruct e; simpl.
  - unfold onStart, emit. destruct (dir s).
    + apply (trace_inv2_ownerless _ _ _ _ _ s [Rm] H).
      intros e He. now apply list_elem_of_singleton in He as ->.
    + apply (trace_inv2_ownerless _ _ _ _ _ s _ H), beforeBuild_ownerless.
  - unfold rm_done. destruct (removing s); [exact H|]. destruct ok.
    + apply (trace_inv2_ownerless _ _ _ _ _ s _ H), beforeBuild_ownerless.
    + exact H.
  - exact H.
  - now apply onEnd_trace2.
  - destruct (client_connected_foldl cfg s) as (l & _ & ->).
    apply resume_all_trace2.
    + apply (trace_inv_ownerless _ _ _ _ _ s _ H1), (dispatch_ownerless cfg).
    + apply (trace_inv2_ownerless _ _ _ _ _ s _ H), (dispatch_ownerless cfg).
  - exact H.
  - apply on_task_trace2;
      [apply readdir_done_local | apply readdir_done_local2 | |]; assumption.
  - apply on_task_trace2;
      [apply readFile_done_local | apply readFile_done_local2 | |]; assumption.
  - apply on_task_trace2;
      [apply pushFile_done_local | apply pushFile_done_local2 | |]; assumption.
  - apply on_task_trace2;
      [apply calculateRAM_done_local | apply calculateRAM_done_local2 | |];
      assumption.
  - apply on_task_trace2;
      [apply hook_done_local | apply hook_done_local2 | |]; assumption.
Qed.

Lemma run_trace2 evs s :
  trace_inv s -> trace_inv2 s -> trace_inv2 (run cfg evs s).
Proof.
  revert s. induction evs as [|e evs IH]; intros s H1 H2; [exact H2|].
  apply IH; [now apply step_trace | now apply step_trace2].
Qed.

Lemma reachable_task s tid e :
  reachable cfg s -> e ∈ trace s -> owner e = Some tid ->
  exists t, tasks s !! tid = Some t
            /\ task_inv tid t (trace s) /\ task_inv2 tid t (trace s).
Proof.
  intros Hr He Ho.
  pose proof (reachable_trace cfg s Hr) as [Hfresh Htasks].
  assert (H2 : trace_inv2 s).
  { destruct Hr as (c & d & evs & ->). apply run_trace2.
    - apply (reachable_trace cfg). now exists c, d, [].
    - intros j t Hj. simpl in Hj. rewrite lookup_nil in Hj. discriminate. }
  specialize (Hfresh _ _ He Ho).
  destruct (lookup_lt_is_Some_2 _ _ Hfresh) as [t Ht].
  exists t. split; [exact Ht|]. split; [apply Htasks | apply H2]; exact Ht.
Qed.

(** X7: in every run: a rejected [pushFile] makes the callback of its cycle
    throw, and for that cycle no [calculateRAM] call is ever made and no
    [afterBuild] hook is ever dispatched or called. *)
Theorem rejected_push_ends_the_cycle (connected0 : bool)
    (dir0 : option (list Resolver.node)) (evs : list Event) (tid i : nat) :
  let s := run cfg evs (init connected0 dir0) in
  PushFileSettled tid i false ∈ trace s ->
  (exists t, tasks s !! tid = Some t /\ at_ t = Threw)
  /\ (forall j fn sv, CalculateRAM tid j fn sv ∉ trace s)
  /\ (forall k, (Dispatch afterBuild (Some tid) ∉ trace s)
               /\ (Hook afterBuild (Some tid) k ∉ trace s)).
Proof.
  intros s H.
  destruct (reachable_task s tid _ (ex_intro _ connected0
              (ex_intro _ dir0 (ex_intro _ evs eq_refl))) H eq_refl)
    as (t & Ht & I1 & I2).
  pose proof (i2_push_failed _ _ _ I2 i H) as Hfail.
  assert (Hnot : forallb is_pushed (pushes t) = true -> False).
  { intros Hall. pose proof (forallb_lookup _ _ _ _ Hall Hfail). discriminate. }
  split; [|split].
  - exists t. split; [exact Ht|]. now apply (i2_failed_threw _ _ _ I2 i).
  - intros j fn sv Hin. apply Hnot, (i2_costs_pushed _ _ _ I2).
    intros Hnil. apply (inv_ram_idx _ _ _ I1) in Hin. rewrite Hnil in Hin.
    simpl in Hin. lia.
  - intros k. split; intros Hin; apply Hnot;
      apply (i2_hooks_costs _ _ _ I2 _ Hin); simpl; apply Nat.eqb_refl.
Qed.

(** X8: in every run: a rejected [calculateRAM] makes the callback of its
    cycle throw, and no [afterBuild] hook is ever dispatched or called for
    that cycle. *)
Theorem rejected_cost_ends_the_cycle (connected0 : bool)
    (dir0 : option (list Resolver.node)) (evs : list Event) (tid i : nat) :
  let s := run cfg evs (init connected0 dir0) in
  CalculateRAMSettled tid i false ∈ trace s ->
  (exists t, tasks s !! tid = Some t /\ at_ t = Threw)
  /\ (forall k, (Dispatch afterBuild (Some tid) ∉ trace s)
               /\ (Hook afterBuild (Some tid) k ∉ trace s)).
Proof.
  intros s H.
  destruct (reachable_task s tid _ (ex_intro _ connected0
              (ex_intro _ dir0 (ex_intro _ evs eq_refl))) H eq_refl)
    as (t & Ht & I1 & I2).
  pose proof (i2_cost_failed _ _ _ I2 i H) as Hfail.
  assert (Hnot : all (costs t) = true -> False).
  { intros Hall. pose proof (forallb_lookup _ _ _ _ Hall Hfail). discriminate. }
  split.
  - exists t. split; [exact Ht|]. now apply (i2_rejected_threw _ _ _ I2 i).
  - intros k. split; intros Hin; apply Hnot;
      apply (i2_hooks_costs _ _ _ I2 _ Hin); simpl; apply Nat.eqb_refl.
Qed.

(** X9: in every run: each [pushFile] call of a cycle carries the file name
    and the server of the descriptor at its index, and no descriptor is
    pushed twice in a cycle. *)
Theorem each_file_pushed_at_most_once (connected0 : bool)
    (dir0 : option (list Resolver.node)) (evs : list Event) (tid i : nat) :
  let s := run cfg evs (init connected0 dir0) in
  length (List.filter (is_push tid i) (trace s)) <= 1
  /\ forall fn sv c,
       PushFile tid i fn sv c ∈ trace s ->
       exists t f, tasks s !! tid = Some t /\ files t !! i = Some f
                   /\ fn = Resolver.filename f /\ sv = Resolver.server f.
Proof.
  intros s.
  assert (Hr : reachable cfg s) by (now exists connected0, dir0, evs).
  split.
  - destruct (List.filter (is_push tid i) (trace s)) as [|e l] eqn:E;
      [simpl; lia|].
    assert (He : In e (List.filter (is_push tid i) (trace s)))
      by (rewrite E; now left).
    apply filter_In in He as [He Hp]. apply list_elem_of_In in He.
    destruct (reachable_task s tid e Hr He (is_push_owner _ _ _ Hp))
      as (t & _ & _ & I2).
    rewrite <- E. apply (i2_push_once _ _ _ I2 i).
  - intros fn sv c H.
    destruct (reachable_task s tid _ Hr H eq_refl) as (t & Ht & I1 & _).
    destruct (inv_push_file _ _ _ I1 _ _ _ _ H) as (_ & f & Hf & -> & ->).
    exists t, f. auto.
Qed.

(** X10: in every run: a cycle reads the output directory at most once, and
    exactly once as soon as it is no longer waiting for the client. *)
Theorem directory_read_once_per_cycle (connected0 : bool)
    (dir0 : option (list Resolver.node)) (evs : list Event) (tid : nat) :
  let s := run cfg evs (init connected0 dir0) in
  length (List.filter (is_readdir tid) (trace s)) <= 1
  /\ forall t, tasks s !! tid = Some t -> at_ t <> AwaitClient ->
       length (List.filter (is_readdir tid) (trace s)) = 1.
Proof.
  intros s.
  assert (Hr : reachable cfg s) by (now exists connected0, dir0, evs).
  pose proof (reachable_trace cfg s Hr) as [Hfresh Htasks].
  split.
  - destruct (List.filter (is_readdir tid) (trace s)) as [|e l] eqn:E;
      [simpl; lia|].
    assert (He : In e (List.filter (is_readdir tid) (trace s)))
      by (rewrite E; now left).
    apply filter_In in He as [He Hp]. apply list_elem_of_In in He.
    destruct (reachable_task s tid e Hr He (is_readdir_owner _ _ Hp))
      as (t & _ & I1 & _).
    rewrite <- E, (inv_readdir _ _ _ I1). destruct (at_ t); lia.
  - intros t Ht Hat. rewrite (inv_readdir _ _ _ (Htasks _ _ Ht)).
    destruct (at_ t); try reflexivity. contradiction.
Qed.

End FailureFacts.

Section FailureExamples.

Import Hooks Deploy Order Cycle Sample.

Lemma rejected_push_witness :
  let s := run (cfg [async])
             [OnEnd clean; ReaddirDone 0; ReadFileDone 0 0 (Some "export {}");
              PushFileDone 0 0 false; PushFileDone 0 0 true;
              CalculateRAMDone 0 0 true]
             (init true (Some out_a)) in
  CalculateRAM 0 0 "a.js" "home" ∉ trace s.
Proof.
  refine (proj1 (proj2 (rejected_push_ends_the_cycle (cfg [async]) true
                          (Some out_a)
                          [OnEnd clean; ReaddirDone 0;
                           ReadFileDone 0 0 (Some "export {}");
                           PushFileDone 0 0 false; PushFileDone 0 0 true;
                           CalculateRAMDone 0 0 true] 0 0 _)) 0 "a.js" "home").
  cbv. repeat constructor.
Defined.

Lemma rejected_cost_witness :
  let s := run (cfg [async])
             [OnEnd clean; ReaddirDone 0; ReadFileDone 0 0 (Some "export {}");
              PushFileDone 0 0 true; CalculateRAMDone 0 0 false]
             (init true (Some out_a)) in
  Dispatch afterBuild (Some 0) ∉ trace s.
Proof.
  refine (proj1 (proj2 (rejected_cost_ends_the_cycle (cfg [async]) true
                          (Some out_a)
                          [OnEnd clean; ReaddirDone 0;
                           ReadFileDone 0 0 (Some "export {}");
                           PushFileDone 0 0 true; CalculateRAMDone 0 0 false]
                          0 0 _) 0)).
  cbv. repeat constructor.
Defined.

Lemma each_file_pushed_witness :
  exists t f,
    tasks (run (cfg []) [OnEnd clean; ReaddirDone 0;
                         ReadFileDone 0 0 (Some "export {}");
                         ReadFileDone 0 0 (Some "again")]
             (init true (Some out_a))) !! 0 = Some t
    /\ files t !! 0 = Some f
    /\ "a.js" = Resolver.filename f /\ "home" = Resolver.server f.
Proof.
  refine (proj2 (each_file_pushed_at_most_once (cfg []) true (Some out_a)
                   [OnEnd clean; ReaddirDone 0;
                    ReadFileDone 0 0 (Some "export {}");
                    ReadFileDone 0 0 (Some "again")] 0 0)
            "a.js" "home" "export {}" _).
  cbv. repeat constructor.
Defined.

Lemma directory_read_once_witness :
  length (List.filter (is_readdir 0)
            (trace (run (cfg []) [OnEnd clean; ClientConnected; ClientConnected]
                      (init false (Some out_a))))) = 1.
Proof.
  refine (proj2 (directory_read_once_per_cycle (cfg []) false (Some out_a)
                   [OnEnd clean; ClientConnected; ClientConnected] 0)
            (mkTask AwaitReaddir [] [] [] []) eq_refl _).
  discriminate.
Defined.

End FailureExamples.

(** ** The build-start callback *)

Section StartFacts.

Import Hooks Deploy Order Cycle.

Variable cfg : Config.

Lemma start_dispatch_once :
  List.filter is_start_dispatch (dispatch cfg beforeBuild None).1
  = [Dispatch beforeBuild None].
Proof.
  unfold dispatch.
  destruct (map_hooks beforeBuild 0 (extensions cfg)) as [called arr].
  simpl. f_equal. apply filter_none. intros e He.
  apply list_elem_of_fmap in He as (k & -> & _). reflexivity.
Qed.

Lemma owned_not_start (tid : nat) (X : list Effect) :
  (forall e, e ∈ X -> owner e = Some tid) ->
  List.filter is_start_dispatch X = [].
Proof.
  intros HX. apply filter_none. intros e He.
  specialize (HX e He). destruct e as [| | | | | | |h [c|]|]; try reflexivity.
  - now destruct h.
  - discriminate.
Qed.

Lemma on_task_started (tid : nat) (f : Task -> Task * list Effect * bool)
    (s : State) :
  local_ok tid f -> trace_inv s -> started (on_task tid f s) = started s.
Proof.
  intros Hf [_ Htasks]. unfold on_task, started.
  destruct (tasks s !! tid) as [t|] eqn:Et; [|reflexivity].
  destruct (Hf t (trace s) (Htasks _ _ Et)) as [_ HX].
  destruct (f t) as [[t' X] rel]. simpl in *.
  now rewrite List.filter_app, (owned_not_start tid X HX), app_nil_r.
Qed.

Lemma resume_all_started (l : list nat) (s : State) :
  trace_inv s ->
  started (foldl (fun st k => on_task k (resume k) st) s l) = started s.
Proof.
  revert s. induction l as [|k l IH]; intros s H; simpl; [reflexivity|].
  rewrite IH by (apply on_task_trace; [apply resume_local | exact H]).
  apply on_task_started; [apply resume_local | exact H].
Qed.

Lemma step_started (e : Event) (s : State) :
  trace_inv s ->
  started (step cfg e s) + failed e s
  = started s + (if is_start e then 1 else 0).
Proof.
  intros H.
  assert (Hsame : forall s', started s' = started s ->
            started s' + 0 = started s + 0).
  { intros s' ->. reflexivity. }
  destruct e; simpl.
  - unfold onStart, emit, started. destruct (dir s); simpl.
    + rewrite List.filter_app. simpl. rewrite app_nil_r. lia.
    + rewrite List.filter_app, start_dispatch_once, length_app. simpl. lia.
  - unfold rm_done, started. destruct (removing s) as [|n] eqn:Hn.
    { rewrite Hn. destruct ok; simpl; lia. }
    destruct ok; simpl.
    + rewrite List.filter_app, start_dispatch_once, length_app. simpl. lia.
    + lia.
  - apply Hsame. reflexivity.
  - apply Hsame. unfold onEnd, started.
    destruct (negb (Nat.eqb (length (errors r)) 0)); [reflexivity|].
    destruct (queued s); [reflexivity|].
    destruct (negb (connected s)); simpl; [reflexivity|].
    rewrite List.filter_app. simpl. now rewrite app_nil_r.
  - apply Hsame. destruct (client_connected_foldl cfg s) as (l & _ & ->).
    rewrite resume_all_started
      by (apply (trace_inv_ownerless _ _ _ _ _ s _ H),
            (dispatch_ownerless cfg)).
    unfold started. simpl. rewrite List.filter_app.
    rewrite (filter_none is_start_dispatch (dispatch cfg afterConnect None).1);
      [now rewrite app_nil_r|].
    intros e He. unfold dispatch in He.
    destruct (map_hooks afterConnect 0 (extensions cfg)) as [called arr].
    simpl in He. apply elem_of_cons in He as [->|He]; [reflexivity|].
    apply list_elem_of_fmap in He as (k & -> & _). reflexivity.
  - apply Hsame. reflexivity.
  - apply Hsame, on_task_started; [apply readdir_done_local | exact H].
  - apply Hsame, on_task_started; [apply readFile_done_local | exact H].
  - apply Hsame, on_task_started; [apply pushFile_done_local | exact H].
  - apply Hsame, on_task_started; [apply calculateRAM_done_local | exact H].
  - apply Hsame, on_task_started; [apply hook_done_local | exact H].
Qed.

Lemma run_started (evs : list Event) (s : State) :
  trace_inv s ->
  started (run cfg evs s) + lost cfg evs s = started s + starts evs.
Proof.
  revert s. induction evs as [|e evs IH]; intros s H.
  - unfold starts. simpl. lia.
  - pose proof (step_started e s H) as Hstep.
    assert (IHs : started (run cfg evs (step cfg e s))
                  + lost cfg evs (step cfg e s)
                  = started (step cfg e s) + starts evs).
    { apply IH. now apply step_trace. }
    assert (Hs : starts (e :: evs) = (if is_start e then 1 else 0) + starts evs).
    { unfold starts. simpl. now destruct (is_start e). }
    change (run cfg (e :: evs) s) with (run cfg evs (step cfg e s)).
    change (lost cfg (e :: evs) s)
      with (failed e s + lost cfg evs (step cfg e s)).
    rewrite Hs. lia.
Qed.

Lemma lost_none (evs : list Event) (s : State) :
  Forall (fun e => e <> RmDone false) evs -> lost cfg evs s = 0.
Proof.
  intros Hall. revert s. induction Hall as [|e evs He _ IH]; intros s;
    [reflexivity|].
  simpl. rewrite IH.
  destruct e as [|[|]| | | | | | | | |]; try reflexivity. contradiction.
Qed.

(** X11: in every run, [beforeBuild] is dispatched once for each started
    build whose removal of the output directory went through or was not
    needed, and never for another: the dispatches made, the build starts
    still waiting for the removal, and the build starts whose removal was
    rejected add up to the builds started. A rejected removal leaves the
    trace as it is: its build start dispatches nothing. Without a rejected
    removal, the dispatches and the build starts still waiting account for
    every build started. *)
Theorem beforeBuild_dispatched_once_per_start (connected0 : bool)
    (dir0 : option (list Resolver.node)) (evs : list Event) :
  let s0 := init connected0 dir0 in
  let s := run cfg evs s0 in
  length (List.filter is_start_dispatch (trace s)) + removing s
  + lost cfg evs s0 = starts evs
  /\ (forall s', trace (step cfg (RmDone false) s') = trace s')
  /\ (Forall (fun e => e <> RmDone false) evs ->
      length (List.filter is_start_dispatch (trace s)) + removing s
      = starts evs).
Proof.
  intros s0 s.
  assert (Hinit : trace_inv s0).
  { apply (reachable_trace cfg). now exists connected0, dir0, []. }
  pose proof (run_started evs s0 Hinit) as Hrun.
  fold s in Hrun. unfold started in Hrun. simpl in Hrun.
  split; [exact Hrun|]. split.
  - intros s'. simpl. unfold rm_done. now destruct (removing s').
  - intros Hall. rewrite (lost_none evs s0 Hall) in Hrun. lia.
Qed.

End StartFacts.

Section StartExamples.

Import Hooks Deploy Order Cycle Sample.

Lemma beforeBuild_dispatched_witness :
  let s := run (cfg [async]) [OnStart; RmDone true; OnStart; OnEnd clean]
             (init true (Some out_a)) in
  length (List.filter is_start_dispatch (trace s)) + removing s = 2.
Proof.
  refine (proj2 (proj2 (beforeBuild_dispatched_once_per_start (cfg [async])
                          true (Some out_a)
                          [OnStart; RmDone true; OnStart; OnEnd clean])) _).
  repeat constructor; discriminate.
Defined.

(** A rejected removal: the build start is accounted for as lost, and
    nothing is dispatched for it. *)
Example rejected_removal_dispatches_nothing :
  let s := run (cfg [async]) [OnStart; RmDone false] (init true (Some out_a)) in
  trace s = [Rm] /\ removing s = 0
  /\ lost (cfg [async]) [OnStart; RmDone false] (init true (Some out_a)) = 1.
Proof. repeat split; reflexivity. Qed.

End StartExamples.

(** ** A listener that throws before the build's own is reached *)

Section BlockedFacts.

Import Hooks Deploy Order Cycle.

Variable cfg : Config.





End BlockedFacts.

Section BlockedExamples.

Import Hooks Deploy Order Cycle Sample.


End BlockedExamples.

(** ** The mirror handler: how far it gets *)

Section StartupFacts.

Import Mirror Phase Startup.

Variable env : Env.

Lemma awaits_exact (c : nat -> Call) (o : nat -> outcome) (l : list nat)
    (tr : list Obs) :
  exists done rest,
    l = done ++ rest
    /\ Forall (fun x => o x = Resolves) done
    /\ (forall x rest', rest = x :: rest' -> o x <> Resolves)
    /\ for_of l (fun x => await (c x) (o x)) tr
       = (tr ++ awaited c done ++ (await_halt c o rest).1,
          (await_halt c o rest).2).
Proof.
  revert tr. induction l as [|x l IH]; intros tr.
  - exists [], []. repeat split; [constructor | discriminate |].
    simpl. now rewrite app_nil_r.
  - simpl. unfold bind, await. destruct (o x) eqn:Ex.
    + destruct (IH (tr ++ [Began (c x); Resolved (c x)]))
        as (done & rest & El & Hd & Hr & E).
      exists (x :: done), rest. repeat split;
        [now rewrite El | now constructor | exact Hr |].
      cbv beta iota. etransitivity; [exact E|]. simpl.
      now rewrite <- app_assoc.
    + exists [], (x :: l). repeat split; [constructor | |].
      * intros y r' [= <- _]. congruence.
      * simpl. now rewrite Ex.
    + exists [], (x :: l). repeat split; [constructor | |].
      * intros y r' [= <- _]. congruence.
      * simpl. now rewrite Ex.
Qed.

Lemma invokes_exact (c : nat -> Call) (ok : nat -> bool) (l : list nat)
    (tr : list Obs) :
  exists done rest,
    l = done ++ rest
    /\ Forall (fun x => ok x = true) done
    /\ (forall x rest', rest = x :: rest' -> ok x = false)
    /\ for_of l (fun x => invoke (c x) (ok x)) tr
       = (tr ++ invoked c done ++ (invoke_halt c rest).1, (invoke_halt c rest).2).
Proof.
  revert tr. induction l as [|x l IH]; intros tr.
  - exists [], []. repeat split; [constructor | discriminate |].
    simpl. now rewrite app_nil_r.
  - simpl. unfold bind, invoke. destruct (ok x) eqn:Ex.
    + destruct (IH (tr ++ [Began (c x)])) as (done & rest & El & Hd & Hr & E).
      exists (x :: done), rest. repeat split;
        [now rewrite El | now constructor | exact Hr |].
      cbv beta iota. etransitivity; [exact E|]. simpl.
      now rewrite <- app_assoc.
    + exists [], (x :: l). split; [reflexivity|]. split; [constructor|].
      split; [|reflexivity]. intros y r' [= <- _]. exact Ex.
Qed.

(** The first loop: what it traces beyond its phase. *)
Lemma create_exact (m : Mapping) (mirrors : list nat) (tr : list Obs) :
  exists X,
    (create env m mirrors tr).1 = tr ++ X
    /\ Forall (fun o => of_obs o = 0) X
    /\ (forall p, Began (Mkdir p) ∈ X ->
          existsSync env p = false /\ p ∈ map fst m)
    /\ (forall c, Rejected c ∈ X ->
          (create env m mirrors tr).2 = Exception
          /\ exists pre, X = pre ++ [Began c; Rejected c])
    /\ forall ms, (create env m mirrors tr).2 = Value ms ->
         ms = mirrors ++ seq (length mirrors) (length m)
         /\ created env m (length mirrors) X.
Proof.
  revert mirrors tr. induction m as [|[path servers] m IH]; intros mirrors tr.
  - exists []. simpl. rewrite !app_nil_r.
    split; [reflexivity|]. split; [constructor|].
    split; [intros p Hp; inversion Hp|].
    split; [intros c Hc; inversion Hc|].
    intros ms [= <-]. split; [reflexivity|].
    split; [reflexivity|]. split; [|constructor].
    simpl. intros k Hk. lia.
  - simpl. unfold bind, await, invoke, ret.
    assert (Hlen : forall ms,
              ms = (mirrors ++ [length mirrors])
                   ++ seq (length (mirrors ++ [length mirrors])) (length m) ->
              ms = mirrors ++ seq (length mirrors) (S (length m))).
    { intros ms ->. rewrite length_app, <- app_assoc. simpl.
      now rewrite Nat.add_1_r. }
    destruct (existsSync env path) eqn:Hex; simpl;
      [|destruct (mkdir env path) eqn:Hmk]; simpl;
      try (match goal with
           | |- context [mirror env ?p] => destruct (mirror env p) eqn:Hmi; simpl
           end);
      try (match goal with
           | |- context [create env m ?ms ?T] =>
               destruct (IH ms T) as (X & EX & HX & Hmkd & Hrej & Hms)
           end).
    + exists ([Began (NewMirror path servers); Began (OnClose (length mirrors))]
              ++ X).
      split; [rewrite EX, <- !app_assoc; reflexivity|].
      split; [repeat (constructor; [reflexivity|]); exact HX|].
      split; [|split].
      * intros p Hp. apply elem_of_cons in Hp as [Hp|Hp]; [discriminate|].
        apply elem_of_cons in Hp as [Hp|Hp]; [discriminate|].
        destruct (Hmkd p Hp) as [A B]. split; [exact A | now right].
      * intros c Hc. apply elem_of_cons in Hc as [Hc|Hc]; [discriminate|].
        apply elem_of_cons in Hc as [Hc|Hc]; [discriminate|].
        destruct (Hrej c Hc) as (A & pre & ->). split; [exact A|].
        now exists ([Began (NewMirror path servers);
                     Began (OnClose (length mirrors))] ++ pre).
      * intros ms Hv. destruct (Hms ms Hv) as (E1 & E2 & E3 & E4).
        split; [now apply Hlen|]. split; [simpl; now rewrite E2|]. split.
        -- intros k Hk. destruct (decide (k = length mirrors)) as [->|Hne].
           ++ right. left.
           ++ right. right. apply E3. rewrite length_app. simpl in *. lia.
        -- constructor; [|exact E4]. simpl. split; [congruence | exact Hmi].
    + exists [Began (NewMirror path servers)]. split; [reflexivity|].
      split; [repeat constructor|]. split; [|split].
      * intros p Hp. apply elem_of_cons in Hp as [Hp|Hp]; [discriminate|].
        inversion Hp.
      * intros c Hc. apply elem_of_cons in Hc as [Hc|Hc]; [discriminate|].
        inversion Hc.
      * intros ms [=].
    + exists ([Began (Mkdir path); Resolved (Mkdir path);
               Began (NewMirror path servers); Began (OnClose (length mirrors))]
              ++ X).
      split; [rewrite EX, <- !app_assoc; reflexivity|].
      split; [repeat (constructor; [reflexivity|]); exact HX|].
      split; [|split].
      * intros p Hp. apply elem_of_cons in Hp as [Hp|Hp].
        { injection Hp as ->. split; [exact Hex | now left]. }
        apply elem_of_cons in Hp as [Hp|Hp]; [discriminate|].
        apply elem_of_cons in Hp as [Hp|Hp]; [discriminate|].
        apply elem_of_cons in Hp as [Hp|Hp]; [discriminate|].
        destruct (Hmkd p Hp) as [A B]. split; [exact A | now right].
      * intros c Hc. do 4 (apply elem_of_cons in Hc as [Hc|Hc]; [discriminate|]).
        destruct (Hrej c Hc) as (A & pre & ->). split; [exact A|].
        now exists ([Began (Mkdir path); Resolved (Mkdir path);
                     Began (NewMirror path servers);
                     Began (OnClose (length mirrors))] ++ pre).
      * intros ms Hv. destruct (Hms ms Hv) as (E1 & E2 & E3 & E4).
        split; [now apply Hlen|]. split; [simpl; now rewrite E2|]. split.
        -- intros k Hk. destruct (decide (k = length mirrors)) as [->|Hne].
           ++ do 3 right. left.
           ++ do 4 right. apply E3. rewrite length_app. simpl in *. lia.
        -- constructor; [|exact E4]. simpl. split; [auto | exact Hmi].
    + exists [Began (Mkdir path); Resolved (Mkdir path);
              Began (NewMirror path servers)].
      split; [simpl; now rewrite <- app_assoc|].
      split; [repeat constructor|]. split; [|split].
      * intros p Hp. apply elem_of_cons in Hp as [Hp|Hp].
        { injection Hp as ->. split; [exact Hex | now left]. }
        apply elem_of_cons in Hp as [Hp|Hp]; [discriminate|].
        apply elem_of_cons in Hp as [Hp|Hp]; [discriminate|]. inversion Hp.
      * intros c Hc. do 3 (apply elem_of_cons in Hc as [Hc|Hc]; [discriminate|]).
        inversion Hc.
      * intros ms [=].
    + exists [Began (Mkdir path); Rejected (Mkdir path)].
      split; [reflexivity|]. split; [repeat constructor|]. split; [|split].
      * intros p Hp. apply elem_of_cons in Hp as [Hp|Hp].
        { injection Hp as ->. split; [exact Hex | now left]. }
        apply elem_of_cons in Hp as [Hp|Hp]; [discriminate|]. inversion Hp.
      * intros c Hc. apply elem_of_cons in Hc as [Hc|Hc]; [discriminate|].
        apply elem_of_cons in Hc as [Hc|Hc]; [|inversion Hc].
        injection Hc as ->. split; [reflexivity|]. now exists [].
      * intros ms [=].
    + exists [Began (Mkdir path)].
      split; [reflexivity|]. split; [repeat constructor|]. split; [|split].
      * intros p Hp. apply elem_of_cons in Hp as [Hp|Hp].
        { injection Hp as ->. split; [exact Hex | now left]. }
        inversion Hp.
      * intros c Hc. apply elem_of_cons in Hc as [Hc|Hc]; [discriminate|].
        inversion Hc.
      * intros ms [=].
Qed.

Lemma seq_split (n : nat) (d r : list nat) :
  seq 0 n = d ++ r ->
  d = seq 0 (length d) /\ r = seq (length d) (length r)
  /\ n = length d + length r.
Proof.
  intros E.
  assert (Hn : n = length d + length r).
  { rewrite <- length_app, <- E. now rewrite length_seq. }
  rewrite Hn, seq_app in E. simpl in E.
  apply app_inj_1 in E as [E1 E2]; [|now rewrite length_seq].
  now repeat split.
Qed.

Lemma awaited_elem (c : nat -> Call) (l : list nat) (e : Obs) :
  e ∈ awaited c l -> exists x, x ∈ l /\ (e = Began (c x) \/ e = Resolved (c x)).
Proof.
  unfold awaited. induction l as [|y l IH]; simpl; intros H.
  - inversion H.
  - apply elem_of_cons in H as [->|H]; [exists y; split; [left | now left]|].
    apply elem_of_cons in H as [->|H]; [exists y; split; [left | now right]|].
    destruct (IH H) as (x & Hx & Hc). exists x. split; [now right | exact Hc].
Qed.

Lemma awaited_resolved (c : nat -> Call) (l : list nat) (x : nat) :
  x ∈ l -> Began (c x) ∈ awaited c l /\ Resolved (c x) ∈ awaited c l.
Proof.
  unfold awaited. induction l as [|y l IH]; simpl; intros H.
  - inversion H.
  - apply elem_of_cons in H as [->|H].
    + split; [left | right; left].
    + destruct (IH H). split; right; now right.
Qed.

Lemma invoked_elem (c : nat -> Call) (l : list nat) (e : Obs) :
  e ∈ invoked c l <-> exists x, x ∈ l /\ e = Began (c x).
Proof.
  unfold invoked. rewrite list_elem_of_fmap. split.
  - intros (x & -> & Hx). now exists x.
  - intros (x & Hx & ->). now exists x.
Qed.

Lemma await_halt_elem (c : nat -> Call) (o : nat -> outcome) (rest : list nat)
    (e : Obs) :
  e ∈ (await_halt c o rest).1 ->
  exists x rest', rest = x :: rest'
    /\ (e = Began (c x) \/ (e = Rejected (c x) /\ o x = Rejects)).
Proof.
  destruct rest as [|x rest']; simpl; [intros H; inversion H|].
  intros H. exists x, rest'. split; [reflexivity|].
  destruct (o x); simpl in H.
  - inversion H.
  - apply elem_of_cons in H as [->|H]; [now left|].
    apply elem_of_cons in H as [->|H]; [now right | inversion H].
  - apply elem_of_cons in H as [->|H]; [now left | inversion H].
Qed.

Lemma invoke_halt_elem (c : nat -> Call) (rest : list nat) (e : Obs) :
  e ∈ (invoke_halt c rest).1 ->
  exists x rest', rest = x :: rest' /\ e = Began (c x).
Proof.
  destruct rest as [|x rest']; simpl; [intros H; inversion H|].
  intros H. exists x, rest'. split; [reflexivity|].
  apply elem_of_cons in H as [->|H]; [reflexivity | inversion H].
Qed.

Lemma await_halt_stops (c : nat -> Call) (o : nat -> outcome) (x : nat)
    (rest : list nat) :
  o x <> Resolves -> (await_halt c o (x :: rest)).2 <> Value tt.
Proof. simpl. destruct (o x); simpl; congruence. Qed.

Lemma create_completes (m : Mapping) (mirrors : list nat) (tr : list Obs) :
  Forall (fun ps => (existsSync env ps.1 = false -> mkdir env ps.1 = Resolves)
                    /\ mirror env ps.1 = true) m ->
  exists ms, (create env m mirrors tr).2 = Value ms.
Proof.
  revert mirrors tr. induction m as [|[path servers] m IH];
    intros mirrors tr Hm.
  - now exists mirrors.
  - inversion Hm as [|ps m' [Hmk Hmi] Hm']. subst. simpl in Hmk, Hmi.
    simpl. unfold bind, await, invoke, ret. rewrite Hmi.
    destruct (existsSync env path); simpl.
    + apply IH, Hm'.
    + rewrite (Hmk eq_refl). apply IH, Hm'.
Qed.

(** How far the handler gets: it stops in the first loop, at an
    [initFileCache], at a [syncWithRemote], or it reaches the last loop. *)
Lemma handler_cases (m : Mapping) :
  let all := seq 0 (length m) in
  let init := await_halt InitFileCache (initFileCache env) in
  let sync := await_halt SyncWithRemote (syncWithRemote env) in
  exists X0,
    Forall (fun o => of_obs o = 0) X0
    /\ (forall p, Began (Mkdir p) ∈ X0 ->
          existsSync env p = false /\ p ∈ map fst m)
    /\ ((exists r, r <> Value tt
           /\ handler env (Some m) [] = (X0, r)
           /\ ~ Forall (fun ps => (existsSync env ps.1 = false ->
                                   mkdir env ps.1 = Resolves)
                                  /\ mirror env ps.1 = true) m
           /\ forall c, Rejected c ∈ X0 ->
                r = Exception /\ exists pre, X0 = pre ++ [Began c; Rejected c])
        \/ ((forall c, Rejected c ∉ X0)
            /\ created env m 0 X0
            /\ ((exists d x r, all = d ++ x :: r
                   /\ Forall (fun k => initFileCache env k = Resolves) d
                   /\ initFileCache env x <> Resolves
                   /\ handler env (Some m) []
                      = (X0 ++ awaited InitFileCache d ++ (init (x :: r)).1,
                         (init (x :: r)).2))
                \/ (Forall (fun k => initFileCache env k = Resolves) all
                    /\ exists d x r, all = d ++ x :: r
                         /\ Forall (fun k => syncWithRemote env k = Resolves) d
                         /\ syncWithRemote env x <> Resolves
                         /\ handler env (Some m) []
                            = (X0 ++ awaited InitFileCache all
                                  ++ awaited SyncWithRemote d
                                  ++ (sync (x :: r)).1,
                               (sync (x :: r)).2))
                \/ (Forall (fun k => initFileCache env k = Resolves) all
                    /\ Forall (fun k => syncWithRemote env k = Resolves) all
                    /\ exists d r, all = d ++ r
                         /\ Forall (fun k => watch env k = true) d
                         /\ (forall x r', r = x :: r' -> watch env x = false)
                         /\ handler env (Some m) []
                            = (X0 ++ awaited InitFileCache all
                                  ++ awaited SyncWithRemote all
                                  ++ invoked Watch d ++ (invoke_halt Watch r).1,
                               (invoke_halt Watch r).2))))).
Proof.
  intros all init sync. unfold handler, bind.
  destruct (create_exact m [] []) as (X0 & E0 & H0 & Hmk & Hrej & Hcr).
  exists X0. split; [exact H0|]. split; [exact Hmk|].
  pose proof (create_completes m [] []) as Hlive.
  destruct (create env m [] []) as [tr0 r0] eqn:Ec.
  simpl in E0, Hrej, Hcr, Hlive. subst tr0.
  destruct r0 as [ms| |].
  2: { left. exists Exception. split; [discriminate|]. split; [reflexivity|].
       split; [intros Hm; now destruct (Hlive Hm)|].
       intros c Hc. destruct (Hrej c Hc) as [_ Hpre]. now split. }
  2: { left. exists Suspended. split; [discriminate|]. split; [reflexivity|].
       split; [intros Hm; now destruct (Hlive Hm)|].
       intros c Hc. now destruct (Hrej c Hc). }
  destruct (Hcr ms eq_refl) as (Ems & Hcreated).
  simpl in Ems, Hcreated. subst ms. fold all.
  right. split; [intros c Hc; now destruct (Hrej c Hc)|].
  split; [exact Hcreated|].
  destruct (awaits_exact InitFileCache (initFileCache env) all X0)
    as (d1 & r1 & E1 & D1 & R1 & T1).
  rewrite T1. destruct r1 as [|x1 r1].
  2: { left. exists d1, x1, r1.
       split; [exact E1|]. split; [exact D1|].
       split; [exact (R1 x1 r1 eq_refl)|].
       pose proof (R1 x1 r1 eq_refl) as Hx. unfold init. simpl.
       destruct (initFileCache env x1); [congruence | reflexivity..]. }
  rewrite app_nil_r in E1. subst d1. simpl. rewrite app_nil_r.
  right.
  destruct (awaits_exact SyncWithRemote (syncWithRemote env) all
              (X0 ++ awaited InitFileCache all))
    as (d2 & r2 & E2 & D2 & R2 & T2).
  rewrite T2. destruct r2 as [|x2 r2].
  2: { left. split; [exact D1|]. exists d2, x2, r2.
       split; [exact E2|]. split; [exact D2|].
       split; [exact (R2 x2 r2 eq_refl)|].
       pose proof (R2 x2 r2 eq_refl) as Hx. unfold sync. simpl.
       destruct (syncWithRemote env x2);
         [congruence | now rewrite <- !app_assoc..]. }
  rewrite app_nil_r in E2. subst d2. simpl. rewrite app_nil_r.
  right. split; [exact D1|]. split; [exact D2|].
  destruct (invokes_exact Watch (watch env) all
              ((X0 ++ awaited InitFileCache all) ++ awaited SyncWithRemote all))
    as (d3 & r3 & E3 & D3 & R3 & T3).
  exists d3, r3. split; [exact E3|]. split; [exact D3|]. split; [exact R3|].
  rewrite T3. now rewrite <- !app_assoc.
Qed.

Lemma phase0_notin (X0 : list Obs) (e : Obs) :
  Forall (fun o => of_obs o = 0) X0 -> of_obs e <> 0 -> e ∉ X0.
Proof.
  intros H0 He Hin. rewrite Forall_forall in H0. now apply He, H0.
Qed.

(** X12: rejection of an awaited promise ([mkdir], [initFileCache],
    [syncWithRemote]) is the last thing the handler sees: it ends with an
    exception there, whatever was left to do. *)
Theorem rejected_call_ends_the_handler (m : Mapping) (c : Call) :
  Rejected c ∈ (handler env (Some m) []).1 ->
  (handler env (Some m) []).2 = Exception
  /\ exists pre, (handler env (Some m) []).1 = pre ++ [Began c; Rejected c].
Proof.
  destruct (handler_cases m) as (X0 & H0 & _ & Hcases).
  destruct Hcases as [(r & _ & E & _ & Hrej)
                     |(Hno & _ & [(d & x & r & _ & _ & Hx & E)
                                 |[(_ & d & x & r & _ & _ & Hx & E)
                                  |(_ & _ & d & r & _ & _ & _ & E)]])];
    rewrite E; cbn [fst snd]; intros Hin.
  - destruct (Hrej c Hin) as [-> Hpre]. now split.
  - apply elem_of_app in Hin as [Hin|Hin]; [now destruct (Hno c)|].
    apply elem_of_app in Hin as [Hin|Hin].
    { apply awaited_elem in Hin as (y & _ & [?|?]); discriminate. }
    apply await_halt_elem in Hin as (y & r' & [= <- <-] & [?|[[= ->] Hy]]);
      [discriminate|].
    simpl. rewrite Hy. simpl. split; [reflexivity|].
    exists (X0 ++ awaited InitFileCache d). now rewrite <- app_assoc.
  - apply elem_of_app in Hin as [Hin|Hin]; [now destruct (Hno c)|].
    apply elem_of_app in Hin as [Hin|Hin].
    { apply awaited_elem in Hin as (y & _ & [?|?]); discriminate. }
    apply elem_of_app in Hin as [Hin|Hin].
    { apply awaited_elem in Hin as (y & _ & [?|?]); discriminate. }
    apply await_halt_elem in Hin as (y & r' & [= <- <-] & [?|[[= ->] Hy]]);
      [discriminate|].
    simpl. rewrite Hy. simpl. split; [reflexivity|].
    exists (X0 ++ awaited InitFileCache (seq 0 (length m))
               ++ awaited SyncWithRemote d).
    now rewrite <- !app_assoc.
  - apply elem_of_app in Hin as [Hin|Hin]; [now destruct (Hno c)|].
    apply elem_of_app in Hin as [Hin|Hin].
    { apply awaited_elem in Hin as (y & _ & [?|?]); discriminate. }
    apply elem_of_app in Hin as [Hin|Hin].
    { apply awaited_elem in Hin as (y & _ & [?|?]); discriminate. }
    apply elem_of_app in Hin as [Hin|Hin].
    { apply invoked_elem in Hin as (y & _ & ?). discriminate. }
    apply invoke_halt_elem in Hin as (y & r' & _ & ?). discriminate.
Qed.

(** X13: the handler runs to its end exactly when every call it makes goes
    well: each missing directory is made, each session is created, and
    each session's [initFileCache] and [syncWithRemote] resolve and its
    [watch] returns. *)
Theorem handler_completes_iff_all_goes_well (m : Mapping) :
  (handler env (Some m) []).2 = Value tt <-> all_well env m.
Proof.
  destruct (handler_cases m) as (X0 & H0 & _ & Hcases).
  assert (Hseq : forall d x r, seq 0 (length m) = d ++ x :: r -> x < length m).
  { intros d x r E.
    assert (Hx : x ∈ seq 0 (length m)).
    { rewrite E. apply elem_of_app. right. left. }
    apply elem_of_seq in Hx. lia. }
  destruct Hcases as [(r & Hr & E & Hnot & _)
                     |(_ & Hcr & [(d & x & r & Ed & _ & Hx & E)
                                 |[(_ & d & x & r & Ed & _ & Hx & E)
                                  |(Hi & Hs & d & r & Ed & Hd & Hr & E)]])];
    rewrite E; cbn [fst snd].
  - split; [intros ->; congruence|]. intros [Hm _]. contradiction.
  - split; [intros Hv; now apply await_halt_stops in Hv|].
    intros [_ Hk]. destruct (Hk x (Hseq d x r Ed)) as (A & _). contradiction.
  - split; [intros Hv; now apply await_halt_stops in Hv|].
    intros [_ Hk]. destruct (Hk x (Hseq d x r Ed)) as (_ & A & _).
    contradiction.
  - destruct r as [|x r]; simpl.
    + rewrite app_nil_r in Ed. subst d. split; [|reflexivity]. intros _.
      split; [apply Hcr|]. intros k Hk.
      assert (Hin : k ∈ seq 0 (length m)) by (apply elem_of_seq; lia).
      rewrite Forall_forall in Hi, Hs, Hd.
      split; [now apply Hi|]. split; [now apply Hs | now apply Hd].
    + split; [discriminate|]. intros [_ Hk].
      destruct (Hk x (Hseq d x r Ed)) as (_ & _ & A).
      rewrite (Hr x r eq_refl) in A. discriminate.
Qed.

(** X14: what a handler that ran to its end has done: one session per mirrored
    directory, in the mapping's order and with its servers, each with a
    close listener; then one resolved [initFileCache] per session, then one
    resolved [syncWithRemote] per session, then one [watch] per session. *)
Theorem completed_handler_trace (m : Mapping) :
  (handler env (Some m) []).2 = Value tt ->
  exists X0,
    (handler env (Some m) []).1
    = X0 ++ awaited InitFileCache (seq 0 (length m))
         ++ awaited SyncWithRemote (seq 0 (length m))
         ++ invoked Watch (seq 0 (length m))
    /\ Forall (fun o => of_obs o = 0) X0
    /\ List.filter is_new_mirror X0
       = map (fun ps => Began (NewMirror ps.1 ps.2)) m
    /\ forall k, k < length m -> Began (OnClose k) ∈ X0.
Proof.
  destruct (handler_cases m) as (X0 & H0 & _ & Hcases).
  destruct Hcases as [(r & Hr & E & _)
                     |(_ & Hcr & [(d & x & r & _ & _ & Hx & E)
                                 |[(_ & d & x & r & _ & _ & Hx & E)
                                  |(_ & _ & d & r & Ed & _ & _ & E)]])];
    rewrite E; cbn [fst snd]; intros Hv.
  - congruence.
  - now apply await_halt_stops in Hv.
  - now apply await_halt_stops in Hv.
  - destruct r as [|x r]; [|discriminate].
    rewrite app_nil_r in Ed. subst d. simpl. rewrite app_nil_r.
    exists X0. split; [reflexivity|]. split; [exact H0|].
    destruct Hcr as (A & B & _). split; [exact A|].
    intros k Hk. apply B. lia.
Qed.

(** X15: a directory is made only if it is one of the mirrored ones and was
    found missing. *)
Theorem mkdir_only_for_missing_directories (m : Mapping) (p : string) :
  Began (Mkdir p) ∈ (handler env (Some m) []).1 ->
  existsSync env p = false /\ p ∈ map fst m.
Proof.
  destruct (handler_cases m) as (X0 & H0 & Hmk & Hcases).
  destruct Hcases as [(r & _ & E & _)
                     |(_ & _ & [(d & x & r & _ & _ & _ & E)
                               |[(_ & d & x & r & _ & _ & _ & E)
                                |(_ & _ & d & r & _ & _ & _ & E)]])];
    rewrite E; cbn [fst snd]; intros Hin;
    repeat (apply elem_of_app in Hin as [Hin|Hin]);
    try (now apply Hmk);
    try (apply awaited_elem in Hin as (y & _ & [?|?]); discriminate);
    try (apply await_halt_elem in Hin as (y & r' & _ & [?|[? _]]); discriminate);
    try (apply invoked_elem in Hin as (y & _ & ?); discriminate);
    try (apply invoke_halt_elem in Hin as (y & r' & _ & ?); discriminate).
Qed.

(** X16: no session's cache is initialised before every session exists and has
    its close listener: an [initFileCache] is begun only after the first
    loop has been through the whole mapping. *)
Theorem sessions_created_before_first_init (m : Mapping) (j : nat)
    (pre post : list Obs) :
  (handler env (Some m) []).1 = pre ++ Began (InitFileCache j) :: post ->
  (forall ps, ps ∈ m -> Began (NewMirror ps.1 ps.2) ∈ pre)
  /\ (forall k, k < length m -> Began (OnClose k) ∈ pre).
Proof.
  destruct (handler_cases m) as (X0 & H0 & _ & Hcases).
  assert (Hnot : Began (InitFileCache j) ∉ X0).
  { apply phase0_notin; [exact H0 | discriminate]. }
  assert (Hgo : forall Y, created env m 0 X0 ->
                  X0 ++ Y = pre ++ Began (InitFileCache j) :: post ->
                  (forall ps, ps ∈ m -> Began (NewMirror ps.1 ps.2) ∈ pre)
                  /\ (forall k, k < length m -> Began (OnClose k) ∈ pre)).
  { intros Y (Hnew & Hclose & _) E.
    apply split_after in E as (p0 & -> & _); [|exact Hnot].
    split.
    - intros ps Hps. apply elem_of_app. left.
      assert (Hin : Began (NewMirror ps.1 ps.2) ∈ List.filter is_new_mirror X0).
      { rewrite Hnew. apply list_elem_of_fmap. now exists ps. }
      apply list_elem_of_In, filter_In in Hin as [Hin _].
      now apply list_elem_of_In.
    - intros k Hk. apply elem_of_app. left. apply Hclose. lia. }
  destruct Hcases as [(r & _ & E & _)
                     |(_ & Hcr & [(d & x & r & _ & _ & _ & E)
                                 |[(_ & d & x & r & _ & _ & _ & E)
                                  |(_ & _ & d & r & _ & _ & _ & E)]])];
    rewrite E; cbn [fst snd]; intros Htr.
  - exfalso. apply Hnot. rewrite Htr. apply elem_of_app. right. left.
  - eapply Hgo; [exact Hcr | exact Htr].
  - eapply Hgo; [exact Hcr | exact Htr].
  - eapply Hgo; [exact Hcr | exact Htr].
Qed.

(** X17: a [watch] that throws ends the last loop: a session is watched only
    if the [watch] of every session before it returned. *)
Theorem watch_stops_at_first_throw (m : Mapping) (i : nat) :
  Began (Watch i) ∈ (handler env (Some m) []).1 ->
  i < length m /\ forall k, k < i -> watch env k = true.
Proof.
  destruct (handler_cases m) as (X0 & H0 & _ & Hcases).
  destruct Hcases as [(r & _ & E & _)
                     |(_ & _ & [(d & x & r & _ & _ & _ & E)
                               |[(_ & d & x & r & _ & _ & _ & E)
                                |(_ & _ & d & r & Ed & Hd & _ & E)]])];
    rewrite E; cbn [fst snd]; intros Hin;
    repeat (apply elem_of_app in Hin as [Hin|Hin]);
    try (exfalso; revert Hin; apply phase0_notin; [exact H0 | discriminate]);
    try (apply awaited_elem in Hin as (y & _ & [?|?]); discriminate);
    try (apply await_halt_elem in Hin as (y & r' & _ & [?|[? _]]); discriminate).
  - apply invoked_elem in Hin as (y & Hy & [= ->]).
    destruct (seq_split _ _ _ Ed) as (Ed1 & _ & Hn).
    rewrite Ed1 in Hy. apply elem_of_seq in Hy. split; [lia|].
    intros k Hk. rewrite Forall_forall in Hd. apply Hd.
    rewrite Ed1. apply elem_of_seq. lia.
  - apply invoke_halt_elem in Hin as (y & r' & -> & [= ->]).
    destruct (seq_split _ _ _ Ed) as (Ed1 & Er & Hn).
    simpl in Er. injection Er as Ey _. simpl in Hn. split; [lia|].
    intros k Hk. rewrite Forall_forall in Hd. apply Hd.
    rewrite Ed1. apply elem_of_seq. lia.
Qed.

End StartupFacts.

Section StartupExamples.

Import Mirror Phase Startup.

Lemma rejected_call_witness :
  (handler sync_fails (Some two_dirs) []).2 = Exception.
Proof.
  refine (proj1 (rejected_call_ends_the_handler sync_fails two_dirs
                   (SyncWithRemote 1) _)).
  cbv. repeat constructor.
Defined.

Lemma completed_handler_witness :
  exists X0,
    (handler kind_env (Some two_dirs) []).1
    = X0 ++ awaited InitFileCache [0; 1] ++ awaited SyncWithRemote [0; 1]
         ++ invoked Watch [0; 1]
    /\ Forall (fun o => of_obs o = 0) X0
    /\ List.filter is_new_mirror X0
       = [Began (NewMirror "scripts" ["home"]);
          Began (NewMirror "lib" ["home"; "n00dles"])]
    /\ forall k, k < 2 -> Began (OnClose k) ∈ X0.
Proof.
  apply (completed_handler_trace kind_env two_dirs). reflexivity.
Defined.

Lemma mkdir_only_witness :
  existsSync kind_env "scripts" = false /\ "scripts" ∈ ["scripts"; "lib"].
Proof.
  apply (mkdir_only_for_missing_directories kind_env two_dirs "scripts").
  cbv. repeat constructor.
Defined.

Lemma sessions_created_witness :
  Began (OnClose 1)
    ∈ [Began (Mkdir "scripts"); Resolved (Mkdir "scripts");
       Began (NewMirror "scripts" ["home"]); Began (OnClose 0);
       Began (NewMirror "lib" ["home"; "n00dles"]); Began (OnClose 1)].
Proof.
  refine (proj2 (sessions_created_before_first_init kind_env two_dirs 0 _
                   [Resolved (InitFileCache 0); Began (InitFileCache 1);
                    Resolved (InitFileCache 1);
                    Began (SyncWithRemote 0); Resolved (SyncWithRemote 0);
                    Began (SyncWithRemote 1); Resolved (SyncWithRemote 1);
                    Began (Watch 0); Began (Watch 1)]
                   _) 1 _).
  - reflexivity.
  - simpl. lia.
Defined.

Lemma watch_stops_witness :
  1 < 2 /\ forall k, k < 1 -> watch kind_env k = true.
Proof.
  apply (watch_stops_at_first_throw kind_env two_dirs 1).
  cbv. repeat constructor.
Defined.

End StartupExamples.

(** ** The plugin's [setup]: what it does before and after its checks *)

Section SetupFacts.

Import Hooks Plugin Start.

Variable env : Env.

Lemma dispatch_exact (h : hook_name) (exts : list Extension) (tr : list Obs) :
  (dispatch env h exts tr).1 = tr ++ calls h exts
  /\ ((dispatch env h exts tr).2 = Value tt <-> passes env h exts = true)
  /\ (forall m, (dispatch env h exts tr).2 <> Thrown (Error m)).
Proof.
  unfold dispatch, calls, passes.
  destruct (map_hooks h 0 exts) as [called [arr|]]; simpl.
  - destruct (allSettled (eventually env h arr)); repeat split; congruence.
  - repeat split; congruence.
Qed.

(** How far [setup] gets. *)
Lemma setup_cases (opts : option Options) (io : InitialOptions) :
  let e := exts_of opts in
  let p := port (default no_options opts) in
  let head := NewServer :: OnDispose :: calls Hooks.setup e in
  (passes env Hooks.setup e = false
   /\ exists r, r <> Value tt /\ (forall m, r <> Thrown (Error m))
        /\ setup env opts io [] = (head, r))
  \/ (passes env Hooks.setup e = true /\ valid opts io = false
      /\ exists msg, setup env opts io [] = (head, Thrown (Error msg))
           /\ (truthy_number p = false -> msg = "No port provided")
           /\ (truthy_number p = true -> truthy_boolean (write io) = true ->
               msg = "BitburnerPlugin doesn't support 'write' mode")
           /\ (truthy_number p = true -> truthy_boolean (write io) = false ->
               msg = "BitburnerPlugin requires the outdir option to be set"))
  \/ (passes env Hooks.setup e = true /\ valid opts io = true
      /\ passes env beforeConnect e = false
      /\ exists r, r <> Value tt
           /\ setup env opts io []
              = (head ++ Listen p :: calls beforeConnect e, r))
  \/ (passes env Hooks.setup e = true /\ valid opts io = true
      /\ passes env beforeConnect e = true
      /\ setup env opts io []
         = (head ++ Listen p :: calls beforeConnect e ++ registrations,
            Value tt)).
Proof.
  intros e p head.
  remember (setup env opts io []) as s eqn:Es.
  unfold setup in Es. fold (exts_of opts) in Es. fold e in Es. fold p in Es.
  unfold bind at 1 in Es. unfold emit at 1 in Es. cbn [app] in Es.
  unfold bind at 1 in Es. unfold emit at 1 in Es. cbn [app] in Es.
  unfold bind at 1 in Es.
  unfold valid. fold p.
  destruct (dispatch_exact Hooks.setup e [NewServer; OnDispose])
    as (E1 & V1 & N1).
  destruct (dispatch env Hooks.setup e [NewServer; OnDispose]) as [tr1 r1].
  simpl in E1, V1, N1. subst tr1. fold head in Es.
  destruct r1 as [[]|err|].
  2: { left. split.
       - destruct (passes env Hooks.setup e); [|reflexivity].
         discriminate (proj2 V1 eq_refl).
       - exists (Thrown err). split; [discriminate|]. split; [exact N1|].
         exact Es. }
  2: { left. split.
       - destruct (passes env Hooks.setup e); [|reflexivity].
         discriminate (proj2 V1 eq_refl).
       - exists Suspended. split; [discriminate|]. split; [discriminate|].
         exact Es. }
  right. rewrite (proj1 V1 eq_refl).
  destruct (truthy_number p) eqn:Hp; cbn [negb andb] in *.
  2: { left. split; [reflexivity|]. split; [reflexivity|].
       exists "No port provided". split; [exact Es|].
       split; [reflexivity|]. split; discriminate. }
  destruct (truthy_boolean (write io)) eqn:Hw; cbn [negb andb] in *.
  { left. split; [reflexivity|]. split; [reflexivity|].
    exists "BitburnerPlugin doesn't support 'write' mode".
    split; [exact Es|]. split; [discriminate|]. split; [reflexivity|].
    discriminate. }
  destruct (truthy_string (outdir io)) eqn:Ho; cbn [negb andb] in *.
  2: { left. split; [reflexivity|]. split; [reflexivity|].
       exists "BitburnerPlugin requires the outdir option to be set".
       split; [exact Es|]. split; [discriminate|]. split; [discriminate|].
       reflexivity. }
  right. unfold bind at 1 in Es. unfold emit at 1 in Es.
  unfold bind at 1 in Es.
  destruct (dispatch_exact beforeConnect e (head ++ [Listen p]))
    as (E2 & V2 & _).
  destruct (dispatch env beforeConnect e (head ++ [Listen p])) as [tr2 r2].
  simpl in E2, V2. subst tr2.
  destruct r2 as [[]|err|].
  2: { left. split; [reflexivity|]. split; [reflexivity|]. split.
       - destruct (passes env beforeConnect e); [|reflexivity].
         discriminate (proj2 V2 eq_refl).
       - exists (Thrown err). split; [discriminate|].
         rewrite Es. now rewrite <- app_assoc. }
  2: { left. split; [reflexivity|]. split; [reflexivity|]. split.
       - destruct (passes env beforeConnect e); [|reflexivity].
         discriminate (proj2 V2 eq_refl).
       - exists Suspended. split; [discriminate|].
         rewrite Es. now rewrite <- app_assoc. }
  right. split; [reflexivity|]. split; [reflexivity|].
  split; [exact (proj1 V2 eq_refl)|].
  rewrite Es. unfold bind, emit, registrations, head. cbn [fst snd].
  f_equal. simpl. now rewrite <- !app_assoc.
Qed.

Lemma calls_elem (h : hook_name) (exts : list Extension) (o : Obs) :
  o ∈ calls h exts -> exists k, o = Called h k.
Proof.
  unfold calls. intros H. apply list_elem_of_fmap in H as (k & -> & _).
  now exists k.
Qed.

Lemma calls_plain (h : hook_name) (exts : list Extension) :
  Forall (fun o => is_registration o = false /\ is_listen o = false)
    (calls h exts).
Proof.
  apply Forall_forall. intros o Ho.
  apply calls_elem in Ho as (k & ->). now split.
Qed.

Lemma filter_listen_calls (h : hook_name) (exts : list Extension) :
  List.filter is_listen (calls h exts) = [].
Proof.
  unfold calls. induction (map_hooks h 0 exts).1 as [|k l IH];
    [reflexivity | exact IH].
Qed.

(** X18: the configuration is looked at only after the server object is made,
    the dispose callback is registered and the [setup] hooks are called:
    with a configuration that fails a check, [setup] does all of that,
    then ends without its value, and neither listens nor registers any
    callback. *)
Theorem invalid_configuration_stops_after_setup_hooks
    (opts : option Options) (io : InitialOptions) :
  valid opts io = false ->
  (setup env opts io []).1
  = NewServer :: OnDispose :: calls Hooks.setup (exts_of opts)
  /\ (setup env opts io []).2 <> Value tt.
Proof.
  intros Hv.
  destruct (setup_cases opts io)
    as [(_ & r & Hr & _ & E)
       |[(_ & _ & msg & E & _)
        |[(_ & Hv' & _)|(_ & Hv' & _)]]];
    try congruence; rewrite E; split; try reflexivity; try exact Hr.
  discriminate.
Qed.

(** X19: once the [setup] hooks are through, the three checks are made in the
    order port, write, outdir, and the first that fails decides the error:
    a missing port is reported even if the bundler writes to disk, and
    writing to disk is reported even if no output directory is set. *)
Theorem configuration_checked_in_order
    (opts : option Options) (io : InitialOptions) :
  passes env Hooks.setup (exts_of opts) = true ->
  let p := port (default no_options opts) in
  let r := (setup env opts io []).2 in
  (truthy_number p = false -> r = Thrown (Error "No port provided"))
  /\ (truthy_number p = true -> truthy_boolean (write io) = true ->
      r = Thrown (Error "BitburnerPlugin doesn't support 'write' mode"))
  /\ (truthy_number p = true -> truthy_boolean (write io) = false ->
      truthy_string (outdir io) = false ->
      r = Thrown (Error "BitburnerPlugin requires the outdir option to be set")).
Proof.
  intros Hs p r. subst r.
  destruct (setup_cases opts io)
    as [(Hs' & _)
       |[(_ & _ & msg & E & M1 & M2 & M3)
        |[(_ & Hv & _)|(_ & Hv & _)]]];
    try congruence.
  - rewrite E. cbn [snd]. fold p in M1, M2, M3.
    split; [|split].
    + intros Hp. now rewrite (M1 Hp).
    + intros Hp Hw. now rewrite (M2 Hp Hw).
    + intros Hp Hw _. now rewrite (M3 Hp Hw).
  - unfold valid in Hv. fold p in Hv.
    apply andb_prop in Hv as [Hv Ho]. apply andb_prop in Hv as [Hp Hw].
    apply negb_true_iff in Hw.
    split; [|split]; intros; congruence.
  - unfold valid in Hv. fold p in Hv.
    apply andb_prop in Hv as [Hv Ho]. apply andb_prop in Hv as [Hp Hw].
    apply negb_true_iff in Hw.
    split; [|split]; intros; congruence.
Qed.

(** X20: when a [setup] hook throws, or returns a promise that never settles,
    [setup] ends there, whatever the configuration: a configuration that
    would fail a check is not reported. *)
Theorem failing_setup_hook_hides_configuration_errors
    (opts : option Options) (io : InitialOptions) :
  passes env Hooks.setup (exts_of opts) = false ->
  (setup env opts io []).1
  = NewServer :: OnDispose :: calls Hooks.setup (exts_of opts)
  /\ (setup env opts io []).2 <> Value tt
  /\ forall msg, (setup env opts io []).2 <> Thrown (Error msg).
Proof.
  intros Hs.
  destruct (setup_cases opts io)
    as [(_ & r & Hr & Hm & E)
       |[(Hs' & _)|[(Hs' & _)|(Hs' & _)]]];
    try congruence.
  rewrite E. now repeat split.
Qed.

(** X21: [setup] runs to its end exactly when the hooks of both rounds return
    and their promises settle, and the configuration passes the checks. *)
Theorem setup_completes_iff (opts : option Options) (io : InitialOptions) :
  (setup env opts io []).2 = Value tt
  <-> passes env Hooks.setup (exts_of opts) = true
      /\ valid opts io = true
      /\ passes env beforeConnect (exts_of opts) = true.
Proof.
  destruct (setup_cases opts io)
    as [(Hs & r & Hr & _ & E)
       |[(Hs & Hv & msg & E & _)
        |[(Hs & Hv & Hb & r & Hr & E)|(Hs & Hv & Hb & E)]]];
    rewrite E; cbn [snd]; split;
    try (intros (A & B & C); congruence); try (intros A; congruence).
  intros _. now repeat split.
Qed.

(** X22: the callbacks are registered all or none: if any of them is
    registered, then [setup] has run to its end, and the eight of them
    (the four listeners for a connecting client, then [onStart],
    [onResolve], [onLoad], [onEnd]) close its trace in this order. *)
Theorem callbacks_registered_all_or_none
    (opts : option Options) (io : InitialOptions) (o : Obs) :
  o ∈ (setup env opts io []).1 -> is_registration o = true ->
  (setup env opts io []).2 = Value tt
  /\ exists pre,
       (setup env opts io []).1 = pre ++ registrations
       /\ Forall (fun x => is_registration x = false) pre.
Proof.
  assert (Hcalls : forall h x, x ∈ calls h (exts_of opts) ->
                     is_registration x = true -> False).
  { intros h x Hx Hr. apply calls_elem in Hx as (k & ->). discriminate. }
  assert (Hplain : forall h, Forall (fun x => is_registration x = false)
                               (calls h (exts_of opts))).
  { intros h. apply Forall_forall. intros x Hx.
    apply calls_elem in Hx as (k & ->). reflexivity. }
  destruct (setup_cases opts io)
    as [(_ & r & _ & _ & E)
       |[(_ & _ & msg & E & _)
        |[(_ & _ & _ & r & _ & E)|(_ & _ & _ & E)]]];
    rewrite E; cbn [fst snd]; intros Hin Hreg.
  - exfalso. apply elem_of_cons in Hin as [->|Hin]; [discriminate|].
    apply elem_of_cons in Hin as [->|Hin]; [discriminate|]. eauto.
  - exfalso. apply elem_of_cons in Hin as [->|Hin]; [discriminate|].
    apply elem_of_cons in Hin as [->|Hin]; [discriminate|]. eauto.
  - exfalso. apply elem_of_app in Hin as [Hin|Hin].
    + apply elem_of_cons in Hin as [->|Hin]; [discriminate|].
      apply elem_of_cons in Hin as [->|Hin]; [discriminate|]. eauto.
    + apply elem_of_cons in Hin as [->|Hin]; [discriminate|]. eauto.
  - split; [reflexivity|].
    exists ((NewServer :: OnDispose :: calls Hooks.setup (exts_of opts))
            ++ Listen (port (default no_options opts))
               :: calls beforeConnect (exts_of opts)).
    split; [now rewrite <- app_assoc|].
    apply Forall_app. split.
    + repeat (constructor; [reflexivity|]). apply Hplain.
    + constructor; [reflexivity|]. apply Hplain.
Qed.

(** X23: the server is told to listen at most once, with the configured
    port, only under a configuration that passes all three checks (port,
    write mode, output directory), after every [setup] hook and before
    every [beforeConnect] hook; the server listens before any listener for
    a connecting client is there. *)
Theorem listens_once_between_hook_rounds
    (opts : option Options) (io : InitialOptions) (q : option Z) :
  Listen q ∈ (setup env opts io []).1 ->
  q = port (default no_options opts)
  /\ truthy_number q = true
  /\ valid opts io = true
  /\ passes env Hooks.setup (exts_of opts) = true
  /\ length (List.filter is_listen (setup env opts io []).1) = 1
  /\ exists post,
       (setup env opts io []).1
       = NewServer :: OnDispose :: calls Hooks.setup (exts_of opts)
         ++ Listen q :: calls beforeConnect (exts_of opts) ++ post
       /\ (post = [] \/ post = registrations).
Proof.
  assert (Hcalls : forall h, Listen q ∈ calls h (exts_of opts) -> False).
  { intros h Hx. apply calls_elem in Hx as (k & ?). discriminate. }
  assert (Hport : valid opts io = true ->
                  truthy_number (port (default no_options opts)) = true).
  { unfold valid. intros Hv. apply andb_prop in Hv as [Hv _].
    now apply andb_prop in Hv as [Hv _]. }
  destruct (setup_cases opts io)
    as [(_ & r & _ & _ & E)
       |[(_ & _ & msg & E & _)
        |[(Hs & Hv & _ & r & _ & E)|(Hs & Hv & _ & E)]]];
    rewrite E; cbn [fst snd]; intros Hin.
  - exfalso. apply elem_of_cons in Hin as [?|Hin]; [discriminate|].
    apply elem_of_cons in Hin as [?|Hin]; [discriminate|]. eauto.
  - exfalso. apply elem_of_cons in Hin as [?|Hin]; [discriminate|].
    apply elem_of_cons in Hin as [?|Hin]; [discriminate|]. eauto.
  - assert (Eq : q = port (default no_options opts)).
    { apply elem_of_app in Hin as [Hin|Hin].
      - exfalso. apply elem_of_cons in Hin as [?|Hin]; [discriminate|].
        apply elem_of_cons in Hin as [?|Hin]; [discriminate|]. eauto.
      - apply elem_of_cons in Hin as [[= ->]|Hin]; [reflexivity|].
        exfalso. eauto. }
    subst q. split; [reflexivity|]. split; [now apply Hport|].
    split; [exact Hv|]. split; [exact Hs|]. split.
    + simpl. rewrite List.filter_app. simpl.
      now rewrite !filter_listen_calls.
    + exists []. rewrite app_nil_r. split; [reflexivity | now left].
  - assert (Eq : q = port (default no_options opts)).
    { apply elem_of_app in Hin as [Hin|Hin].
      - exfalso. apply elem_of_cons in Hin as [?|Hin]; [discriminate|].
        apply elem_of_cons in Hin as [?|Hin]; [discriminate|]. eauto.
      - apply elem_of_cons in Hin as [[= ->]|Hin]; [reflexivity|].
        apply elem_of_app in Hin as [Hin|Hin]; [exfalso; eauto|].
        exfalso. unfold registrations in Hin.
        repeat (apply elem_of_cons in Hin as [?|Hin]; [discriminate|]).
        inversion Hin. }
    subst q. split; [reflexivity|]. split; [now apply Hport|].
    split; [exact Hv|]. split; [exact Hs|]. split.
    + simpl. rewrite List.filter_app. simpl. rewrite List.filter_app.
      now rewrite !filter_listen_calls.
    + exists registrations. split; [reflexivity | now right].
Qed.

End SetupFacts.

(** ** The distribution handler *)

Section DistributeFacts.

Import Hooks Plugin Start.

Variable env : Env.

Lemma for_in_stops (done rest : Mirror.Mapping) (p : string)
    (sv : list string) (tr : list Obs) :
  Forall (fun ps => distribute_returns env ps.1 = true) done ->
  distribute_returns env p = false ->
  for_in (done ++ (p, sv) :: rest)
    (fun path servers =>
       invoke (DistributeCall path servers) (distribute_returns env path)) tr
  = (tr ++ distributions done ++ [DistributeCall p sv], Thrown Foreign).
Proof.
  intros Hd Hp. revert tr. induction Hd as [|[p0 sv0] done H0 _ IH]; intros tr.
  - simpl. unfold bind, invoke. now rewrite Hp.
  - simpl in *. unfold bind at 1. unfold invoke at 1. rewrite H0.
    rewrite IH. now rewrite <- app_assoc.
Qed.

Lemma for_in_exact (m : Mirror.Mapping) (tr : list Obs) :
  (Forall (fun ps => distribute_returns env ps.1 = true) m
   /\ for_in m
        (fun path servers =>
           invoke (DistributeCall path servers) (distribute_returns env path))
        tr
      = (tr ++ distributions m, Value tt))
  \/ exists done p sv rest,
       m = done ++ (p, sv) :: rest
       /\ Forall (fun ps => distribute_returns env ps.1 = true) done
       /\ distribute_returns env p = false.
Proof.
  revert tr. induction m as [|[p sv] m IH]; intros tr.
  - left. split; [constructor|]. simpl. unfold ret. now rewrite app_nil_r.
  - destruct (distribute_returns env p) eqn:Hp.
    + destruct (IH (tr ++ [DistributeCall p sv]))
        as [[Hall E]|(done & p' & sv' & rest & -> & Hd & Hp')].
      * left. split; [now constructor|].
        simpl. unfold bind at 1. unfold invoke at 1. rewrite Hp.
        rewrite E. now rewrite <- app_assoc.
      * right. exists ((p, sv) :: done), p', sv', rest.
        split; [reflexivity|]. split; [now constructor | exact Hp'].
    + right. exists [], p, sv, m. split; [reflexivity|].
      split; [constructor | exact Hp].
Qed.

Lemma passes_when_settled (h : hook_name) (exts : list Extension) :
  Forall (fun e => e h <> Some Throws) exts ->
  (forall k, fate env h k <> Pending) ->
  passes env h exts = true.
Proof.
  intros Hth Hfate. unfold passes.
  destruct (map_hooks_without_throw h exts 0 Hth) as (arr & E & _).
  rewrite E. cbn [snd]. apply allSettled_ignores_outcome.
  apply Forall_lookup. intros k p Hk. unfold eventually in Hk.
  rewrite list_lookup_imap in Hk.
  destruct (arr !! k) as [p0|]; [|discriminate].
  injection Hk as <-. destruct p0; [apply Hfate | discriminate..].
Qed.

(** How far the handler gets when there is something to distribute. *)
Lemma distribute_cases (opts : option Options) (m : Mirror.Mapping) :
  distribute (default no_options opts) = Some m ->
  let e := exts_of opts in
  (passes env beforeDistribute e = false
   /\ exists r, r <> Value tt
        /\ on_connected_distribute env opts []
           = (calls beforeDistribute e, r))
  \/ (passes env beforeDistribute e = true
      /\ exists done p sv rest,
           m = done ++ (p, sv) :: rest
           /\ Forall (fun ps => distribute_returns env ps.1 = true) done
           /\ distribute_returns env p = false
           /\ on_connected_distribute env opts []
              = (calls beforeDistribute e ++ distributions done
                   ++ [DistributeCall p sv],
                 Thrown Foreign))
  \/ (passes env beforeDistribute e = true
      /\ Forall (fun ps => distribute_returns env ps.1 = true) m
      /\ (on_connected_distribute env opts []).1
         = calls beforeDistribute e ++ distributions m
             ++ calls afterDistribute e
      /\ ((on_connected_distribute env opts []).2 = Value tt
          <-> passes env afterDistribute e = true)).
Proof.
  intros Hm e.
  remember (on_connected_distribute env opts []) as s eqn:Es.
  unfold on_connected_distribute in Es. rewrite Hm in Es.
  fold (exts_of opts) in Es. fold e in Es.
  unfold bind at 1 in Es.
  destruct (dispatch_exact env beforeDistribute e []) as (E1 & V1 & _).
  destruct (dispatch env beforeDistribute e []) as [tr1 r1].
  simpl in E1, V1. subst tr1.
  destruct r1 as [[]|err|].
  2: { left. split.
       - destruct (passes env beforeDistribute e); [|reflexivity].
         discriminate (proj2 V1 eq_refl).
       - exists (Thrown err). split; [discriminate | exact Es]. }
  2: { left. split.
       - destruct (passes env beforeDistribute e); [|reflexivity].
         discriminate (proj2 V1 eq_refl).
       - exists Suspended. split; [discriminate | exact Es]. }
  right. rewrite (proj1 V1 eq_refl). unfold bind at 1 in Es.
  destruct (for_in_exact m (calls beforeDistribute e))
    as [[Hall E]|(done & p & sv & rest & Em & Hd & Hp)].
  - right. split; [reflexivity|]. split; [exact Hall|].
    rewrite E in Es.
    destruct (dispatch_exact env afterDistribute e
                (calls beforeDistribute e ++ distributions m))
      as (E2 & V2 & _).
    rewrite Es. split; [now rewrite E2, <- app_assoc | exact V2].
  - left. split; [reflexivity|]. exists done, p, sv, rest.
    split; [exact Em|]. split; [exact Hd|]. split; [exact Hp|].
    rewrite Em, (for_in_stops done rest p sv _ Hd Hp) in Es. exact Es.
Qed.

(** X24: a handler that ran to its end has distributed every directory of
    the mapping exactly once, in the mapping's order, after the calls of
    all [beforeDistribute] hooks and before those of all
    [afterDistribute] hooks. *)
Theorem completed_distribution_follows_mapping
    (opts : option Options) (m : Mirror.Mapping) :
  distribute (default no_options opts) = Some m ->
  (on_connected_distribute env opts []).2 = Value tt ->
  (on_connected_distribute env opts []).1
  = calls beforeDistribute (exts_of opts) ++ distributions m
      ++ calls afterDistribute (exts_of opts).
Proof.
  intros Hm.
  destruct (distribute_cases opts m Hm)
    as [(_ & r & Hr & E)
       |[(_ & done & p & sv & rest & _ & _ & _ & E)
        |(_ & _ & E & _)]].
  - rewrite E. cbn [snd]. congruence.
  - rewrite E. discriminate.
  - intros _. exact E.
Qed.

(** X25: a [remoteAPI.distribute] that throws ends the handler: the
    directories after it are not distributed, and no [afterDistribute]
    hook is called. *)
Theorem throwing_distribute_skips_the_rest
    (opts : option Options) (done rest : Mirror.Mapping)
    (p : string) (sv : list string) :
  distribute (default no_options opts) = Some (done ++ (p, sv) :: rest) ->
  passes env beforeDistribute (exts_of opts) = true ->
  Forall (fun ps => distribute_returns env ps.1 = true) done ->
  distribute_returns env p = false ->
  on_connected_distribute env opts []
  = (calls beforeDistribute (exts_of opts) ++ distributions done
       ++ [DistributeCall p sv],
     Thrown Foreign).
Proof.
  intros Hm Hb Hd Hp.
  unfold on_connected_distribute. rewrite Hm. fold (exts_of opts).
  unfold bind at 1.
  destruct (dispatch_exact env beforeDistribute (exts_of opts) [])
    as (E1 & V1 & _).
  destruct (dispatch env beforeDistribute (exts_of opts) []) as [tr1 r1].
  simpl in E1, V1. subst tr1. rewrite (proj2 V1 Hb).
  unfold bind at 1. now rewrite (for_in_stops done rest p sv _ Hd Hp).
Qed.

(** X26: a directory is distributed only if it is in the mapping, the
    [beforeDistribute] hooks all returned and their promises all settled. *)
Theorem distribution_waits_for_hooks
    (opts : option Options) (m : Mirror.Mapping) (p : string)
    (sv : list string) :
  distribute (default no_options opts) = Some m ->
  DistributeCall p sv ∈ (on_connected_distribute env opts []).1 ->
  passes env beforeDistribute (exts_of opts) = true /\ (p, sv) ∈ m.
Proof.
  intros Hm.
  assert (Hcalls : forall h, DistributeCall p sv ∈ calls h (exts_of opts) ->
                     False).
  { intros h Hx. apply calls_elem in Hx as (k & ?). discriminate. }
  assert (Hdist : forall l, DistributeCall p sv ∈ distributions l ->
                    (p, sv) ∈ l).
  { intros l Hx. apply list_elem_of_fmap in Hx as ([p' sv'] & [= -> ->] & Hx).
    exact Hx. }
  destruct (distribute_cases opts m Hm)
    as [(_ & r & Hr & E)
       |[(Hb & done & p' & sv' & rest & -> & _ & _ & E)
        |(Hb & _ & E & _)]];
    rewrite E; cbn [fst]; intros Hin.
  - exfalso. eauto.
  - split; [exact Hb|].
    apply elem_of_app in Hin as [Hin|Hin]; [exfalso; eauto|].
    apply elem_of_app in Hin as [Hin|Hin].
    + apply elem_of_app. left. now apply Hdist.
    + apply list_elem_of_singleton in Hin. injection Hin as -> ->.
      apply elem_of_app. right. left.
  - split; [exact Hb|].
    apply elem_of_app in Hin as [Hin|Hin]; [exfalso; eauto|].
    apply elem_of_app in Hin as [Hin|Hin]; [now apply Hdist|].
    exfalso. eauto.
Qed.

(** X27: rejected hook promises do not stop the distribution: when no hook
    throws, every hook promise settles one way or the other, and every
    [remoteAPI.distribute] returns, the handler runs to its end. *)
Theorem distribution_ignores_rejected_hooks
    (opts : option Options) (m : Mirror.Mapping) :
  distribute (default no_options opts) = Some m ->
  Forall (fun e => e beforeDistribute <> Some Throws
                   /\ e afterDistribute <> Some Throws) (exts_of opts) ->
  (forall h k, fate env h k <> Pending) ->
  Forall (fun ps => distribute_returns env ps.1 = true) m ->
  on_connected_distribute env opts []
  = (calls beforeDistribute (exts_of opts) ++ distributions m
       ++ calls afterDistribute (exts_of opts),
     Value tt).
Proof.
  intros Hm Hth Hfate Hall.
  assert (Hb : passes env beforeDistribute (exts_of opts) = true).
  { apply passes_when_settled; [|apply Hfate].
    eapply Forall_impl; [exact Hth|]. now intros x [A _]. }
  assert (Ha : passes env afterDistribute (exts_of opts) = true).
  { apply passes_when_settled; [|apply Hfate].
    eapply Forall_impl; [exact Hth|]. now intros x [_ A]. }
  destruct (distribute_cases opts m Hm)
    as [(Hb' & _)
       |[(_ & done & p & sv & rest & -> & _ & Hp & _)
        |(_ & _ & E & V)]].
  - congruence.
  - exfalso. apply Forall_app in Hall as [_ Hall].
    inversion Hall as [|? ? Hp' _]. simpl in Hp'. congruence.
  - apply V in Ha.
    destruct (on_connected_distribute env opts []) as [tr r].
    simpl in E, Ha. now subst.
Qed.

End DistributeFacts.

Section PluginExamples.

Import Hooks Plugin Start.

Lemma invalid_configuration_witness :
  (setup calm (Some no_port) bundler []).1
  = [NewServer; OnDispose; Called Hooks.setup 0].
Proof.
  exact (proj1 (invalid_configuration_stops_after_setup_hooks calm
                  (Some no_port) bundler eq_refl)).
Defined.

Lemma configuration_checked_witness :
  (setup calm (Some no_port) writing_bundler []).2
  = Thrown (Error "No port provided").
Proof.
  exact (proj1 (configuration_checked_in_order calm (Some no_port)
                  writing_bundler eq_refl) eq_refl).
Defined.

Lemma failing_setup_hook_witness :
  (setup stalled (Some no_port) bundler []).1
  = [NewServer; OnDispose; Called Hooks.setup 0].
Proof.
  exact (proj1 (failing_setup_hook_hides_configuration_errors
                  stalled (Some no_port) bundler eq_refl)).
Defined.

Lemma callbacks_registered_witness :
  (setup calm (Some good_options) bundler []).2 = Value tt.
Proof.
  refine (proj1 (callbacks_registered_all_or_none calm (Some good_options)
                   bundler OnEnd _ eq_refl)).
  cbv. repeat constructor.
Defined.

Lemma listens_once_witness :
  length (List.filter is_listen (setup calm (Some good_options) bundler []).1)
  = 1.
Proof.
  refine (proj1 (proj2 (proj2 (proj2 (proj2
            (listens_once_between_hook_rounds calm (Some good_options)
               bundler (Some 12525%Z) _)))))).
  cbv. repeat constructor.
Defined.

Lemma completed_distribution_witness :
  (on_connected_distribute calm (Some good_options) []).1
  = [Called beforeDistribute 1;
     DistributeCall "build/home" ["home"];
     DistributeCall "build/lib" ["n00dles"];
     Called afterDistribute 1].
Proof.
  exact (completed_distribution_follows_mapping calm (Some good_options)
           _ eq_refl eq_refl).
Defined.

Lemma throwing_distribute_witness :
  on_connected_distribute first_fails (Some good_options) []
  = ([Called beforeDistribute 1; DistributeCall "build/home" ["home"]],
     Thrown Foreign).
Proof.
  exact (throwing_distribute_skips_the_rest first_fails (Some good_options)
           [] [("build/lib", ["n00dles"])] "build/home" ["home"]
           eq_refl eq_refl (List.Forall_nil _) eq_refl).
Defined.

Lemma distribution_waits_witness :
  passes calm beforeDistribute [helper; announcer] = true
  /\ ("build/lib", ["n00dles"])
       ∈ [("build/home", ["home"]); ("build/lib", ["n00dles"])].
Proof.
  refine (distribution_waits_for_hooks calm (Some good_options) _
            "build/lib" ["n00dles"] eq_refl _).
  cbv. repeat constructor.
Defined.

Lemma distribution_ignores_rejected_witness :
  on_connected_distribute rejecting (Some good_options) []
  = ([Called beforeDistribute 1;
      DistributeCall "build/home" ["home"];
      DistributeCall "build/lib" ["n00dles"];
      Called afterDistribute 1], Value tt).
Proof.
  refine (distribution_ignores_rejected_hooks rejecting
            (Some good_options) _ eq_refl _ _ _).
  - repeat constructor; discriminate.
  - intros h k. discriminate.
  - repeat constructor.
Defined.

End PluginExamples.
